(** * DatabaseService: the read-through query cache in front of the data gateway

    Shallow embedding of [DatabaseService] ("Enhanced Database Service with
    Caching and Query Optimization"): key encoding, the in-memory cache with
    TTL and tags, the read and write operations and [batch].

    Conventions of the embedding
    - a JavaScript string is the [string] of its UTF-8 bytes (what
      [Buffer.from] sees);
    - a JavaScript number is an integer, in [Z]: a double computes exactly
      with integers up to 2^53, which covers every valid date (a [Date] is
      valid up to 8.64e15 ms either side of the epoch);
    - a JavaScript object is the list of its own properties in enumeration
      order, which for names that are not array indices is the order in which
      the caller constructed them;
    - the service instance, the clock, the remote store's call history and the
      logger's output are threaded explicitly through a state record;
    - calls run one after the other: an [await] advances the clock by the
      reply's latency and nothing else happens meanwhile.  The callback of
      the timer that [setupCacheCleanup] starts is [cacheCleanup]; when it
      runs is up to whoever uses the model. *)

From Stdlib Require Import ZArith NArith String Ascii List DecimalString DecimalPos DecimalZ.
From stdpp Require Import base option list gmap strings fin_maps.

Set Warnings "-register-all".

Local Open Scope Z_scope.
Local Open Scope string_scope.

(** ** JSON values and [JSON.stringify] *)

Inductive json : Type :=
| JNull
| JBool (b : bool)
| JNum (n : Z)
| JStr (s : string)
| JArr (items : list json)
| JObj (fields : list (string * json)).

Definition dquote : ascii := ascii_of_nat 34.
Definition backslash : ascii := ascii_of_nat 92.

Definition hex_digit (n : N) : ascii :=
  nth (N.to_nat n) (list_ascii_of_string "0123456789abcdef") "0"%char.

(** One character inside a JSON string literal. *)
Definition quote_char (c : ascii) : string :=
  let n := N_of_ascii c in
  if (n =? 34)%N then String backslash (String dquote EmptyString)
  else if (n =? 92)%N then String backslash (String backslash EmptyString)
  else if (n =? 8)%N then String backslash "b"
  else if (n =? 9)%N then String backslash "t"
  else if (n =? 10)%N then String backslash "n"
  else if (n =? 12)%N then String backslash "f"
  else if (n =? 13)%N then String backslash "r"
  else if (n <? 32)%N then
    String backslash
      ("u00" +:+ String (hex_digit (n / 16)) (String (hex_digit (n mod 16)) EmptyString))
  else String c EmptyString.

Fixpoint quote_body (s : string) : string :=
  match s with
  | EmptyString => EmptyString
  | String c rest => quote_char c +:+ quote_body rest
  end.

Definition quote (s : string) : string :=
  String dquote (quote_body s +:+ String dquote EmptyString).

(** An integer as [JSON.stringify] and [String] print it: every digit, which
    is what JavaScript does up to 1e21. *)
Definition number_to_string (n : Z) : string :=
  NilZero.string_of_int (Z.to_int n).

(** [Array.prototype.join]. *)
Fixpoint join (sep : string) (parts : list string) : string :=
  match parts with
  | [] => EmptyString
  | [p] => p
  | p :: rest => p +:+ sep +:+ join sep rest
  end.

(** [JSON.stringify(v)] without indentation. *)
Fixpoint stringify (v : json) : string :=
  match v with
  | JNull => "null"
  | JBool true => "true"
  | JBool false => "false"
  | JNum n => number_to_string n
  | JStr s => quote s
  | JArr items => "[" +:+ join "," (List.map stringify items) +:+ "]"
  | JObj fields =>
      "{" +:+
      join "," (List.map (fun kv => quote (fst kv) +:+ ":" +:+ stringify (snd kv)) fields)
      +:+ "}"
  end.

(** ** [Buffer.from(key).toString('base64')] *)

Definition sextet : Type := bool * bool * bool * bool * bool * bool.

(** Value of a sextet, most significant bit first. *)
Definition sextet_index (x : sextet) : nat :=
  let '(b5, b4, b3, b2, b1, b0) := x in
  let bit (b : bool) (w : nat) : nat := if b then w else 0%nat in
  (bit b5 32 + bit b4 16 + bit b3 8 + bit b2 4 + bit b1 2 + bit b0 1)%nat.

Definition base64_alphabet : list ascii :=
  list_ascii_of_string
    "ABCDEFGHIJKLMNOPQRSTUVWXYZabcdefghijklmnopqrstuvwxyz0123456789+/".

Definition base64_char (x : sextet) : ascii :=
  nth (sextet_index x) base64_alphabet "="%char.

Definition pad : ascii := "="%char.

(** Three bytes give four characters; one or two trailing bytes are padded. *)
Fixpoint base64_bytes (bytes : list ascii) : list ascii :=
  match bytes with
  | [] => []
  | [Ascii a0 a1 a2 a3 a4 a5 a6 a7] =>
      [ base64_char (a7, a6, a5, a4, a3, a2);
        base64_char (a1, a0, false, false, false, false);
        pad; pad ]
  | [Ascii a0 a1 a2 a3 a4 a5 a6 a7; Ascii b0 b1 b2 b3 b4 b5 b6 b7] =>
      [ base64_char (a7, a6, a5, a4, a3, a2);
        base64_char (a1, a0, b7, b6, b5, b4);
        base64_char (b3, b2, b1, b0, false, false);
        pad ]
  | Ascii a0 a1 a2 a3 a4 a5 a6 a7 :: Ascii b0 b1 b2 b3 b4 b5 b6 b7
      :: Ascii c0 c1 c2 c3 c4 c5 c6 c7 :: rest =>
      base64_char (a7, a6, a5, a4, a3, a2)
      :: base64_char (a1, a0, b7, b6, b5, b4)
      :: base64_char (b3, b2, b1, b0, c7, c6)
      :: base64_char (c5, c4, c3, c2, c1, c0)
      :: base64_bytes rest
  end.

Definition base64 (s : string) : string :=
  string_of_list_ascii (base64_bytes (list_ascii_of_string s)).

(** ** Cache keys *)

Inductive DatabaseOperation : Type :=
| OpSelect | OpInsert | OpUpdate | OpDelete | OpUpsert.

Definition operation_name (op : DatabaseOperation) : string :=
  match op with
  | OpSelect => "select"
  | OpInsert => "insert"
  | OpUpdate => "update"
  | OpDelete => "delete"
  | OpUpsert => "upsert"
  end.

(** The template literal [`${table}:${operation}:${JSON.stringify(params)}`]. *)
Definition key_text (table : string) (operation : DatabaseOperation) (params : json) : string :=
  table +:+ ":" +:+ operation_name operation +:+ ":" +:+ stringify params.

Definition generateCacheKey (table : string) (operation : DatabaseOperation) (params : json)
  : string :=
  base64 (key_text table operation params).

(** ** Property access on untyped option bags

    [options] arrives as whatever the caller passed.  [get_field name v] is
    the read [v.name] of a value that is not [null]: the own property of an
    object, and [undefined] ([None]) for a property the object lacks and for
    the properties the service asks of a boolean, a number, a string or an
    array (none of the names it reads is a built-in of those).  Reading a
    property of [null] throws a TypeError: that is [property], further down,
    through which every operation makes its first read of [options]. *)

Fixpoint assoc (name : string) (fields : list (string * json)) : option json :=
  match fields with
  | [] => None
  | (k, v) :: rest => if String.eqb k name then Some v else assoc name rest
  end.

Definition get_field (name : string) (v : json) : option json :=
  match v with
  | JObj fields => assoc name fields
  | _ => None
  end.

(** JavaScript truthiness of a value; [undefined] is [None]. *)
Definition truthy (v : option json) : bool :=
  match v with
  | None => false
  | Some JNull => false
  | Some (JBool b) => b
  | Some (JNum n) => negb (n =? 0)%Z
  | Some (JStr s) => negb (String.eqb s "")
  | Some (JArr _) => true
  | Some (JObj _) => true
  end.

(** [a || b]: the first operand when it is truthy, else the second. *)
Definition or_else (v : option json) (default : json) : json :=
  match v with
  | Some x => if truthy (Some x) then x else default
  | None => default
  end.

(** [if (v) ...]: the value, when there is one and it is truthy. *)
Definition when_truthy (v : option json) : option json :=
  match v with
  | Some x => if truthy (Some x) then Some x else None
  | None => None
  end.

(** ToNumber, for the values it turns into an integer.  A string, an array
    or an object is converted through its text, which may give a fraction,
    an infinity or NaN; the model does not compute with those. *)
Definition to_number (v : json) : option Z :=
  match v with
  | JNull => Some 0
  | JBool b => Some (if b then 1 else 0)
  | JNum n => Some n
  | _ => None
  end.

Definition string_items (items : list json) : list string :=
  omap (fun item => match item with JStr s => Some s | _ => None end) items.

Definition get_strings (name : string) (v : json) : option (list string) :=
  match get_field name v with
  | Some (JArr items) => Some (string_items items)
  | _ => None
  end.

(** ** The data gateway (the imported [supabase] client)

    A request is what the service hands to the client: the chain of builder
    calls on [supabase.from(table)], or one [supabase.rpc] call. *)

(** The second argument of [range]: [offset + (limit || 10) - 1].  On
    numbers (and on [true], [false] and [null], which [+] and [-] convert
    with ToNumber) this is arithmetic.  With a string, an array or an object
    among the operands [+] concatenates text; the request then carries
    whatever JavaScript makes of the two operands, which the model records
    by naming them. *)
Inductive RangeEnd : Type :=
| EndNumber (n : Z)
| EndCoerced (offset page : json).

Inductive BuilderCall : Type :=
| QSelect (columns : json)
| QInsert (data : option json)
| QUpdate (data : option json)
| QDelete
| QUpsert (data : option json)
| QReturning
| QEq (column : string) (value : json)
| QIn (column : string) (values : list json)
| QGte (column : string) (value : json)
| QLte (column : string) (value : json)
| QGt (column : string) (value : json)
| QLt (column : string) (value : json)
| QLike (column : string) (value : json)
| QIlike (column : string) (value : json)
| QOrder (column : option json) (ascending : bool)
| QLimit (count : json)
| QRange (from : json) (to : RangeEnd)
| QOnConflict (target : json).

Inductive Request : Type :=
| FromTable (table : string) (chain : list BuilderCall)
| Rpc (fn : string) (args : json).

Definition rows : Type := list json.

(** A thrown value: an [Error] (a TypeError and a RangeError are errors too)
    with its message, or anything else. *)
Inductive exn : Type :=
| ErrorObject (message : string)
| ThrownValue (v : json).

(** Modelled from the spec: the client module [./supabase] is imported by the
    service and not part of it.  Each gateway operation yields "rows or
    error"; this is what [await query] destructures as [{ data, error }],
    with the error's message. *)
Inductive Response : Type :=
| Rows (data : rows)
| Failure (message : string).

(** An await either yields a response or throws; the service wraps every
    await in try/catch. *)
Inductive Outcome : Type :=
| Responds (r : Response)
| Throws (e : exn).

Record Reply : Type := { outcome : Outcome; latency : N }.

(** ** Service state *)

Record CacheEntry : Type := {
  entry_data : rows;
  entry_expiresAt : Z;
  entry_tags : list string;
}.

(** [cachedAt] and [expiresAt] hold the millisecond value of the date whose
    ISO string the service returns. *)
Record QueryResult (T : Type) : Type := {
  data : option T;
  error : option string;
  fromCache : bool;
  cachedAt : option Z;
  expiresAt : option Z;
}.
Arguments data {T} _.
Arguments error {T} _.
Arguments fromCache {T} _.
Arguments cachedAt {T} _.
Arguments expiresAt {T} _.

Inductive LogLevel : Type := LogInfo | LogWarn | LogError | LogDebug.

(** One call to the logger: level, message, context and optional data. *)
Record LogCall : Type := {
  log_level : LogLevel;
  log_message : string;
  log_context : string;
  log_data : option json;
}.

(** The singleton's fields ([cache], [isCacheEnabled], [defaultTTL]) together
    with the environment it acts on: [Date.now()], the requests the gateway
    has received, and the logger calls made.  [queryCache] is never written
    and is left out. *)
Record World : Type := {
  cache : gmap string CacheEntry;
  isCacheEnabled : bool;
  defaultTTL : Z;
  clock : Z;
  gateway_calls : list Request;
  logged : list LogCall;
}.

Definition set_cache (c : gmap string CacheEntry) (w : World) : World :=
  {| cache := c; isCacheEnabled := isCacheEnabled w; defaultTTL := defaultTTL w;
     clock := clock w; gateway_calls := gateway_calls w; logged := logged w |}.

Definition set_enabled (b : bool) (w : World) : World :=
  {| cache := cache w; isCacheEnabled := b; defaultTTL := defaultTTL w;
     clock := clock w; gateway_calls := gateway_calls w; logged := logged w |}.

Definition set_ttl (t : Z) (w : World) : World :=
  {| cache := cache w; isCacheEnabled := isCacheEnabled w; defaultTTL := t;
     clock := clock w; gateway_calls := gateway_calls w; logged := logged w |}.

Definition set_clock (t : Z) (w : World) : World :=
  {| cache := cache w; isCacheEnabled := isCacheEnabled w; defaultTTL := defaultTTL w;
     clock := t; gateway_calls := gateway_calls w; logged := logged w |}.

Definition set_gateway_calls (l : list Request) (w : World) : World :=
  {| cache := cache w; isCacheEnabled := isCacheEnabled w; defaultTTL := defaultTTL w;
     clock := clock w; gateway_calls := l; logged := logged w |}.

Definition set_logged (l : list LogCall) (w : World) : World :=
  {| cache := cache w; isCacheEnabled := isCacheEnabled w; defaultTTL := defaultTTL w;
     clock := clock w; gateway_calls := gateway_calls w; logged := l |}.

(** Time passing between two calls. *)
Definition advance (ms : Z) (w : World) : World := set_clock (clock w + ms) w.

(** A fresh instance: empty cache, caching on, five minutes default TTL. *)
Definition initial (now : Z) : World :=
  {| cache := ∅; isCacheEnabled := true; defaultTTL := 300;
     clock := now; gateway_calls := []; logged := [] |}.

(** ** A state monad with exceptions, for [async] bodies under try/catch *)

Definition M (A : Type) : Type := World -> (exn + A) * World.

Definition ret {A} (a : A) : M A := fun w => (inr a, w).

Definition bind {A B} (m : M A) (k : A -> M B) : M B :=
  fun w =>
    match m w with
    | (inl e, w') => (inl e, w')
    | (inr a, w') => k a w'
    end.

Definition throw {A} (e : exn) : M A := fun w => (inl e, w).

Definition try_catch {A} (body : M A) (handler : exn -> M A) : M A :=
  fun w =>
    match body w with
    | (inl e, w') => handler e w'
    | (inr a, w') => (inr a, w')
    end.

Declare Scope svc_scope.
Delimit Scope svc_scope with svc.
Notation "x <- m ;; k" := (bind m (fun x => k))
  (at level 100, m at next level, right associativity) : svc_scope.
Notation "m ;; k" := (bind m (fun _ => k))
  (at level 100, right associativity) : svc_scope.
Local Open Scope svc_scope.

(** The TypeError of a property read on [null], in V8's wording. *)
Definition null_read (name : string) : exn :=
  ErrorObject ("Cannot read properties of null (reading '" +:+ name +:+ "')").

(** [v.name], for a [v] that may be [null]. *)
Definition property (name : string) (v : json) : M (option json) :=
  match v with
  | JNull => throw (null_read name)
  | _ => ret (get_field name v)
  end.

(** ** Dates

    A time value is a valid date up to 8.64e15 ms either side of the epoch;
    [new Date(t).toISOString()] throws a RangeError for any other [t].  The
    result stands for the ISO text of the date. *)
Definition max_date : Z := 8640000000000000.

Definition in_date_range (t : Z) : Prop := - max_date <= t <= max_date.

Definition toISOString (t : Z) : exn + Z :=
  if ((- max_date <=? t) && (t <=? max_date))%Z then inr t
  else inl (ErrorObject "Invalid time value").

Definition logger (lvl : LogLevel) (msg : string) (data : option json) : M unit :=
  fun w =>
    (inr tt,
     set_logged (logged w ++ [ {| log_level := lvl; log_message := msg;
                                  log_context := "database"; log_data := data |} ]) w).

(** ** Cache operations *)

Definition setCacheEnabled (enabled : bool) : M unit :=
  (fun w => (inr tt, set_enabled enabled w)) ;;
  logger LogInfo ("Database caching " +:+ (if enabled then "enabled" else "disabled")) None.

Definition setDefaultTTL (ttl : Z) : M unit :=
  (fun w => (inr tt, set_ttl ttl w)) ;;
  logger LogInfo ("Default cache TTL set to " +:+ number_to_string ttl +:+ " seconds") None.

Definition isCacheValid (key : string) (w : World) : bool :=
  match cache w !! key with
  | None => false
  | Some entry => (clock w <? entry_expiresAt entry)%Z
  end.

(** A hit writes [cachedAt] and [expiresAt] as ISO text before it returns,
    so an entry whose dates are out of range makes the lookup throw. *)
Definition getFromCache (key : string) : M (option (QueryResult rows)) :=
  fun w =>
    if negb (isCacheEnabled w) then (inr None, w)
    else
      match cache w !! key with
      | Some entry =>
          if isCacheValid key w then
            match toISOString (entry_expiresAt entry - defaultTTL w * 1000),
                  toISOString (entry_expiresAt entry) with
            | inr cached, inr expires =>
                (inr (Some {| data := Some (entry_data entry);
                              error := None;
                              fromCache := true;
                              cachedAt := Some cached;
                              expiresAt := Some expires |}), w)
            | inl e, _ => (inl e, w)
            | _, inl e => (inl e, w)
            end
          else (inr None, set_cache (delete key (cache w)) w)
      | None => (inr None, set_cache (delete key (cache w)) w)
      end.

(** The two dates a hit on [entry] reports can both be written as text. *)
Definition dates_in_range (w : World) (entry : CacheEntry) : Prop :=
  in_date_range (entry_expiresAt entry - defaultTTL w * 1000)
  /\ in_date_range (entry_expiresAt entry).

(** The same of an entry stored at time [stored] for [ttl] seconds and read
    while the default TTL is [default]. *)
Definition servable (stored ttl default : Z) : Prop :=
  in_date_range (stored + ttl * 1000 - default * 1000)
  /\ in_date_range (stored + ttl * 1000).

Definition tags_json (tags : list string) : json := JArr (List.map JStr tags).

(** [ttl = None] is the omitted argument, which defaults to [defaultTTL]. *)
Definition setCache (key : string) (value : rows) (ttl : option Z) (tags : list string)
  : M unit :=
  fun w =>
    if negb (isCacheEnabled w) then (inr tt, w)
    else
      let ttl := match ttl with Some t => t | None => defaultTTL w end in
      let expiresAt := clock w + ttl * 1000 in
      logger LogDebug "Data cached"
        (Some (JObj [("key", JStr key); ("ttl", JNum ttl); ("tags", tags_json tags)]))
        (set_cache (<[key := {| entry_data := value; entry_expiresAt := expiresAt;
                                entry_tags := tags |}]> (cache w)) w).

(** [entry.tags.some(tag => tags.includes(tag))]. *)
Definition tags_hit (tags : list string) (entry : CacheEntry) : bool :=
  existsb (fun tag => bool_decide (tag ∈ tags)) (entry_tags entry).

(** One iteration of the loop over [this.cache.entries()]. *)
Definition invalidate_step (tags : list string)
    (acc : gmap string CacheEntry * Z) (item : string * CacheEntry)
  : gmap string CacheEntry * Z :=
  if tags_hit tags (snd item) then (delete (fst item) (fst acc), snd acc + 1) else acc.

Definition invalidateCacheByTags (tags : list string) : M unit :=
  fun w =>
    if negb (isCacheEnabled w) then (inr tt, w)
    else
      let '(remaining, invalidatedCount) :=
        foldl (invalidate_step tags) (cache w, 0) (map_to_list (cache w)) in
      logger LogInfo ("Cache invalidated for tags: " +:+ join ", " tags)
        (Some (JObj [("invalidatedCount", JNum invalidatedCount)]))
        (set_cache remaining w).

(** *** [invalidateCacheByTags] on a value that is not a [string[]]

    The writes pass [options.invalidateTags] on as it is.  The tags of an
    entry are strings, so of an array only the items that are strings can
    match ([includes] compares without conversion), and [join] prints every
    item.  A string has [includes] too, which looks for the tag inside the
    text, but no [join]; any other value has neither. *)

(** The text [join] gives an item. *)
Fixpoint item_text (v : json) : string :=
  match v with
  | JNull => ""
  | JBool true => "true"
  | JBool false => "false"
  | JNum n => number_to_string n
  | JStr s => s
  | JArr items => join "," (List.map item_text items)
  | JObj _ => "[object Object]"
  end.

(** [s.includes(tag)] on strings. *)
Fixpoint occurs_in (tag s : string) : bool :=
  String.prefix tag s
  || match s with
     | EmptyString => false
     | String _ rest => occurs_in tag rest
     end.

(** [entry.tags.some(tag => tags.includes(tag))] for each kind of [tags]. *)
Definition value_hit (tags : json) (entry : CacheEntry) : bool :=
  match tags with
  | JArr items => tags_hit (string_items items) entry
  | JStr s => existsb (fun tag => occurs_in tag s) (entry_tags entry)
  | _ => false
  end.

Definition value_step (tags : json)
    (acc : gmap string CacheEntry * Z) (item : string * CacheEntry)
  : gmap string CacheEntry * Z :=
  if value_hit tags (snd item) then (delete (fst item) (fst acc), snd acc + 1) else acc.

Definition has_tags (item : string * CacheEntry) : bool :=
  match entry_tags (snd item) with
  | [] => false
  | _ => true
  end.

Definition invalidate_by_value (tags : json) : M unit :=
  fun w =>
    if negb (isCacheEnabled w) then (inr tt, w)
    else
      match tags with
      | JArr items =>
          let '(remaining, invalidatedCount) :=
            foldl (value_step tags) (cache w, 0) (map_to_list (cache w)) in
          logger LogInfo
            ("Cache invalidated for tags: " +:+ join ", " (List.map item_text items))
            (Some (JObj [("invalidatedCount", JNum invalidatedCount)]))
            (set_cache remaining w)
      | JStr _ =>
          let '(remaining, _) :=
            foldl (value_step tags) (cache w, 0) (map_to_list (cache w)) in
          (inl (ErrorObject "tags.join is not a function"), set_cache remaining w)
      | _ =>
          if existsb has_tags (map_to_list (cache w))
          then (inl (ErrorObject "tags.includes is not a function"), w)
          else (inl (ErrorObject "tags.join is not a function"), w)
      end.

Definition clearCache : M unit :=
  (fun w => (inr tt, set_cache ∅ w)) ;;
  logger LogInfo "All cache cleared" None.

(** ** Result literals *)

Definition succeeded {T} (d : T) : QueryResult T :=
  {| data := Some d; error := None; fromCache := false;
     cachedAt := None; expiresAt := None |}.

Definition failed {T} (message : string) : QueryResult T :=
  {| data := None; error := Some message; fromCache := false;
     cachedAt := None; expiresAt := None |}.

(** [{ data: null, error: null, fromCache: false }], the literal [delete]
    returns once the gateway accepted the deletion. *)
Definition deleted : QueryResult rows :=
  {| data := None; error := None; fromCache := false;
     cachedAt := None; expiresAt := None |}.

(** [error instanceof Error ? error.message : 'Unknown error']. *)
Definition exn_message (e : exn) : string :=
  match e with
  | ErrorObject message => message
  | ThrownValue _ => "Unknown error"
  end.

Definition exn_data (e : exn) : json :=
  match e with
  | ErrorObject message => JObj [("message", JStr message)]
  | ThrownValue v => v
  end.

Definition error_data (message : string) : json := JObj [("message", JStr message)].

(** ** Building the SELECT request *)

(** [query = query.method(...)]: the builder call is appended to the chain. *)
Definition call (c : BuilderCall) (query : list BuilderCall) : list BuilderCall :=
  query ++ [c].

Definition call_if_defined (v : option json) (mk : json -> BuilderCall)
    (query : list BuilderCall) : list BuilderCall :=
  match v with
  | Some x => call (mk x) query
  | None => query
  end.

(** Body of the [forEach] over [Object.entries(options.filters)]. *)
Definition apply_filter (query : list BuilderCall) (kv : string * json) : list BuilderCall :=
  let '(key, value) := kv in
  match value with
  | JArr values => call (QIn key values) query
  | JObj _ =>
      let query := call_if_defined (get_field "gte" value) (QGte key) query in
      let query := call_if_defined (get_field "lte" value) (QLte key) query in
      let query := call_if_defined (get_field "gt" value) (QGt key) query in
      let query := call_if_defined (get_field "lt" value) (QLt key) query in
      let query := call_if_defined (get_field "like" value) (QLike key) query in
      let query := call_if_defined (get_field "ilike" value) (QIlike key) query in
      query
  | _ => call (QEq key value) query
  end.

(** The name of an array index. *)
Definition index_name (i : nat) : string := number_to_string (Z.of_nat i).

(** The number of bytes of the UTF-8 sequence that a byte starts: one for
    ASCII (and for a byte out of place), else two, three or four. *)
Definition sequence_length (lead : ascii) : nat :=
  let n := N_of_ascii lead in
  if (n <? 192)%N then 1%nat
  else if (n <? 224)%N then 2%nat
  else if (n <? 240)%N then 3%nat
  else 4%nat.

(** U+FFFD, which is what [Buffer.from] writes for a surrogate on its own. *)
Definition lone_surrogate : string :=
  String (ascii_of_nat 239) (String (ascii_of_nat 191) (String (ascii_of_nat 189) EmptyString)).

(** The UTF-16 code units of a text, each as the text it is on its own: a
    character of up to three bytes is one unit, a character of four bytes is
    a pair of surrogates.  [pending] counts the bytes still missing from
    [current], and [four] says that [current] is a character of four. *)
Fixpoint code_units (pending : nat) (current : string) (four : bool) (bytes : list ascii)
  : list string :=
  match bytes with
  | [] => []
  | b :: rest =>
      match pending with
      | O =>
          match sequence_length b with
          | S O => String b EmptyString :: code_units 0 EmptyString false rest
          | k => code_units (k - 1) (String b EmptyString) (Nat.eqb k 4) rest
          end
      | S p =>
          let current := current +:+ String b EmptyString in
          match p with
          | O =>
              (if four then [lone_surrogate; lone_surrogate] else [current])
              ++ code_units 0 EmptyString false rest
          | _ => code_units p current four rest
          end
      end
  end.

(** [Object.entries]: the properties of an object, the items of an array
    under their indices, the code units of a string under theirs, and
    nothing for a number or a boolean. *)
Definition entries (v : json) : list (string * json) :=
  match v with
  | JObj fields => fields
  | JArr items => imap (fun i item => (index_name i, item)) items
  | JStr s =>
      imap (fun i unit => (index_name i, JStr unit))
        (code_units 0 EmptyString false (list_ascii_of_string s))
  | _ => []
  end.

(** [offset + page - 1]. *)
Definition range_end (offset page : json) : RangeEnd :=
  match to_number offset, to_number page with
  | Some o, Some n => EndNumber (o + n - 1)
  | _, _ => EndCoerced offset page
  end.

(** The builder calls of [select], in the order the method makes them.
    [options] is not [null] here: the first read, [options.columns], has
    succeeded. *)
Definition select_chain (options : json) : list BuilderCall :=
  let query := [QSelect (or_else (get_field "columns" options) (JStr "*"))] in
  let query :=
    match when_truthy (get_field "filters" options) with
    | Some filters => foldl apply_filter query (entries filters)
    | None => query
    end in
  let query :=
    match when_truthy (get_field "orderBy" options) with
    | Some orderBy =>
        call (QOrder (get_field "column" orderBy)
                (match get_field "ascending" orderBy with
                 | Some (JBool false) => false
                 | _ => true
                 end)) query
    | None => query
    end in
  let query :=
    match when_truthy (get_field "limit" options) with
    | Some limit => call (QLimit limit) query
    | None => query
    end in
  let query :=
    match when_truthy (get_field "offset" options) with
    | Some offset =>
        call (QRange offset (range_end offset (or_else (get_field "limit" options) (JNum 10))))
          query
    | None => query
    end in
  query.

Definition row_count (d : rows) : json := JNum (Z.of_nat (length d)).

(** [options.cache.ttl], as [setCache] uses it: the default applies to a
    missing [ttl] only, and [ttl * 1000] converts what it is given with
    ToNumber, so that [null] counts as zero seconds.  The declared type is
    [number]; a [ttl] that is a string, an array or an object is outside
    what the model computes (see [to_number]) and is read as missing. *)
Definition cache_ttl (directive : json) : option Z :=
  match get_field "ttl" directive with
  | Some v => to_number v
  | None => None
  end.

(** The lifetime in seconds that a cache directive asks for: its [ttl] when
    that is a number, the default TTL when it has none. *)
Definition lifetime (directive : json) (w : World) (ttl : Z) : Prop :=
  get_field "ttl" directive = Some (JNum ttl)
  \/ (get_field "ttl" directive = None /\ ttl = defaultTTL w).

(** [options.cache.tags || []], at its declared type [string[]]. *)
Definition cache_tags (directive : json) : list string :=
  match get_strings "tags" directive with
  | Some tags => tags
  | None => []
  end.

Section WithGateway.

(** The remote store: its reply to a request may depend on every request it
    received before; [latency] is the time the await takes. *)
Variable gateway : list Request -> Request -> Reply.

Definition await (rq : Request) : M Response :=
  fun w =>
    let reply := gateway (gateway_calls w) rq in
    let w' := set_clock (clock w + Z.of_N (latency reply))
                (set_gateway_calls (gateway_calls w ++ [rq]) w) in
    match outcome reply with
    | Responds r => (inr r, w')
    | Throws e => (inl e, w')
    end.

(** The part of a read after a successful reply: cache if asked, log, return. *)
Definition cache_result (cacheKey : string) (d : rows) (directive : option json) : M unit :=
  match directive with
  | Some c => if truthy (Some c) then setCache cacheKey d (cache_ttl c) (cache_tags c) else ret tt
  | None => ret tt
  end.

Definition select (table : string) (options : json) : M (QueryResult rows) :=
  let cacheKey := generateCacheKey table OpSelect options in
  cachedResult <- getFromCache cacheKey ;;
  match cachedResult with
  | Some r => ret r
  | None =>
      try_catch
        (_ <- property "columns" options ;;
         response <- await (FromTable table (select_chain options)) ;;
         match response with
         | Failure message =>
             logger LogError ("Database select error for table " +:+ table)
               (Some (error_data message)) ;;
             ret (failed message)
         | Rows d =>
             let result := succeeded d in
             cache_result cacheKey d (get_field "cache" options) ;;
             logger LogDebug ("Database select completed for table " +:+ table)
               (Some (JObj [("rowCount", row_count d);
                            ("cached", JBool (truthy (get_field "cache" options)))])) ;;
             ret result
         end)
        (fun e =>
           logger LogError ("Database select exception for table " +:+ table)
             (Some (exn_data e)) ;;
           ret (failed (exn_message e)))
  end.

(** [if (options.invalidateTags) this.invalidateCacheByTags(...)]. *)
Definition invalidate_related (options : json) : M unit :=
  invalidateTags <- property "invalidateTags" options ;;
  match when_truthy invalidateTags with
  | Some tags => invalidate_by_value tags
  | None => ret tt
  end.

(** [Array.isArray(data) ? data.length : 1]. *)
Definition data_count (d : option json) : json :=
  match d with
  | Some (JArr items) => JNum (Z.of_nat (length items))
  | _ => JNum 1
  end.

Definition insert (table : string) (payload : option json) (options : json)
  : M (QueryResult rows) :=
  try_catch
    (response <- await (FromTable table [QInsert payload; QReturning]) ;;
     match response with
     | Failure message =>
         logger LogError ("Database insert error for table " +:+ table)
           (Some (error_data message)) ;;
         ret (failed message)
     | Rows result =>
         invalidate_related options ;;
         logger LogInfo ("Database insert completed for table " +:+ table)
           (Some (JObj [("rowCount", data_count payload)])) ;;
         ret (succeeded result)
     end)
    (fun e =>
       logger LogError ("Database insert exception for table " +:+ table)
         (Some (exn_data e)) ;;
       ret (failed (exn_message e))).

(** [Object.entries(filters)] on the [filters] argument of a write, which
    [batch] may pass as [undefined]. *)
Definition filter_entries (filters : option json) : M (list (string * json)) :=
  match filters with
  | None | Some JNull => throw (ErrorObject "Cannot convert undefined or null to object")
  | Some v => ret (entries v)
  end.

Definition eq_filters (query : list BuilderCall) (fs : list (string * json))
  : list BuilderCall :=
  foldl (fun query kv => call (QEq (fst kv) (snd kv)) query) query fs.

Definition update (table : string) (payload : option json) (filters : option json)
    (options : json) : M (QueryResult rows) :=
  try_catch
    (fs <- filter_entries filters ;;
     let query := eq_filters [QUpdate payload] fs in
     response <- await (FromTable table (call QReturning query)) ;;
     match response with
     | Failure message =>
         logger LogError ("Database update error for table " +:+ table)
           (Some (error_data message)) ;;
         ret (failed message)
     | Rows result =>
         invalidate_related options ;;
         logger LogInfo ("Database update completed for table " +:+ table)
           (Some (JObj [("rowCount", row_count result)])) ;;
         ret (succeeded result)
     end)
    (fun e =>
       logger LogError ("Database update exception for table " +:+ table)
         (Some (exn_data e)) ;;
       ret (failed (exn_message e))).

(** The method [delete]; the plain name is the map operation's here. *)
Definition delete_ (table : string) (filters : option json) (options : json)
  : M (QueryResult rows) :=
  try_catch
    (fs <- filter_entries filters ;;
     let query := eq_filters [QDelete] fs in
     response <- await (FromTable table query) ;;
     match response with
     | Failure message =>
         logger LogError ("Database delete error for table " +:+ table)
           (Some (error_data message)) ;;
         ret (failed message)
     | Rows _ =>
         invalidate_related options ;;
         logger LogInfo ("Database delete completed for table " +:+ table) None ;;
         ret deleted
     end)
    (fun e =>
       logger LogError ("Database delete exception for table " +:+ table)
         (Some (exn_data e)) ;;
       ret (failed (exn_message e))).

Definition upsert (table : string) (payload : option json) (options : json)
  : M (QueryResult rows) :=
  try_catch
    (onConflict <- property "onConflict" options ;;
     let query := [QUpsert payload] in
     let query :=
       match when_truthy onConflict with
       | Some target => call (QOnConflict target) query
       | None => query
       end in
     response <- await (FromTable table (call QReturning query)) ;;
     match response with
     | Failure message =>
         logger LogError ("Database upsert error for table " +:+ table)
           (Some (error_data message)) ;;
         ret (failed message)
     | Rows result =>
         invalidate_related options ;;
         logger LogInfo ("Database upsert completed for table " +:+ table)
           (Some (JObj [("rowCount", data_count payload)])) ;;
         ret (succeeded result)
     end)
    (fun e =>
       logger LogError ("Database upsert exception for table " +:+ table)
         (Some (exn_data e)) ;;
       ret (failed (exn_message e))).

(** The object literal [{ query, params }] that keys and carries a raw query. *)
Definition raw_params (query : string) (params : list json) : json :=
  JObj [("query", JStr query); ("params", JArr params)].

Definition rawQuery (query : string) (params : list json) (options : json)
  : M (QueryResult rows) :=
  let cacheKey := generateCacheKey "raw" OpSelect (raw_params query params) in
  cachedResult <- getFromCache cacheKey ;;
  match cachedResult with
  | Some r => ret r
  | None =>
      try_catch
        (response <- await (Rpc "execute_sql" (raw_params query params)) ;;
         match response with
         | Failure message =>
             logger LogError "Database raw query error" (Some (error_data message)) ;;
             ret (failed message)
         | Rows d =>
             let result := succeeded d in
             directive <- property "cache" options ;;
             cache_result cacheKey d directive ;;
             logger LogDebug "Database raw query completed"
               (Some (JObj [("rowCount", row_count d);
                            ("cached", JBool (truthy directive))])) ;;
             ret result
         end)
        (fun e =>
           logger LogError "Database raw query exception" (Some (exn_data e)) ;;
           ret (failed (exn_message e)))
  end.

(** ** Batch *)

Record BatchOp : Type := {
  operation : string;
  table : string;
  op_data : option json;
  op_filters : option json;
  op_options : option json;
}.

(** A parameter declared [options = {}] receives [{}] for [undefined]. *)
Definition or_empty (options : option json) : json :=
  match options with
  | Some o => o
  | None => JObj []
  end.

(** The [switch (op.operation)]. *)
Definition dispatch (op : BatchOp) : M (QueryResult rows) :=
  if String.eqb (operation op) "select" then select (table op) (or_empty (op_options op))
  else if String.eqb (operation op) "insert" then
    insert (table op) (op_data op) (or_empty (op_options op))
  else if String.eqb (operation op) "update" then
    update (table op) (op_data op) (op_filters op) (or_empty (op_options op))
  else if String.eqb (operation op) "delete" then
    delete_ (table op) (op_filters op) (or_empty (op_options op))
  else if String.eqb (operation op) "upsert" then
    upsert (table op) (op_data op) (or_empty (op_options op))
  else throw (ErrorObject ("Unsupported operation: " +:+ operation op)).

(** [if (result.error)]: a string is truthy unless it is empty. *)
Definition error_truthy (e : option string) : bool :=
  match e with
  | Some message => negb (String.eqb message "")
  | None => false
  end.

(** The [for ... of] loop with its early return, followed by the code after
    the loop; [results] is the array built so far and [total] is
    [operations.length]. *)
Fixpoint batch_loop (total : nat) (operations : list BatchOp) (results : list (option rows))
  : M (QueryResult (list (option rows))) :=
  match operations with
  | [] =>
      logger LogInfo "Batch operation completed"
        (Some (JObj [("operationCount", JNum (Z.of_nat total))])) ;;
      ret (succeeded results)
  | op :: rest =>
      result <- dispatch op ;;
      if error_truthy (error result) then
        ret {| data := None; error := error result; fromCache := false;
               cachedAt := None; expiresAt := None |}
      else batch_loop total rest (results ++ [data result])
  end.

Definition batch (operations : list BatchOp) : M (QueryResult (list (option rows))) :=
  try_catch
    (batch_loop (length operations) operations [])
    (fun e =>
       logger LogError "Batch operation exception" (Some (exn_data e)) ;;
       ret (failed (exn_message e))).

End WithGateway.

(** ** Sample gateways and worlds used in examples *)

(** A store that answers every request with the same rows, instantly. *)
Definition gateway_rows (d : rows) : list Request -> Request -> Reply :=
  fun _ _ => {| outcome := Responds (Rows d); latency := 0 |}.

(** A store that rejects every request with the given message after 5 ms. *)
Definition gateway_rejects (message : string) : list Request -> Request -> Reply :=
  fun _ _ => {| outcome := Responds (Failure message); latency := 5 |}.

(** A client that throws on every request. *)
Definition gateway_throws (e : exn) : list Request -> Request -> Reply :=
  fun _ _ => {| outcome := Throws e; latency := 0 |}.

(** A store that rejects its first request with an empty message and answers
    the later ones. *)
Definition gateway_first_fails_silently (d : rows) : list Request -> Request -> Reply :=
  fun history _ =>
    match history with
    | [] => {| outcome := Responds (Failure ""); latency := 0 |}
    | _ => {| outcome := Responds (Rows d); latency := 0 |}
    end.

Definition paid_first : json := JObj [("status", JStr "paid"); ("limit", JNum 10)].
Definition limit_first : json := JObj [("limit", JNum 10); ("status", JStr "paid")].

Definition invoice_1 : rows := [JObj [("id", JNum 1)]].

(** ** Descriptions used in the statements *)

(** Reading a character back: the sextets are tried in turn. *)
Definition all_sextets : list sextet :=
  let bools := [false; true] in
  b5 ← bools; b4 ← bools; b3 ← bools; b2 ← bools; b1 ← bools; b0 ← bools;
  [(b5, b4, b3, b2, b1, b0)].

Definition sextet_of_char (c : ascii) : option sextet :=
  List.find (fun x => Ascii.eqb (base64_char x) c) all_sextets.

(** The world right after an awaited request. *)
Definition awaited (gateway : list Request -> Request -> Reply) (rq : Request) (w : World)
  : World :=
  set_clock (clock w + Z.of_N (latency (gateway (gateway_calls w) rq)))
    (set_gateway_calls (gateway_calls w ++ [rq]) w).

(** The three ways a gateway call fails, with the message the service
    reports for each. *)
Definition fails_with (o : Outcome) (message : string) : Prop :=
  o = Responds (Failure message)
  \/ o = Throws (ErrorObject message)
  \/ (exists v, o = Throws (ThrownValue v) /\ message = "Unknown error").

(** The invariant of [QueryResult] as the specification words it: [error]
    present exactly when [data] is absent. *)
Definition exactly_one {T} (r : QueryResult T) : Prop :=
  is_Some (error r) <-> data r = None.

(** The operations of a batch that ran to a result with no truthy [error],
    in order: the data they returned and the world they left. *)
Inductive ran (gateway : list Request -> Request -> Reply)
  : list BatchOp -> World -> list (option rows) -> World -> Prop :=
| ran_nil w : ran gateway [] w [] w
| ran_cons op ops w r w' ds w'' :
    dispatch gateway op w = (inr r, w') ->
    error_truthy (error r) = false ->
    ran gateway ops w' ds w'' ->
    ran gateway (op :: ops) w (data r :: ds) w''.

(** The request of a read, described part by part (columns, filters, order,
    limit, range) for comparison with the chain that [select_chain] builds
    call by call. *)

(** The calls one filter turns into, read off the three cases of the
    [forEach] body. *)
Definition member_call (value : json) (name : string) (mk : json -> BuilderCall)
  : list BuilderCall :=
  match get_field name value with
  | Some v => [mk v]
  | None => []
  end.

Definition filter_calls (kv : string * json) : list BuilderCall :=
  let '(key, value) := kv in
  match value with
  | JArr values => [QIn key values]
  | JObj _ =>
      member_call value "gte" (QGte key) ++ member_call value "lte" (QLte key)
      ++ member_call value "gt" (QGt key) ++ member_call value "lt" (QLt key)
      ++ member_call value "like" (QLike key) ++ member_call value "ilike" (QIlike key)
  | _ => [QEq key value]
  end.

Definition forwarded_columns (options : json) : list BuilderCall :=
  [QSelect (or_else (get_field "columns" options) (JStr "*"))].

(** One group of calls per entry of [filters], when [filters] is given. *)
Definition forwarded_filters (options : json) : list BuilderCall :=
  match when_truthy (get_field "filters" options) with
  | Some filters => flat_map filter_calls (entries filters)
  | None => []
  end.

Definition forwarded_order (options : json) : list BuilderCall :=
  match when_truthy (get_field "orderBy" options) with
  | Some orderBy =>
      [QOrder (get_field "column" orderBy)
         (match get_field "ascending" orderBy with
          | Some (JBool false) => false
          | _ => true
          end)]
  | None => []
  end.

(** The limit, unless it is missing or falsy (zero, for a number). *)
Definition forwarded_limit (options : json) : list BuilderCall :=
  match when_truthy (get_field "limit" options) with
  | Some limit => [QLimit limit]
  | None => []
  end.

(** The caller's limit, or ten when the caller gave none or a falsy one. *)
Definition page_size (options : json) : json :=
  or_else (get_field "limit" options) (JNum 10).

(** The range, unless the offset is missing or falsy (zero, for a number). *)
Definition forwarded_range (options : json) : list BuilderCall :=
  match when_truthy (get_field "offset" options) with
  | Some offset => [QRange offset (range_end offset (page_size options))]
  | None => []
  end.

Definition forwarded (options : json) : list BuilderCall :=
  forwarded_columns options ++ forwarded_filters options ++ forwarded_order options
  ++ forwarded_limit options ++ forwarded_range options.

(** ** Sample data *)

(** Two inserts submitted as one batch. *)
Definition two_inserts : list BatchOp :=
  [ {| operation := "insert"; table := "invoices";
       op_data := Some (JObj [("id", JNum 1)]); op_filters := None; op_options := None |};
    {| operation := "insert"; table := "quotes";
       op_data := Some (JObj [("id", JNum 2)]); op_filters := None; op_options := None |} ].

Definition page_three : json := JObj [("offset", JNum 20)].
Definition not_paid : json :=
  JObj [("filters", JObj [("status", JObj [("neq", JStr "paid")])])].

(** ** The periodic sweep *)

(** One iteration of the sweep's loop over [this.cache.entries()]:
    [if (now >= entry.expiresAt)]. *)
Definition cleanup_step (now : Z)
    (acc : gmap string CacheEntry * Z) (item : string * CacheEntry)
  : gmap string CacheEntry * Z :=
  if (now >=? entry_expiresAt (snd item))%Z
  then (delete (fst item) (fst acc), snd acc + 1)
  else acc.

(** The callback that [setupCacheCleanup] hands to [setInterval]; it runs
    once a minute, whatever the caching flag says. *)
Definition cacheCleanup : M unit :=
  fun w =>
    let now := clock w in
    let '(remaining, cleanedCount) :=
      foldl (cleanup_step now) (cache w, 0) (map_to_list (cache w)) in
    if (cleanedCount >? 0)%Z then
      logger LogDebug
        ("Cache cleanup: " +:+ number_to_string cleanedCount +:+ " expired entries removed")
        None (set_cache remaining w)
    else (inr tt, set_cache remaining w).

(** ** The four writes, as one family *)

(** A call of [insert], [update], [delete] or [upsert] with its arguments. *)
Inductive WriteCall : Type :=
| WInsert (table : string) (payload : option json) (options : json)
| WUpdate (table : string) (payload : option json) (filters : option json) (options : json)
| WDelete (table : string) (filters : option json) (options : json)
| WUpsert (table : string) (payload : option json) (options : json).

Definition perform (gateway : list Request -> Request -> Reply) (c : WriteCall)
  : M (QueryResult rows) :=
  match c with
  | WInsert t p o => insert gateway t p o
  | WUpdate t p f o => update gateway t p f o
  | WDelete t f o => delete_ gateway t f o
  | WUpsert t p o => upsert gateway t p o
  end.

Definition write_options (c : WriteCall) : json :=
  match c with
  | WInsert _ _ o | WUpdate _ _ _ o | WDelete _ _ o | WUpsert _ _ o => o
  end.

(** The filters of a write, when [Object.entries] accepts them. *)
Definition usable_filters (filters : option json) : option (list (string * json)) :=
  match filters with
  | None | Some JNull => None
  | Some v => Some (entries v)
  end.

(** One [eq] per filter, in the caller's order. *)
Definition equalities (fs : list (string * json)) : list BuilderCall :=
  List.map (fun kv => QEq (fst kv) (snd kv)) fs.

(** The request a write sends; none when [update] or [delete] has no
    filters to list, or [upsert] no options to read [onConflict] from. *)
Definition write_request (c : WriteCall) : option Request :=
  match c with
  | WInsert t p _ => Some (FromTable t [QInsert p; QReturning])
  | WUpdate t p f _ =>
      fs ← usable_filters f;
      Some (FromTable t ([QUpdate p] ++ equalities fs ++ [QReturning]))
  | WDelete t f _ =>
      fs ← usable_filters f;
      Some (FromTable t ([QDelete] ++ equalities fs))
  | WUpsert t p o =>
      match o with
      | JNull => None
      | _ =>
          Some (FromTable t
                  ([QUpsert p]
                   ++ match when_truthy (get_field "onConflict" o) with
                      | Some target => [QOnConflict target]
                      | None => []
                      end
                   ++ [QReturning]))
      end
  end.

(** [options.invalidateTags] is such that the invalidation after an accepted
    write runs to its end: [options] is not [null], and the tags are
    missing, falsy or an array (the declared type is [string[]]). *)
Definition tags_usable (options : json) : Prop :=
  options <> JNull
  /\ match when_truthy (get_field "invalidateTags" options) with
     | Some (JArr _) | None => True
     | Some _ => False
     end.

(** What a write returns for the rows the gateway answered with. *)
Definition write_success (c : WriteCall) (d : rows) : QueryResult rows :=
  match c with
  | WDelete _ _ _ => deleted
  | _ => succeeded d
  end.

(** The tags a write asks to invalidate, when it names any. *)
Definition write_tags (c : WriteCall) : option (list string) :=
  get_strings "invalidateTags" (write_options c).

(** After the reply has arrived: invalidate if asked, on success only. *)
Definition settled (gateway : list Request -> Request -> Reply) (c : WriteCall)
    (rq : Request) (w : World) : World :=
  match outcome (gateway (gateway_calls w) rq) with
  | Responds (Rows _) => snd (invalidate_related (write_options c) (awaited gateway rq w))
  | _ => awaited gateway rq w
  end.

(** What a write returns, by the gateway's reply and, once the gateway has
    accepted, by how the invalidation went. *)
Definition write_result (gateway : list Request -> Request -> Reply) (c : WriteCall)
    (rq : Request) (w : World) : QueryResult rows :=
  match outcome (gateway (gateway_calls w) rq) with
  | Responds (Rows d) =>
      match fst (invalidate_related (write_options c) (awaited gateway rq w)) with
      | inr _ => write_success c d
      | inl e => failed (exn_message e)
      end
  | Responds (Failure message) => failed message
  | Throws e => failed (exn_message e)
  end.

(** The entries an accepted write removes while caching is on, by what the
    [invalidateTags] of its options holds. *)
Definition related_hit (options : json) (entry : CacheEntry) : bool :=
  match when_truthy (get_field "invalidateTags" options) with
  | Some tags => value_hit tags entry
  | None => false
  end.

(** ** More sample data *)

(** A store that answers its first request and rejects the later ones. *)
Definition gateway_second_rejects (d : rows) (message : string)
  : list Request -> Request -> Reply :=
  fun history _ =>
    match history with
    | [] => {| outcome := Responds (Rows d); latency := 0 |}
    | _ => {| outcome := Responds (Failure message); latency := 0 |}
    end.

(** A world at time 0 that caches the invoices under the key of an
    unfiltered [select], tagged ["invoices"], for five seconds. *)
Definition cached_invoices : World :=
  snd (setCache (generateCacheKey "invoices" OpSelect (JObj [])) invoice_1 (Some 5)
         ["invoices"] (initial 0)).

Definition invoices_entry : CacheEntry :=
  {| entry_data := invoice_1; entry_expiresAt := 5000; entry_tags := ["invoices"] |}.

Definition insert_invoice (options : json) : WriteCall :=
  WInsert "invoices" (Some (JObj [("id", JNum 2)])) options.

Definition invalidate_invoices : json := JObj [("invalidateTags", JArr [JStr "invoices"])].
Definition invalidate_quotes : json := JObj [("invalidateTags", JArr [JStr "quotes"])].

Definition insert_into (t : string) (id : Z) : BatchOp :=
  {| operation := "insert"; table := t; op_data := Some (JObj [("id", JNum id)]);
     op_filters := None; op_options := None |}.

(** ** Reading texts back *)

(** The first character of a text. *)
Definition head_char (s : string) : option ascii :=
  match s with
  | EmptyString => None
  | String c _ => Some c
  end.

(** Every character of a text passes the test. *)
Fixpoint all_chars (p : ascii -> bool) (s : string) : bool :=
  match s with
  | EmptyString => true
  | String c rest => p c && all_chars p rest
  end.

(** The text is empty or starts with a character that fails the test. *)
Definition stops (p : ascii -> bool) (r : string) : Prop :=
  match r with
  | EmptyString => True
  | String c _ => p c = false
  end.

(** The characters of a number as [JSON.stringify] prints it. *)
Definition is_number_char (c : ascii) : bool :=
  existsb (Ascii.eqb c) (list_ascii_of_string "-0123456789").

(** Not one of the characters that can follow a value inside an array or an
    object. *)
Definition is_inner_char (c : ascii) : bool :=
  negb (existsb (Ascii.eqb c) (list_ascii_of_string ",]}")).

Definition is_not_colon (c : ascii) : bool := negb (Ascii.eqb c ":").

Definition all_ascii : list ascii := List.map ascii_of_nat (seq 0 256).

(** One text is the beginning of the other. *)
Definition comparable (s1 s2 : string) : bool :=
  String.prefix s1 s2 || String.prefix s2 s1.

(** The kind of value a JSON text holds shows in its first character. *)
Definition json_kind (v : json) : nat :=
  match v with
  | JNull => 0 | JBool _ => 1 | JNum _ => 2 | JStr _ => 3 | JArr _ => 4 | JObj _ => 5
  end.

Definition head_kind (c : ascii) : nat :=
  if Ascii.eqb c "n" then 0
  else if Ascii.eqb c "t" || Ascii.eqb c "f" then 1
  else if is_number_char c then 2
  else if Ascii.eqb c dquote then 3
  else if Ascii.eqb c "[" then 4
  else if Ascii.eqb c "{" then 5
  else 6.

(** What follows an element of an array or object: the closing bracket, or
    a comma and the remaining elements. *)
Definition tail_text (close : ascii) (rest : list string) (r : string) : string :=
  match rest with
  | [] => String close r
  | _ => String "," (join "," rest +:+ String close r)
  end.

(** A table name without a colon. *)
Definition colon_free (s : string) : Prop := all_chars is_not_colon s = true.

(** * Key encoding *)

Example key_small :
  generateCacheKey "t" OpSelect (JObj [("limit", JNum 10)])
  = "dDpzZWxlY3Q6eyJsaW1pdCI6MTB9".
Proof. vm_compute. reflexivity. Qed.

Lemma list_ind3 {A} (P : list A -> Prop) :
  P [] -> (forall a, P [a]) -> (forall a b, P [a; b]) ->
  (forall a b c l, P l -> P (a :: b :: c :: l)) ->
  forall l, P l.
Proof.
  intros H0 H1 H2 H3 l.
  enough (P l /\ (forall a, P (a :: l)) /\ (forall a b, P (a :: b :: l))) by tauto.
  induction l as [|x l (IHa & IHb & IHc)].
  - auto.
  - repeat split; auto.
Qed.

Lemma sextet_of_base64_char (x : sextet) : sextet_of_char (base64_char x) = Some x.
Proof.
  destruct x as [[[[[x5 x4] x3] x2] x1] x0].
  destruct x5, x4, x3, x2, x1, x0; vm_compute; reflexivity.
Qed.

Lemma base64_char_inj (x y : sextet) : base64_char x = base64_char y -> x = y.
Proof.
  intros H. apply (f_equal sextet_of_char) in H.
  rewrite !sextet_of_base64_char in H. congruence.
Qed.

Lemma base64_char_not_pad (x : sextet) : base64_char x <> pad.
Proof.
  destruct x as [[[[[x5 x4] x3] x2] x1] x0].
  destruct x5, x4, x3, x2, x1, x0; discriminate.
Qed.

Ltac sextets :=
  repeat match goal with
    | H : base64_char _ = pad |- _ => exfalso; exact (base64_char_not_pad _ H)
    | H : pad = base64_char _ |- _ => exfalso; exact (base64_char_not_pad _ (eq_sym H))
    | H : base64_char _ = base64_char _ |- _ =>
        apply base64_char_inj in H; simplify_eq
    end.

Lemma base64_bytes_inj (l1 l2 : list ascii) :
  base64_bytes l1 = base64_bytes l2 -> l1 = l2.
Proof.
  revert l2. induction l1 as [|a|a b|a b c l1 IH] using list_ind3; intros l2 H.
  - destruct l2 as [|[] [|[] [|[] l2]]]; [reflexivity | discriminate H ..].
  - destruct a.
    destruct l2 as [|[] [|[] [|[] l2]]]; cbn [base64_bytes] in H;
      try discriminate H; inversion H; sextets; reflexivity.
  - destruct a, b.
    destruct l2 as [|[] [|[] [|[] l2]]]; cbn [base64_bytes] in H;
      try discriminate H; inversion H; sextets; reflexivity.
  - destruct a, b, c.
    destruct l2 as [|[] [|[] [|[] l2]]]; cbn [base64_bytes] in H;
      try discriminate H; inversion H; sextets.
    f_equal. f_equal. f_equal. apply IH. assumption.
Qed.

Lemma base64_inj (s1 s2 : string) : base64 s1 = base64 s2 -> s1 = s2.
Proof.
  unfold base64. intros H.
  apply (f_equal list_ascii_of_string) in H.
  rewrite !list_ascii_of_string_of_list_ascii in H.
  apply base64_bytes_inj in H.
  apply (f_equal string_of_list_ascii) in H.
  now rewrite !string_of_list_ascii_of_string in H.
Qed.

Example key_paid_first :
  generateCacheKey "invoices" OpSelect paid_first
  = "aW52b2ljZXM6c2VsZWN0Onsic3RhdHVzIjoicGFpZCIsImxpbWl0IjoxMH0=".
Proof. vm_compute. reflexivity. Qed.

Example key_limit_first :
  generateCacheKey "invoices" OpSelect limit_first
  = "aW52b2ljZXM6c2VsZWN0OnsibGltaXQiOjEwLCJzdGF0dXMiOiJwYWlkIn0=".
Proof. vm_compute. reflexivity. Qed.

(** C1, as stated, fails: the two bags of the specification's own example hold
    the same fields, [status: "paid"] and [limit: 10], in the two construction
    orders, and [generateCacheKey] gives them different keys. *)
Lemma generateCacheKey_field_order_changes_key :
  Permutation
    [("status", JStr "paid"); ("limit", JNum 10)]
    [("limit", JNum 10); ("status", JStr "paid")]
  /\ generateCacheKey "invoices" OpSelect paid_first
     <> generateCacheKey "invoices" OpSelect limit_first.
Proof.
  split.
  - apply perm_swap.
  - vm_compute. discriminate.
Qed.

(** C1, amended: [generateCacheKey] depends on nothing but its three
    arguments, and two calls give the same key exactly when the texts
    [table:operation:JSON.stringify(params)] are the same.  The JSON text
    lists the fields in construction order, so the key is the same for equal
    inputs and may differ for bags that differ in field order. *)
Theorem generateCacheKey_equal_iff_same_text
    (t1 t2 : string) (op1 op2 : DatabaseOperation) (p1 p2 : json) :
  generateCacheKey t1 op1 p1 = generateCacheKey t2 op2 p2
  <-> key_text t1 op1 p1 = key_text t2 op2 p2.
Proof.
  unfold generateCacheKey. split.
  - apply base64_inj.
  - intros ->. reflexivity.
Qed.

(** * The cache store *)

Lemma getFromCache_disabled (key : string) (w : World) :
  isCacheEnabled w = false -> getFromCache key w = (inr None, w).
Proof. intros H. unfold getFromCache. rewrite H. reflexivity. Qed.

Lemma toISOString_in_range (t : Z) : in_date_range t -> toISOString t = inr t.
Proof.
  unfold in_date_range, toISOString. intros [Hlo Hhi].
  destruct (Z.leb_spec (- max_date) t); [|lia].
  destruct (Z.leb_spec t max_date); [reflexivity|lia].
Qed.

Lemma toISOString_inr (t x : Z) : toISOString t = inr x -> x = t /\ in_date_range t.
Proof.
  unfold in_date_range, toISOString.
  destruct (Z.leb_spec (- max_date) t); [|discriminate].
  destruct (Z.leb_spec t max_date); [|discriminate].
  intros [= <-]. auto.
Qed.

Lemma toISOString_inl (t : Z) (e : exn) : toISOString t = inl e -> ~ in_date_range t.
Proof.
  intros H Hr. rewrite (toISOString_in_range t Hr) in H. discriminate.
Qed.

Lemma getFromCache_hit (key : string) (entry : CacheEntry) (w : World) :
  isCacheEnabled w = true ->
  cache w !! key = Some entry ->
  clock w < entry_expiresAt entry ->
  dates_in_range w entry ->
  getFromCache key w =
    (inr (Some {| data := Some (entry_data entry); error := None; fromCache := true;
                  cachedAt := Some (entry_expiresAt entry - defaultTTL w * 1000);
                  expiresAt := Some (entry_expiresAt entry) |}), w).
Proof.
  intros He Hk Ht [Hc Hx]. unfold getFromCache, isCacheValid. rewrite He, Hk. cbn.
  destruct (Z.ltb_spec (clock w) (entry_expiresAt entry)); [|lia].
  rewrite (toISOString_in_range _ Hc), (toISOString_in_range _ Hx). reflexivity.
Qed.

(** An entry that has not expired and whose dates cannot be written as text:
    the lookup throws, and the entry stays. *)
Lemma getFromCache_throws (key : string) (entry : CacheEntry) (w : World) :
  isCacheEnabled w = true ->
  cache w !! key = Some entry ->
  clock w < entry_expiresAt entry ->
  ~ dates_in_range w entry ->
  getFromCache key w = (inl (ErrorObject "Invalid time value"), w).
Proof.
  intros He Hk Ht Hout. unfold getFromCache, isCacheValid. rewrite He, Hk. cbn.
  destruct (Z.ltb_spec (clock w) (entry_expiresAt entry)); [|lia].
  destruct (toISOString (entry_expiresAt entry - defaultTTL w * 1000)) as [e1|c] eqn:H1.
  - unfold toISOString in H1. destruct (_ && _) in H1; [discriminate|].
    injection H1 as <-. reflexivity.
  - destruct (toISOString (entry_expiresAt entry)) as [e2|x] eqn:H2.
    + unfold toISOString in H2. destruct (_ && _) in H2; [discriminate|].
      injection H2 as <-. reflexivity.
    + apply toISOString_inr in H1 as [_ H1]. apply toISOString_inr in H2 as [_ H2].
      destruct Hout. split; assumption.
Qed.

Lemma getFromCache_expired (key : string) (entry : CacheEntry) (w : World) :
  isCacheEnabled w = true ->
  cache w !! key = Some entry ->
  entry_expiresAt entry <= clock w ->
  getFromCache key w = (inr None, set_cache (delete key (cache w)) w).
Proof.
  intros He Hk Ht. unfold getFromCache, isCacheValid. rewrite He, Hk. cbn.
  destruct (Z.ltb_spec (clock w) (entry_expiresAt entry)); [lia | reflexivity].
Qed.

Lemma getFromCache_absent (key : string) (w : World) :
  isCacheEnabled w = true ->
  cache w !! key = None ->
  getFromCache key w = (inr None, set_cache (delete key (cache w)) w).
Proof. intros He Hk. unfold getFromCache. rewrite He, Hk. reflexivity. Qed.

(** A hit, read backwards: caching is on, the entry is there, not expired
    and with dates in range, and the world is untouched. *)
Lemma getFromCache_Some_inv (key : string) (w w' : World) (r : QueryResult rows) :
  getFromCache key w = (inr (Some r), w') ->
  w' = w /\ isCacheEnabled w = true /\
  exists entry,
    cache w !! key = Some entry /\ clock w < entry_expiresAt entry /\
    dates_in_range w entry /\
    r = {| data := Some (entry_data entry); error := None; fromCache := true;
           cachedAt := Some (entry_expiresAt entry - defaultTTL w * 1000);
           expiresAt := Some (entry_expiresAt entry) |}.
Proof.
  unfold getFromCache, isCacheValid.
  destruct (isCacheEnabled w); cbn; [|discriminate].
  destruct (cache w !! key) as [entry|] eqn:Hk; [|discriminate].
  destruct (Z.ltb_spec (clock w) (entry_expiresAt entry)); [|discriminate].
  destruct (toISOString (entry_expiresAt entry - defaultTTL w * 1000)) as [e1|c] eqn:H1;
    [discriminate|].
  destruct (toISOString (entry_expiresAt entry)) as [e2|x] eqn:H2; [discriminate|].
  apply toISOString_inr in H1 as [-> H1]. apply toISOString_inr in H2 as [-> H2].
  intros [= <- <-]. split; [reflexivity|]. split; [reflexivity|].
  exists entry. split; [reflexivity|]. split; [assumption|].
  split; [split; assumption | reflexivity].
Qed.

(** A miss leaves no entry under the key while caching is on, and the world
    alone while it is off. *)
Lemma getFromCache_None_inv (key : string) (w w' : World) :
  getFromCache key w = (inr None, w') ->
  (isCacheEnabled w = false /\ w' = w)
  \/ (isCacheEnabled w = true /\ w' = set_cache (delete key (cache w)) w).
Proof.
  unfold getFromCache, isCacheValid.
  destruct (isCacheEnabled w); cbn.
  - destruct (cache w !! key) as [entry|].
    + destruct (clock w <? entry_expiresAt entry)%Z.
      * destruct (toISOString _); [discriminate|].
        destruct (toISOString _); discriminate.
      * intros [= <-]. auto.
    + intros [= <-]. auto.
  - intros [= <-]. auto.
Qed.

(** A lookup that throws, read backwards: the world is untouched, and the
    entry is there, not expired, with a date out of range. *)
Lemma getFromCache_inl_inv (key : string) (w w' : World) (e : exn) :
  getFromCache key w = (inl e, w') ->
  w' = w /\ isCacheEnabled w = true /\
  exists entry,
    cache w !! key = Some entry /\ clock w < entry_expiresAt entry /\
    ~ dates_in_range w entry.
Proof.
  unfold getFromCache, isCacheValid.
  destruct (isCacheEnabled w); cbn; [|discriminate].
  destruct (cache w !! key) as [entry|] eqn:Hk; [|discriminate].
  destruct (Z.ltb_spec (clock w) (entry_expiresAt entry)); [|discriminate].
  destruct (toISOString (entry_expiresAt entry - defaultTTL w * 1000)) as [e1|c] eqn:H1.
  - intros [= <- <-]. split; [reflexivity|]. split; [reflexivity|].
    exists entry. split; [reflexivity|]. split; [assumption|].
    intros [Hc _]. now apply toISOString_inl in H1.
  - destruct (toISOString (entry_expiresAt entry)) as [e2|x] eqn:H2; [|discriminate].
    intros [= <- <-]. split; [reflexivity|]. split; [reflexivity|].
    exists entry. split; [reflexivity|]. split; [assumption|].
    intros [_ Hx]. now apply toISOString_inl in H2.
Qed.

(** Whatever a lookup does, it leaves the flag, the default TTL, the clock
    and the gateway alone, and it only ever removes the entry it looked for. *)
Lemma getFromCache_frame (key : string) (w : World) :
  let w' := snd (getFromCache key w) in
  isCacheEnabled w' = isCacheEnabled w /\ defaultTTL w' = defaultTTL w
  /\ clock w' = clock w /\ gateway_calls w' = gateway_calls w
  /\ logged w' = logged w.
Proof.
  unfold getFromCache.
  destruct (negb (isCacheEnabled w)); [cbn; auto|].
  destruct (cache w !! key); [|cbn; auto].
  destruct (isCacheValid key w); [|cbn; auto].
  destruct (toISOString _); [cbn; auto|].
  destruct (toISOString _); cbn; auto.
Qed.

(** The answer of a lookup depends on the flag, the entry under the key, the
    clock and the default TTL, and on nothing else. *)
Lemma getFromCache_answer_congr (key : string) (w1 w2 : World) :
  isCacheEnabled w1 = isCacheEnabled w2 ->
  cache w1 !! key = cache w2 !! key ->
  clock w1 = clock w2 -> defaultTTL w1 = defaultTTL w2 ->
  fst (getFromCache key w1) = fst (getFromCache key w2).
Proof.
  intros He Hk Hc Hd. unfold getFromCache, isCacheValid. rewrite He, Hk, Hc, Hd.
  destruct (negb (isCacheEnabled w2)); [reflexivity|].
  destruct (cache w2 !! key) as [entry|]; [|reflexivity].
  destruct (clock w2 <? entry_expiresAt entry)%Z; [|reflexivity].
  destruct (toISOString _); [reflexivity|].
  destruct (toISOString _); reflexivity.
Qed.

Lemma setCache_enabled (key : string) (value : rows) (ttl : option Z) (tags : list string)
    (w : World) :
  isCacheEnabled w = true ->
  let t := match ttl with Some t => t | None => defaultTTL w end in
  let w' := snd (setCache key value ttl tags w) in
  fst (setCache key value ttl tags w) = inr tt
  /\ cache w' = <[key := {| entry_data := value; entry_expiresAt := clock w + t * 1000;
                            entry_tags := tags |}]> (cache w)
  /\ isCacheEnabled w' = true /\ defaultTTL w' = defaultTTL w /\ clock w' = clock w
  /\ gateway_calls w' = gateway_calls w.
Proof. intros He. unfold setCache. rewrite He. cbn. auto 10. Qed.

Lemma setCache_disabled (key : string) (value : rows) (ttl : option Z) (tags : list string)
    (w : World) :
  isCacheEnabled w = false -> setCache key value ttl tags w = (inr tt, w).
Proof. intros He. unfold setCache. rewrite He. reflexivity. Qed.

(** C3: after [setCache(key, value, ttl, tags)] with caching enabled, a later
    [getFromCache(key)] returns the cached value exactly while the clock is
    strictly before the time of the set plus [ttl] seconds; from that instant
    on it misses and deletes the entry; with [ttl = 0] the immediate read
    already misses.  The expiry, and the [cachedAt] that a hit reports, are
    taken to be valid dates, which a hit writes as ISO text. *)
Theorem ttl_expiry_lazy_eviction
    (key : string) (value : rows) (ttl : Z) (tags : list string) (elapsed : Z) (w : World) :
  isCacheEnabled w = true ->
  let set_time := clock w in
  let later := advance elapsed (snd (setCache key value (Some ttl) tags w)) in
  let answer := fst (getFromCache key later) in
  let after := snd (getFromCache key later) in
  servable set_time ttl (defaultTTL w) ->
  (clock later < set_time + ttl * 1000
     <-> exists r, answer = inr (Some r) /\ data r = Some value /\ fromCache r = true)
  /\ (set_time + ttl * 1000 <= clock later ->
        answer = inr None /\ cache after !! key = None)
  /\ (ttl = 0 -> elapsed = 0 -> answer = inr None).
Proof.
  intros He set_time later answer after [Hcached Hexpiry].
  destruct (setCache_enabled key value (Some ttl) tags w He)
    as (_ & Hc & He' & Hd & Hclock & _).
  set (entry := {| entry_data := value; entry_expiresAt := clock w + ttl * 1000;
                   entry_tags := tags |}) in Hc.
  assert (Hlook : cache later !! key = Some entry).
  { unfold later, advance. cbn. rewrite Hc. apply lookup_insert_eq. }
  assert (Hen : isCacheEnabled later = true) by exact He'.
  assert (Hdates : dates_in_range later entry).
  { split; [|exact Hexpiry].
    change (in_date_range
              (clock w + ttl * 1000
               - defaultTTL (snd (setCache key value (Some ttl) tags w)) * 1000)).
    rewrite Hd. exact Hcached. }
  assert (Hexp : set_time + ttl * 1000 <= clock later ->
                 getFromCache key later = (inr None, set_cache (delete key (cache later)) later)).
  { intros Hle. apply (getFromCache_expired key entry); auto. }
  split; [split|split].
  - intros Hlt. subst answer.
    rewrite (getFromCache_hit key entry later Hen Hlook Hlt Hdates). cbn. eauto.
  - intros (r & Hr & _). destruct (Z.lt_ge_cases (clock later) (set_time + ttl * 1000)) as [|Hle];
      [assumption|].
    subst answer. rewrite (Hexp Hle) in Hr. discriminate Hr.
  - intros Hle. subst answer after. rewrite (Hexp Hle). cbn. split; [reflexivity|].
    apply lookup_delete_eq.
  - intros -> ->. subst answer. rewrite Hexp; [reflexivity|].
    unfold later, advance, set_time. cbn. rewrite Hclock. lia.
Qed.

(** A worked instance of C3: an entry set at time 1000 with a TTL of 5 seconds
    and read 4999 ms later. *)
Lemma ttl_expiry_lazy_eviction_witness :
  let w := initial 1000 in
  let later := advance 4999 (snd (setCache "inv:1" invoice_1 (Some 5) ["invoices"] w)) in
  (clock later < clock w + 5 * 1000
     <-> exists r, fst (getFromCache "inv:1" later) = inr (Some r)
                   /\ data r = Some invoice_1 /\ fromCache r = true)
  /\ (clock w + 5 * 1000 <= clock later ->
        fst (getFromCache "inv:1" later) = inr None
        /\ cache (snd (getFromCache "inv:1" later)) !! "inv:1" = None)
  /\ (5 = 0 -> 4999 = 0 -> fst (getFromCache "inv:1" later) = inr None).
Proof.
  refine (ttl_expiry_lazy_eviction "inv:1" invoice_1 5 ["invoices"] 4999 (initial 1000)
            eq_refl _).
  unfold servable, in_date_range, max_date. cbn. lia.
Defined.

(** C10: on every cache hit the reported [cachedAt] is the entry's
    [expiresAt] minus the current [defaultTTL] in milliseconds; hence for an
    entry stored at [set_time] with [ttl] seconds, and read while the default
    is [current], the report is off the real caching time by [ttl - current]
    seconds. *)
Theorem cachedAt_is_expiry_minus_defaultTTL :
  (forall (key : string) (w : World) (r : QueryResult rows),
      fst (getFromCache key w) = inr (Some r) ->
      exists entry,
        cache w !! key = Some entry
        /\ cachedAt r = Some (entry_expiresAt entry - defaultTTL w * 1000))
  /\ (forall (key : string) (value : rows) (ttl current elapsed : Z) (tags : list string)
             (w : World) (r : QueryResult rows),
        isCacheEnabled w = true ->
        let set_time := clock w in
        let stored := snd (setCache key value (Some ttl) tags w) in
        let later := advance elapsed (snd (setDefaultTTL current stored)) in
        fst (getFromCache key later) = inr (Some r) ->
        exists reported,
          cachedAt r = Some reported
          /\ reported - set_time = (ttl - current) * 1000).
Proof.
  split.
  - intros key w r H. destruct (getFromCache key w) as [answer w'] eqn:Hg. cbn in H. subst.
    apply getFromCache_Some_inv in Hg as (_ & _ & entry & Hk & _ & _ & ->). eauto.
  - intros key value ttl current elapsed tags w r He set_time stored later H.
    destruct (getFromCache key later) as [answer w'] eqn:Hg. cbn in H. subst.
    apply getFromCache_Some_inv in Hg as (_ & _ & entry & Hk & _ & _ & ->).
    destruct (setCache_enabled key value (Some ttl) tags w He) as (_ & Hc & _).
    unfold later, advance, stored in Hk. cbn in Hk. rewrite Hc, lookup_insert_eq in Hk.
    injection Hk as <-. cbn. eexists. split; [reflexivity|]. unfold set_time. lia.
Qed.

(** A worked instance of C10: stored for 60 s at time 0 under the default of
    300 s and read 10 ms later, the entry is reported as cached 240 s before
    it was. *)
Lemma cachedAt_is_expiry_minus_defaultTTL_witness :
  let stored := snd (setCache "k" invoice_1 (Some 60) [] (initial 0)) in
  let later := advance 10 (snd (setDefaultTTL 300 stored)) in
  let r := {| data := Some invoice_1; error := None; fromCache := true;
              cachedAt := Some (-240000); expiresAt := Some 60000 |} in
  fst (getFromCache "k" later) = inr (Some r)
  /\ exists reported, cachedAt r = Some reported /\ reported - 0 = (60 - 300) * 1000.
Proof.
  intros stored later r.
  assert (Hr : fst (getFromCache "k" later) = inr (Some r)) by (vm_compute; reflexivity).
  split; [exact Hr|].
  exact (proj2 cachedAt_is_expiry_minus_defaultTTL
           "k" invoice_1 60 300 10 [] (initial 0) r eq_refl Hr).
Defined.

(** * Invalidation by tags *)

Lemma tags_hit_spec (tags : list string) (entry : CacheEntry) :
  tags_hit tags entry = true <-> exists t, t ∈ entry_tags entry /\ t ∈ tags.
Proof.
  unfold tags_hit. rewrite existsb_exists. split.
  - intros (t & Hin & Hdec). exists t. split.
    + now apply list_elem_of_In.
    + now apply bool_decide_eq_true in Hdec.
  - intros (t & Hin & Ht). exists t. split.
    + now apply list_elem_of_In.
    + now apply bool_decide_eq_true.
Qed.

Lemma tags_hit_no_tags (tags : list string) (entry : CacheEntry) :
  entry_tags entry = [] -> tags_hit tags entry = false.
Proof. unfold tags_hit. intros ->. reflexivity. Qed.

(** The loop only ever deletes. *)
Lemma invalidate_loop_None (tags : list string) (l : list (string * CacheEntry))
    (m : gmap string CacheEntry) (n : Z) (key : string) :
  m !! key = None -> fst (foldl (invalidate_step tags) (m, n) l) !! key = None.
Proof.
  revert m n. induction l as [|[k e] l IH]; intros m n Hm; [exact Hm|].
  cbn [foldl]. unfold invalidate_step at 2. cbn [fst snd].
  destruct (tags_hit tags e).
  - apply IH. rewrite lookup_delete_None. auto.
  - apply IH, Hm.
Qed.

Lemma invalidate_loop_removes (tags : list string) (l : list (string * CacheEntry))
    (m : gmap string CacheEntry) (n : Z) (key : string) (entry : CacheEntry) :
  (key, entry) ∈ l -> tags_hit tags entry = true ->
  fst (foldl (invalidate_step tags) (m, n) l) !! key = None.
Proof.
  revert m n. induction l as [|[k e] l IH]; intros m n Hin Hhit.
  - now apply elem_of_nil in Hin.
  - cbn [foldl]. unfold invalidate_step at 2. cbn [fst snd].
    apply elem_of_cons in Hin as [[= <- <-]|Hin].
    + rewrite Hhit. apply invalidate_loop_None, lookup_delete_eq.
    + destruct (tags_hit tags e); now apply IH.
Qed.

Lemma invalidate_loop_keeps (tags : list string) (l : list (string * CacheEntry))
    (m : gmap string CacheEntry) (n : Z) (key : string) :
  (forall entry, (key, entry) ∈ l -> tags_hit tags entry = false) ->
  fst (foldl (invalidate_step tags) (m, n) l) !! key = m !! key.
Proof.
  revert m n. induction l as [|[k e] l IH]; intros m n Hall; [reflexivity|].
  cbn [foldl]. unfold invalidate_step at 2. cbn [fst snd].
  assert (Hrest : forall entry, (key, entry) ∈ l -> tags_hit tags entry = false).
  { intros entry Hin. apply Hall. now apply elem_of_cons; right. }
  destruct (tags_hit tags e) eqn:Hhit.
  - rewrite IH by assumption. apply lookup_delete_ne. intros <-.
    rewrite (Hall e) in Hhit; [discriminate|]. apply elem_of_cons. now left.
  - now apply IH.
Qed.

(** The counter grows by one for each entry that leaves the map. *)
Lemma invalidate_loop_count (tags : list string) (l : list (string * CacheEntry))
    (m : gmap string CacheEntry) (n : Z) :
  NoDup (l.*1) ->
  (forall k e, (k, e) ∈ l -> m !! k = Some e) ->
  snd (foldl (invalidate_step tags) (m, n) l)
  = n + (Z.of_nat (size m) - Z.of_nat (size (fst (foldl (invalidate_step tags) (m, n) l)))).
Proof.
  revert m n. induction l as [|[k e] l IH]; intros m n Hnd Hin.
  - cbn. lia.
  - cbn [foldl]. unfold invalidate_step at 2 4. cbn [fst snd].
    rewrite fmap_cons in Hnd. apply NoDup_cons in Hnd as [Hk Hnd]. cbn in Hk.
    assert (Hke : m !! k = Some e) by (apply Hin, elem_of_cons; now left).
    destruct (tags_hit tags e).
    + rewrite IH; [|assumption|].
      * rewrite (map_size_delete_Some k m) by eauto.
        assert (0 < size m)%nat.
        { destruct (decide (size m = 0%nat)) as [Hz|]; [|lia].
          apply map_size_empty_inv in Hz. rewrite Hz, lookup_empty in Hke. discriminate. }
        lia.
      * intros k' e' Hin'. rewrite lookup_delete_ne.
        -- apply Hin, elem_of_cons. now right.
        -- intros <-. apply Hk. apply list_elem_of_fmap. exists (k, e'). auto.
    + apply IH; [assumption|]. intros k' e' Hin'. apply Hin, elem_of_cons. now right.
Qed.

Lemma invalidateCacheByTags_enabled (tags : list string) (w : World) :
  isCacheEnabled w = true ->
  let loop := foldl (invalidate_step tags) (cache w, 0) (map_to_list (cache w)) in
  invalidateCacheByTags tags w =
    (inr tt,
     set_logged
       (logged w ++
        [ {| log_level := LogInfo;
             log_message := "Cache invalidated for tags: " +:+ join ", " tags;
             log_context := "database";
             log_data := Some (JObj [("invalidatedCount", JNum (snd loop))]) |} ])
       (set_cache (fst loop) w)).
Proof.
  intros He loop. unfold invalidateCacheByTags. rewrite He. cbn [negb].
  fold loop. destruct loop as [remaining n]. reflexivity.
Qed.

(** C5, as stated, fails.  With caching switched off, an entry tagged
    ["invoices"] is still in the store after
    [invalidateCacheByTags(["invoices"])], and it is served again once caching
    is back on.  With caching on, the same call removes the entry, and what it
    returns is no count: the count, 1, goes to the logger only. *)
Lemma invalidateCacheByTags_disabled_keeps_tagged_entry :
  let stored := snd (setCache "inv:1" invoice_1 (Some 5) ["invoices"] (initial 0)) in
  let w := snd (setCacheEnabled false stored) in
  let w' := snd (invalidateCacheByTags ["invoices"] w) in
  let entry := {| entry_data := invoice_1; entry_expiresAt := 5000;
                  entry_tags := ["invoices"] |} in
  (cache w !! "inv:1" = Some entry
   /\ (exists t, t ∈ entry_tags entry /\ t ∈ ["invoices"])
   /\ cache w' !! "inv:1" = Some entry
   /\ exists r, fst (getFromCache "inv:1" (snd (setCacheEnabled true w'))) = inr (Some r)
                /\ data r = Some invoice_1)
  /\ (cache (snd (invalidateCacheByTags ["invoices"] stored)) !! "inv:1" = None
      /\ fst (invalidateCacheByTags ["invoices"] stored) = inr tt
      /\ log_data <$> last (logged (snd (invalidateCacheByTags ["invoices"] stored)))
         = Some (Some (JObj [("invalidatedCount", JNum 1)]))).
Proof.
  intros stored w w' entry. split.
  - repeat split.
    + exists "invoices". split; apply list_elem_of_singleton; reflexivity.
    + eexists. split; vm_compute; reflexivity.
  - vm_compute. repeat split.
Qed.

(** C5, amended: while caching is enabled, [invalidateCacheByTags(T)] removes
    exactly the entries whose tags intersect [T]: each of them then misses on
    [getFromCache], every other entry (one with no tags included) stays and is
    read as before; the call returns nothing, and the number of entries
    removed is passed to the logger as [invalidatedCount]. *)
Theorem invalidateCacheByTags_removes_exactly_tagged (tags : list string) (w : World) :
  isCacheEnabled w = true ->
  let w' := snd (invalidateCacheByTags tags w) in
  (forall key entry,
      cache w !! key = Some entry ->
      (exists t, t ∈ entry_tags entry /\ t ∈ tags) ->
      cache w' !! key = None /\ fst (getFromCache key w') = inr None)
  /\ (forall key entry,
        cache w !! key = Some entry ->
        ~ (exists t, t ∈ entry_tags entry /\ t ∈ tags) ->
        cache w' !! key = Some entry
        /\ fst (getFromCache key w') = fst (getFromCache key w))
  /\ (forall key, cache w !! key = None -> cache w' !! key = None)
  /\ fst (invalidateCacheByTags tags w) = inr tt
  /\ logged w' =
       (logged w ++
        [ {| log_level := LogInfo;
             log_message := "Cache invalidated for tags: " +:+ join ", " tags;
             log_context := "database";
             log_data :=
               Some (JObj [("invalidatedCount",
                            JNum (Z.of_nat (size (cache w)) - Z.of_nat (size (cache w'))))]) |}
        ])%list.
Proof.
  intros He w'. subst w'. rewrite (invalidateCacheByTags_enabled tags w He). cbn.
  repeat split.
  - apply invalidate_loop_removes with (entry := entry).
    + now apply elem_of_map_to_list.
    + now apply tags_hit_spec.
  - unfold getFromCache. cbn. rewrite He. cbn.
    rewrite (invalidate_loop_removes tags _ _ _ key entry); [reflexivity| |].
    + now apply elem_of_map_to_list.
    + now apply tags_hit_spec.
  - rewrite invalidate_loop_keeps; [assumption|].
    intros e' Hin. apply elem_of_map_to_list in Hin.
    assert (e' = entry) as -> by congruence.
    destruct (tags_hit tags entry) eqn:Hhit; [|reflexivity].
    apply tags_hit_spec in Hhit. contradiction.
  - apply getFromCache_answer_congr; try reflexivity. cbn.
    rewrite invalidate_loop_keeps; [reflexivity|].
    intros e' Hin. apply elem_of_map_to_list in Hin.
    assert (e' = entry) as -> by congruence.
    destruct (tags_hit tags entry) eqn:Hhit; [|reflexivity].
    apply tags_hit_spec in Hhit. contradiction.
  - intros key Hk. now apply invalidate_loop_None.
  - rewrite invalidate_loop_count.
    + repeat (f_equal; try lia).
    + apply NoDup_fst_map_to_list.
    + intros k e. apply elem_of_map_to_list.
Qed.

(** A worked instance of C5 (amended): two entries, one tagged ["invoices"]. *)
Lemma invalidateCacheByTags_removes_exactly_tagged_witness :
  let w := snd (setCache "q:1" [] (Some 5) []
                  (snd (setCache "inv:1" invoice_1 (Some 5) ["invoices"] (initial 0)))) in
  let w' := snd (invalidateCacheByTags ["invoices"] w) in
  cache w' !! "inv:1" = None
  /\ fst (getFromCache "inv:1" w') = inr None
  /\ cache w' !! "q:1" = cache w !! "q:1"
  /\ log_data <$> last (logged w') = Some (Some (JObj [("invalidatedCount", JNum 1)])).
Proof.
  intros w w'.
  destruct (invalidateCacheByTags_removes_exactly_tagged ["invoices"] w eq_refl)
    as (Hgone & Hkept & _ & _ & Hlog).
  destruct (Hgone "inv:1" {| entry_data := invoice_1; entry_expiresAt := 5000;
                             entry_tags := ["invoices"] |}) as [H1 H2].
  { vm_compute. reflexivity. }
  { exists "invoices". split; apply list_elem_of_singleton; reflexivity. }
  destruct (Hkept "q:1" {| entry_data := []; entry_expiresAt := 5000; entry_tags := [] |})
    as [H3 _].
  { vm_compute. reflexivity. }
  { intros (t & Ht & _). cbn in Ht. now apply elem_of_nil in Ht. }
  split; [exact H1|]. split; [exact H2|]. split.
  - unfold w'. rewrite H3. vm_compute. reflexivity.
  - unfold w'. rewrite Hlog. vm_compute. reflexivity.
Defined.

(** C9: while caching is disabled, [invalidateCacheByTags] returns at once
    and changes nothing, so an entry cached earlier outlives any invalidation
    requested while caching is off and is served again, within its TTL, once
    caching is re-enabled.  Being served takes an entry whose [expiresAt] and
    reported [cachedAt] are valid dates, as every hit does. *)
Theorem invalidateCacheByTags_disabled_is_noop :
  (forall (tags : list string) (w : World),
      isCacheEnabled w = false -> invalidateCacheByTags tags w = (inr tt, w))
  /\ (forall (tags : list string) (key : string) (entry : CacheEntry) (elapsed : Z)
             (w : World),
        cache w !! key = Some entry ->
        let off := snd (setCacheEnabled false w) in
        let asked := snd (invalidateCacheByTags tags off) in
        let on := snd (setCacheEnabled true (advance elapsed asked)) in
        cache asked = cache w
        /\ (clock on < entry_expiresAt entry -> dates_in_range w entry ->
            exists r, fst (getFromCache key on) = inr (Some r)
                      /\ data r = Some (entry_data entry) /\ fromCache r = true)).
Proof.
  assert (Hoff : forall tags w,
             isCacheEnabled w = false -> invalidateCacheByTags tags w = (inr tt, w)).
  { intros tags w He. unfold invalidateCacheByTags. rewrite He. reflexivity. }
  split; [exact Hoff|].
  intros tags key entry elapsed w Hk off asked on.
  assert (Hasked : asked = off).
  { unfold asked. rewrite Hoff; reflexivity. }
  split.
  - rewrite Hasked. reflexivity.
  - intros Ht Hdates. rewrite (getFromCache_hit key entry on); cbn; eauto.
Qed.

(** A worked instance of C9: the entry of ["inv:1"] survives an invalidation
    of its own tag requested while caching is off. *)
Lemma invalidateCacheByTags_disabled_is_noop_witness :
  let w := snd (setCache "inv:1" invoice_1 (Some 5) ["invoices"] (initial 0)) in
  let off := snd (setCacheEnabled false w) in
  let asked := snd (invalidateCacheByTags ["invoices"] off) in
  let on := snd (setCacheEnabled true (advance 1000 asked)) in
  invalidateCacheByTags ["invoices"] off = (inr tt, off)
  /\ cache asked = cache w
  /\ exists r, fst (getFromCache "inv:1" on) = inr (Some r)
               /\ data r = Some invoice_1 /\ fromCache r = true.
Proof.
  intros w off asked on.
  destruct invalidateCacheByTags_disabled_is_noop as [Hnoop Hkeep].
  split; [exact (Hnoop ["invoices"] off eq_refl)|].
  destruct (Hkeep ["invoices"] "inv:1"
              {| entry_data := invoice_1; entry_expiresAt := 5000;
                 entry_tags := ["invoices"] |} 1000 w) as [Hc Hr].
  { vm_compute. reflexivity. }
  split; [exact Hc|]. apply Hr.
  - vm_compute. reflexivity.
  - unfold dates_in_range, in_date_range, max_date. cbn. lia.
Defined.

(** * Reads through the cache *)

Lemma logger_run (lvl : LogLevel) (msg : string) (d : option json) (w : World) :
  logger lvl msg d w =
    (inr tt, set_logged (logged w ++ [ {| log_level := lvl; log_message := msg;
                                          log_context := "database"; log_data := d |} ]) w).
Proof. reflexivity. Qed.

Lemma logger_frame (lvl : LogLevel) (msg : string) (d : option json) (w : World) :
  let w' := snd (logger lvl msg d w) in
  cache w' = cache w /\ isCacheEnabled w' = isCacheEnabled w
  /\ defaultTTL w' = defaultTTL w /\ clock w' = clock w
  /\ gateway_calls w' = gateway_calls w.
Proof. cbn. auto. Qed.

Lemma setCache_returns (key : string) (value : rows) (ttl : option Z) (tags : list string)
    (w : World) :
  fst (setCache key value ttl tags w) = inr tt.
Proof. unfold setCache. destruct (negb (isCacheEnabled w)); reflexivity. Qed.

Lemma setCache_frame (key : string) (value : rows) (ttl : option Z) (tags : list string)
    (w : World) :
  let w' := snd (setCache key value ttl tags w) in
  isCacheEnabled w' = isCacheEnabled w /\ defaultTTL w' = defaultTTL w
  /\ clock w' = clock w /\ gateway_calls w' = gateway_calls w.
Proof. unfold setCache. destruct (negb (isCacheEnabled w)); cbn; auto. Qed.

Lemma invalidateCacheByTags_returns (tags : list string) (w : World) :
  fst (invalidateCacheByTags tags w) = inr tt.
Proof.
  unfold invalidateCacheByTags. destruct (negb (isCacheEnabled w)); [reflexivity|].
  destruct (foldl _ _ _). reflexivity.
Qed.

Lemma invalidateCacheByTags_frame (tags : list string) (w : World) :
  let w' := snd (invalidateCacheByTags tags w) in
  isCacheEnabled w' = isCacheEnabled w /\ defaultTTL w' = defaultTTL w
  /\ clock w' = clock w /\ gateway_calls w' = gateway_calls w.
Proof.
  unfold invalidateCacheByTags. destruct (negb (isCacheEnabled w)); [cbn; auto|].
  destruct (foldl _ _ _). cbn. auto.
Qed.

Lemma cache_result_returns (key : string) (d : rows) (directive : option json) (w : World) :
  fst (cache_result key d directive w) = inr tt.
Proof.
  unfold cache_result. destruct directive as [c|]; [|reflexivity].
  destruct (truthy (Some c)); [apply setCache_returns | reflexivity].
Qed.

Lemma cache_result_frame (key : string) (d : rows) (directive : option json) (w : World) :
  let w' := snd (cache_result key d directive w) in
  isCacheEnabled w' = isCacheEnabled w /\ defaultTTL w' = defaultTTL w
  /\ clock w' = clock w /\ gateway_calls w' = gateway_calls w.
Proof.
  unfold cache_result. destruct directive as [c|]; [|cbn; auto].
  destruct (truthy (Some c)); [apply setCache_frame | cbn; auto].
Qed.

(** *** Invalidation by a value of any kind *)

Lemma value_loop_None (tags : json) (l : list (string * CacheEntry))
    (m : gmap string CacheEntry) (n : Z) (key : string) :
  m !! key = None -> fst (foldl (value_step tags) (m, n) l) !! key = None.
Proof.
  revert m n. induction l as [|[k e] l IH]; intros m n Hm; [exact Hm|].
  cbn [foldl]. unfold value_step at 2. cbn [fst snd].
  destruct (value_hit tags e).
  - apply IH. rewrite lookup_delete_None. auto.
  - apply IH, Hm.
Qed.

Lemma value_loop_removes (tags : json) (l : list (string * CacheEntry))
    (m : gmap string CacheEntry) (n : Z) (key : string) (entry : CacheEntry) :
  (key, entry) ∈ l -> value_hit tags entry = true ->
  fst (foldl (value_step tags) (m, n) l) !! key = None.
Proof.
  revert m n. induction l as [|[k e] l IH]; intros m n Hin Hhit.
  - now apply elem_of_nil in Hin.
  - cbn [foldl]. unfold value_step at 2. cbn [fst snd].
    apply elem_of_cons in Hin as [[= <- <-]|Hin].
    + rewrite Hhit. apply value_loop_None, lookup_delete_eq.
    + destruct (value_hit tags e); now apply IH.
Qed.

Lemma value_loop_keeps (tags : json) (l : list (string * CacheEntry))
    (m : gmap string CacheEntry) (n : Z) (key : string) :
  (forall entry, (key, entry) ∈ l -> value_hit tags entry = false) ->
  fst (foldl (value_step tags) (m, n) l) !! key = m !! key.
Proof.
  revert m n. induction l as [|[k e] l IH]; intros m n Hall; [reflexivity|].
  cbn [foldl]. unfold value_step at 2. cbn [fst snd].
  assert (Hrest : forall entry, (key, entry) ∈ l -> value_hit tags entry = false).
  { intros entry Hin. apply Hall. now apply elem_of_cons; right. }
  destruct (value_hit tags e) eqn:Hhit.
  - rewrite IH by assumption. apply lookup_delete_ne. intros <-.
    rewrite (Hall e) in Hhit; [discriminate|]. apply elem_of_cons. now left.
  - now apply IH.
Qed.

(** What the loop leaves under a key. *)
Lemma value_loop_lookup (tags : json) (m : gmap string CacheEntry) (key : string) :
  fst (foldl (value_step tags) (m, 0) (map_to_list m)) !! key =
    match m !! key with
    | Some entry => if value_hit tags entry then None else Some entry
    | None => None
    end.
Proof.
  destruct (m !! key) as [entry|] eqn:Hk.
  - destruct (value_hit tags entry) eqn:Hhit.
    + apply value_loop_removes with (entry := entry); [|exact Hhit].
      now apply elem_of_map_to_list.
    + rewrite value_loop_keeps; [exact Hk|].
      intros e' Hin. apply elem_of_map_to_list in Hin.
      assert (e' = entry) as -> by congruence. exact Hhit.
  - now apply value_loop_None.
Qed.

Lemma string_items_strings (tags : list string) :
  string_items (List.map JStr tags) = tags.
Proof.
  unfold string_items. induction tags as [|t tags IH]; [reflexivity|].
  cbn. now rewrite IH.
Qed.

Lemma item_text_strings (tags : list string) :
  List.map item_text (List.map JStr tags) = tags.
Proof.
  induction tags as [|t tags IH]; [reflexivity|].
  cbn [List.map item_text]. f_equal. exact IH.
Qed.

(** Handed an array of strings, the general path is [invalidateCacheByTags]. *)
Lemma invalidate_by_value_strings (tags : list string) (w : World) :
  invalidate_by_value (JArr (List.map JStr tags)) w = invalidateCacheByTags tags w.
Proof.
  unfold invalidate_by_value, invalidateCacheByTags.
  destruct (negb (isCacheEnabled w)); [reflexivity|].
  rewrite item_text_strings.
  change (value_step (JArr (List.map JStr tags)))
    with (invalidate_step (string_items (List.map JStr tags))).
  rewrite string_items_strings. reflexivity.
Qed.

Lemma invalidate_by_value_disabled (tags : json) (w : World) :
  isCacheEnabled w = false -> invalidate_by_value tags w = (inr tt, w).
Proof. intros He. unfold invalidate_by_value. rewrite He. reflexivity. Qed.

Lemma invalidate_by_value_array (items : list json) (w : World) :
  fst (invalidate_by_value (JArr items) w) = inr tt.
Proof.
  unfold invalidate_by_value. destruct (negb (isCacheEnabled w)); [reflexivity|].
  destruct (foldl _ _ _). reflexivity.
Qed.

Lemma invalidate_by_value_frame (tags : json) (w : World) :
  let w' := snd (invalidate_by_value tags w) in
  isCacheEnabled w' = isCacheEnabled w /\ defaultTTL w' = defaultTTL w
  /\ clock w' = clock w /\ gateway_calls w' = gateway_calls w.
Proof.
  unfold invalidate_by_value. destruct (negb (isCacheEnabled w)); [cbn; auto|].
  destruct tags; try (destruct (existsb _ _); cbn; auto; fail);
    destruct (foldl _ _ _); cbn; auto.
Qed.

Lemma invalidate_by_value_lookup (tags : json) (key : string) (w : World) :
  cache (snd (invalidate_by_value tags w)) !! key =
    if isCacheEnabled w then
      match cache w !! key with
      | Some entry => if value_hit tags entry then None else Some entry
      | None => None
      end
    else cache w !! key.
Proof.
  unfold invalidate_by_value. destruct (isCacheEnabled w); [|reflexivity]. cbn [negb].
  pose proof (value_loop_lookup tags (cache w) key) as Hloop.
  destruct tags;
    try (destruct (existsb _ _); cbn [snd value_hit];
         destruct (cache w !! key); reflexivity);
    destruct (foldl _ _ _) as [remaining n]; exact Hloop.
Qed.

(** *** The invalidation after an accepted write *)

Lemma invalidate_related_null (w : World) :
  invalidate_related JNull w = (inl (null_read "invalidateTags"), w).
Proof. reflexivity. Qed.

Lemma invalidate_related_run (options : json) (w : World) :
  options <> JNull ->
  invalidate_related options w =
    match when_truthy (get_field "invalidateTags" options) with
    | Some tags => invalidate_by_value tags w
    | None => (inr tt, w)
    end.
Proof.
  intros Hnull. unfold invalidate_related, bind.
  destruct options; try contradiction; cbn [property ret];
    destruct (when_truthy _); reflexivity.
Qed.

Lemma invalidate_related_returns (options : json) (w : World) :
  tags_usable options -> fst (invalidate_related options w) = inr tt.
Proof.
  intros [Hnull Htags]. rewrite (invalidate_related_run options w Hnull).
  destruct (when_truthy (get_field "invalidateTags" options)) as [[]|];
    try contradiction; try reflexivity.
  apply invalidate_by_value_array.
Qed.

Lemma invalidate_related_disabled (options : json) (w : World) :
  options <> JNull -> isCacheEnabled w = false ->
  invalidate_related options w = (inr tt, w).
Proof.
  intros Hnull He. rewrite (invalidate_related_run options w Hnull).
  destruct (when_truthy _); [|reflexivity]. now apply invalidate_by_value_disabled.
Qed.

Lemma invalidate_related_frame (options : json) (w : World) :
  let w' := snd (invalidate_related options w) in
  isCacheEnabled w' = isCacheEnabled w /\ defaultTTL w' = defaultTTL w
  /\ clock w' = clock w /\ gateway_calls w' = gateway_calls w.
Proof.
  assert (Hcases : options = JNull \/ options <> JNull)
    by (destruct options; auto; right; discriminate).
  destruct Hcases as [->|Hnull]; [cbn; auto|].
  rewrite (invalidate_related_run options w Hnull).
  destruct (when_truthy _); [apply invalidate_by_value_frame | cbn; auto].
Qed.

Lemma invalidate_related_lookup (options : json) (key : string) (w : World) :
  cache (snd (invalidate_related options w)) !! key =
    if isCacheEnabled w then
      match cache w !! key with
      | Some entry => if related_hit options entry then None else Some entry
      | None => None
      end
    else cache w !! key.
Proof.
  unfold related_hit.
  assert (Hcases : options = JNull \/ options <> JNull)
    by (destruct options; auto; right; discriminate).
  destruct Hcases as [->|Hnull].
  - cbn. destruct (isCacheEnabled w); [|reflexivity]. destruct (cache w !! key); reflexivity.
  - rewrite (invalidate_related_run options w Hnull).
    destruct (when_truthy (get_field "invalidateTags" options)) as [tags|].
    + apply invalidate_by_value_lookup.
    + cbn. destruct (isCacheEnabled w); [|reflexivity]. destruct (cache w !! key); reflexivity.
Qed.

Section Reads.

Variable gateway : list Request -> Request -> Reply.

Lemma await_run (rq : Request) (w : World) :
  await gateway rq w =
    (match outcome (gateway (gateway_calls w) rq) with
     | Responds r => inr r
     | Throws e => inl e
     end, awaited gateway rq w).
Proof. unfold await, awaited. destruct (outcome _); reflexivity. Qed.

Lemma select_on_hit (table : string) (options : json) (w w' : World) (r : QueryResult rows) :
  getFromCache (generateCacheKey table OpSelect options) w = (inr (Some r), w') ->
  select gateway table options w = (inr r, w').
Proof. intros H. unfold select, bind. rewrite H. reflexivity. Qed.

Lemma rawQuery_on_hit (query : string) (params : list json) (options : json)
    (w w' : World) (r : QueryResult rows) :
  getFromCache (generateCacheKey "raw" OpSelect (raw_params query params)) w
    = (inr (Some r), w') ->
  rawQuery gateway query params options w = (inr r, w').
Proof. intros H. unfold rawQuery, bind. rewrite H. reflexivity. Qed.

(** A lookup that throws is not caught: it is made before the [try]. *)
Lemma select_on_throw (table : string) (options : json) (w w' : World) (e : exn) :
  getFromCache (generateCacheKey table OpSelect options) w = (inl e, w') ->
  select gateway table options w = (inl e, w').
Proof. intros H. unfold select, bind. rewrite H. reflexivity. Qed.

Lemma rawQuery_on_throw (query : string) (params : list json) (options : json)
    (w w' : World) (e : exn) :
  getFromCache (generateCacheKey "raw" OpSelect (raw_params query params)) w = (inl e, w') ->
  rawQuery gateway query params options w = (inl e, w').
Proof. intros H. unfold rawQuery, bind. rewrite H. reflexivity. Qed.

(** [select] with [null] for options, after a miss: the read of
    [options.columns] throws inside the [try], before any request. *)
Lemma select_null_on_miss (table : string) (w w1 : World) :
  getFromCache (generateCacheKey table OpSelect JNull) w = (inr None, w1) ->
  select gateway table JNull w =
    (inr (failed (exn_message (null_read "columns"))),
     snd (logger LogError ("Database select exception for table " +:+ table)
            (Some (exn_data (null_read "columns"))) w1)).
Proof. intros H. unfold select. unfold bind at 1. rewrite H. reflexivity. Qed.

(** [select] after a miss, by the gateway's reply. *)
Lemma select_on_miss (table : string) (options : json) (w w1 : World) :
  let key := generateCacheKey table OpSelect options in
  let rq := FromTable table (select_chain options) in
  options <> JNull ->
  getFromCache key w = (inr None, w1) ->
  select gateway table options w =
    match outcome (gateway (gateway_calls w1) rq) with
    | Responds (Rows d) =>
        (inr (succeeded d),
         snd (logger LogDebug ("Database select completed for table " +:+ table)
                (Some (JObj [("rowCount", row_count d);
                             ("cached", JBool (truthy (get_field "cache" options)))]))
                (snd (cache_result key d (get_field "cache" options)
                        (awaited gateway rq w1)))))
    | Responds (Failure message) =>
        (inr (failed message),
         snd (logger LogError ("Database select error for table " +:+ table)
                (Some (error_data message)) (awaited gateway rq w1)))
    | Throws e =>
        (inr (failed (exn_message e)),
         snd (logger LogError ("Database select exception for table " +:+ table)
                (Some (exn_data e)) (awaited gateway rq w1)))
    end.
Proof.
  intros key rq Hnull H. unfold select. fold key. unfold bind at 1. rewrite H.
  assert (Hread : property "columns" options w1 = (inr (get_field "columns" options), w1))
    by (destruct options; try contradiction; reflexivity).
  unfold try_catch. unfold bind at 1. rewrite Hread.
  unfold bind. fold rq. rewrite await_run.
  destruct (outcome (gateway (gateway_calls w1) rq)) as [[d|message]|e]; try reflexivity.
  pose proof (cache_result_returns key d (get_field "cache" options) (awaited gateway rq w1)) as Hc.
  destruct (cache_result key d (get_field "cache" options) (awaited gateway rq w1))
    as [[e|[]] w2]; [discriminate Hc|]. reflexivity.
Qed.

(** [rawQuery] after a miss, by the gateway's reply; [options] is read only
    once the rows have arrived. *)
Lemma rawQuery_on_miss (query : string) (params : list json) (options : json)
    (w w1 : World) :
  let key := generateCacheKey "raw" OpSelect (raw_params query params) in
  let rq := Rpc "execute_sql" (raw_params query params) in
  getFromCache key w = (inr None, w1) ->
  rawQuery gateway query params options w =
    match outcome (gateway (gateway_calls w1) rq) with
    | Responds (Rows d) =>
        match options with
        | JNull =>
            (inr (failed (exn_message (null_read "cache"))),
             snd (logger LogError "Database raw query exception"
                    (Some (exn_data (null_read "cache"))) (awaited gateway rq w1)))
        | _ =>
            (inr (succeeded d),
             snd (logger LogDebug "Database raw query completed"
                    (Some (JObj [("rowCount", row_count d);
                                 ("cached", JBool (truthy (get_field "cache" options)))]))
                    (snd (cache_result key d (get_field "cache" options)
                            (awaited gateway rq w1)))))
        end
    | Responds (Failure message) =>
        (inr (failed message),
         snd (logger LogError "Database raw query error"
                (Some (error_data message)) (awaited gateway rq w1)))
    | Throws e =>
        (inr (failed (exn_message e)),
         snd (logger LogError "Database raw query exception"
                (Some (exn_data e)) (awaited gateway rq w1)))
    end.
Proof.
  intros key rq H. unfold rawQuery. fold key. unfold bind at 1. rewrite H.
  unfold try_catch. unfold bind at 1. fold rq. rewrite await_run.
  destruct (outcome (gateway (gateway_calls w1) rq)) as [[d|message]|e]; try reflexivity.
  destruct options; try reflexivity;
    unfold bind at 1; cbn [property ret];
    match goal with
    | |- context [cache_result key d ?c ?w] =>
        let Hc := fresh in
        pose proof (cache_result_returns key d c w) as Hc;
        unfold bind at 1;
        destruct (cache_result key d c w) as [[e|[]] w2]; [discriminate Hc|]; reflexivity
    end.
Qed.

End Reads.

Lemma cache_result_stores (key : string) (d : rows) (c : json) (w : World) :
  isCacheEnabled w = true ->
  truthy (Some c) = true ->
  cache (snd (cache_result key d (Some c) w)) !! key =
    Some {| entry_data := d;
            entry_expiresAt :=
              clock w + match cache_ttl c with Some t => t | None => defaultTTL w end * 1000;
            entry_tags := cache_tags c |}.
Proof.
  intros He Ht. unfold cache_result. rewrite Ht.
  destruct (setCache_enabled key d (cache_ttl c) (cache_tags c) w He) as (_ & -> & _).
  apply lookup_insert_eq.
Qed.

Lemma lifetime_ttl (c : json) (w : World) (ttl : Z) :
  lifetime c w ttl ->
  match cache_ttl c with Some t => t | None => defaultTTL w end = ttl.
Proof. unfold cache_ttl. intros [H|[H ->]]; rewrite H; reflexivity. Qed.

(** What a read leaves behind when it missed, the gateway answered with rows
    and the caller gave a cache directive: the rows are stored under the key
    from the moment the reply arrived. *)
Lemma read_then_hit (gateway : list Request -> Request -> Reply)
    (key : string) (rq : Request) (d : rows) (c : json) (ttl elapsed : Z)
    (lvl : LogLevel) (msg : string) (info : option json) (w w1 : World) :
  isCacheEnabled w = true ->
  getFromCache key w = (inr None, w1) ->
  truthy (Some c) = true ->
  lifetime c w ttl ->
  servable (clock w + Z.of_N (latency (gateway (gateway_calls w) rq))) ttl (defaultTTL w) ->
  let after := snd (logger lvl msg info (snd (cache_result key d (Some c) (awaited gateway rq w1)))) in
  gateway_calls after = (gateway_calls w ++ [rq])%list
  /\ (elapsed < ttl * 1000 ->
      exists r, getFromCache key (advance elapsed after) = (inr (Some r), advance elapsed after)
                /\ data r = Some d /\ fromCache r = true).
Proof.
  intros He Hmiss Ht Hlife Hserve after.
  apply getFromCache_None_inv in Hmiss as [[Hoff _]|[_ ->]]; [congruence|].
  set (w2 := awaited gateway rq (set_cache (delete key (cache w)) w)) in *.
  assert (He2 : isCacheEnabled w2 = true) by exact He.
  pose proof (cache_result_stores key d c w2 He2 Ht) as Hstored.
  change (defaultTTL w2) with (defaultTTL w) in Hstored.
  rewrite (lifetime_ttl c w ttl Hlife) in Hstored.
  destruct (cache_result_frame key d (Some c) w2) as (He3 & Hd3 & Hc3 & Hg3).
  destruct (logger_frame lvl msg info (snd (cache_result key d (Some c) w2)))
    as (Lc & Le & Ld & Lt & Lg).
  fold after in Lc, Le, Ld, Lt, Lg.
  split.
  - rewrite Lg, Hg3. reflexivity.
  - intros Hlt. eexists. split.
    + apply getFromCache_hit with
        (entry := {| entry_data := d; entry_expiresAt := clock w2 + ttl * 1000;
                     entry_tags := cache_tags c |}).
      * change (isCacheEnabled after = true). rewrite Le, He3. exact He2.
      * change (cache after !! key = Some
                  {| entry_data := d; entry_expiresAt := clock w2 + ttl * 1000;
                     entry_tags := cache_tags c |}).
        rewrite Lc. exact Hstored.
      * change (clock after + elapsed < clock w2 + ttl * 1000).
        rewrite Lt, Hc3. lia.
      * destruct Hserve as [Hcached Hexpiry]. split.
        -- change (in_date_range (clock w2 + ttl * 1000 - defaultTTL after * 1000)).
           rewrite Ld, Hd3. exact Hcached.
        -- exact Hexpiry.
    + cbn. auto.
Qed.

(** C4: a read ([select] or [rawQuery]) whose key has a valid cached entry
    returns the cached rows with [fromCache = true] and leaves the world, and
    with it the list of gateway requests, as it was; and after a read that
    missed, was answered with rows and was cached, the same read repeated
    within the TTL is served from the cache without a gateway request.  The
    TTL is the number the cache directive gives, or the default when it gives
    none; the dates a hit reports are taken to be valid dates. *)
Theorem read_through_bypass_on_hit (gateway : list Request -> Request -> Reply) :
  (forall table options entry w,
      isCacheEnabled w = true ->
      cache w !! generateCacheKey table OpSelect options = Some entry ->
      clock w < entry_expiresAt entry ->
      dates_in_range w entry ->
      exists r, select gateway table options w = (inr r, w)
                /\ data r = Some (entry_data entry) /\ fromCache r = true)
  /\ (forall query params options entry w,
        isCacheEnabled w = true ->
        cache w !! generateCacheKey "raw" OpSelect (raw_params query params) = Some entry ->
        clock w < entry_expiresAt entry ->
        dates_in_range w entry ->
        exists r, rawQuery gateway query params options w = (inr r, w)
                  /\ data r = Some (entry_data entry) /\ fromCache r = true)
  /\ (forall table options c d ttl elapsed w,
        let rq := FromTable table (select_chain options) in
        let arrived := clock w + Z.of_N (latency (gateway (gateway_calls w) rq)) in
        isCacheEnabled w = true ->
        fst (getFromCache (generateCacheKey table OpSelect options) w) = inr None ->
        outcome (gateway (gateway_calls w) rq) = Responds (Rows d) ->
        get_field "cache" options = Some c -> truthy (Some c) = true ->
        lifetime c w ttl ->
        servable arrived ttl (defaultTTL w) ->
        elapsed < ttl * 1000 ->
        let first := select gateway table options w in
        let second := select gateway table options (advance elapsed (snd first)) in
        fst first = inr (succeeded d)
        /\ gateway_calls (snd first) = (gateway_calls w ++ [rq])%list
        /\ (exists r, fst second = inr r /\ data r = Some d /\ fromCache r = true)
        /\ gateway_calls (snd second) = gateway_calls (snd first))
  /\ (forall query params options c d ttl elapsed w,
        let rq := Rpc "execute_sql" (raw_params query params) in
        let arrived := clock w + Z.of_N (latency (gateway (gateway_calls w) rq)) in
        isCacheEnabled w = true ->
        fst (getFromCache (generateCacheKey "raw" OpSelect (raw_params query params)) w)
          = inr None ->
        outcome (gateway (gateway_calls w) rq) = Responds (Rows d) ->
        get_field "cache" options = Some c -> truthy (Some c) = true ->
        lifetime c w ttl ->
        servable arrived ttl (defaultTTL w) ->
        elapsed < ttl * 1000 ->
        let first := rawQuery gateway query params options w in
        let second := rawQuery gateway query params options (advance elapsed (snd first)) in
        fst first = inr (succeeded d)
        /\ gateway_calls (snd first) = (gateway_calls w ++ [rq])%list
        /\ (exists r, fst second = inr r /\ data r = Some d /\ fromCache r = true)
        /\ gateway_calls (snd second) = gateway_calls (snd first)).
Proof.
  split; [|split; [|split]].
  - intros table options entry w He Hk Ht Hdates. eexists. split.
    + apply select_on_hit. apply (getFromCache_hit _ entry); assumption.
    + cbn. auto.
  - intros query params options entry w He Hk Ht Hdates. eexists. split.
    + apply rawQuery_on_hit. apply (getFromCache_hit _ entry); assumption.
    + cbn. auto.
  - intros table options c d ttl elapsed w rq arrived He Hmiss Hreply Hc Htruthy Hlife
      Hserve Hlt first second.
    assert (Hnull : options <> JNull) by (intros ->; discriminate Hc).
    destruct (getFromCache (generateCacheKey table OpSelect options) w) as [a w1] eqn:Hg.
    cbn in Hmiss. subst a.
    assert (Hcalls : gateway_calls w1 = gateway_calls w).
    { apply getFromCache_None_inv in Hg as [[_ ->]|[_ ->]]; reflexivity. }
    pose proof (select_on_miss gateway table options w w1 Hnull Hg) as Hfirst.
    fold rq in Hfirst. rewrite Hcalls, Hreply, Hc in Hfirst.
    destruct (read_then_hit gateway _ rq d c ttl elapsed
                LogDebug ("Database select completed for table " +:+ table)
                (Some (JObj [("rowCount", row_count d);
                             ("cached", JBool (truthy (Some c)))]))
                w w1 He Hg Htruthy Hlife Hserve) as [Hlog Hhit].
    destruct (Hhit Hlt) as (r & Hr & Hd & Hf).
    subst second. subst first. rewrite Hfirst. cbn [fst snd].
    split; [reflexivity|]. split; [exact Hlog|].
    rewrite (select_on_hit gateway table options _ _ r Hr). cbn [fst snd].
    split; [eauto|reflexivity].
  - intros query params options c d ttl elapsed w rq arrived He Hmiss Hreply Hc Htruthy Hlife
      Hserve Hlt first second.
    destruct (getFromCache (generateCacheKey "raw" OpSelect (raw_params query params)) w)
      as [a w1] eqn:Hg.
    cbn in Hmiss. subst a.
    assert (Hcalls : gateway_calls w1 = gateway_calls w).
    { apply getFromCache_None_inv in Hg as [[_ ->]|[_ ->]]; reflexivity. }
    pose proof (rawQuery_on_miss gateway query params options w w1 Hg) as Hfirst.
    fold rq in Hfirst. rewrite Hcalls, Hreply in Hfirst.
    assert (Hshape : rawQuery gateway query params options w =
              (inr (succeeded d),
               snd (logger LogDebug "Database raw query completed"
                      (Some (JObj [("rowCount", row_count d);
                                   ("cached", JBool (truthy (Some c)))]))
                      (snd (cache_result
                              (generateCacheKey "raw" OpSelect (raw_params query params)) d
                              (Some c) (awaited gateway rq w1)))))).
    { rewrite Hfirst. destruct options; try discriminate Hc; rewrite Hc; reflexivity. }
    destruct (read_then_hit gateway _ rq d c ttl elapsed
                LogDebug "Database raw query completed"
                (Some (JObj [("rowCount", row_count d);
                             ("cached", JBool (truthy (Some c)))]))
                w w1 He Hg Htruthy Hlife Hserve) as [Hlog Hhit].
    destruct (Hhit Hlt) as (r & Hr & Hd & Hf).
    subst second. subst first. rewrite Hshape. cbn [fst snd].
    split; [reflexivity|]. split; [exact Hlog|].
    rewrite (rawQuery_on_hit gateway query params options _ _ r Hr). cbn [fst snd].
    split; [eauto|reflexivity].
Qed.

(** A worked instance of C4: [select] on the invoices with a cache directive
    of 5 seconds, repeated one second later. *)
Lemma read_through_bypass_on_hit_witness :
  let options := JObj [("cache", JObj [("ttl", JNum 5); ("tags", JArr [JStr "invoices"])])] in
  let first := select (gateway_rows invoice_1) "invoices" options (initial 0) in
  let second :=
    select (gateway_rows invoice_1) "invoices" options (advance 1000 (snd first)) in
  fst first = inr (succeeded invoice_1)
  /\ gateway_calls (snd first) = ([] ++ [FromTable "invoices" (select_chain options)])%list
  /\ (exists r, fst second = inr r /\ data r = Some invoice_1 /\ fromCache r = true)
  /\ gateway_calls (snd second) = gateway_calls (snd first).
Proof.
  intros options first second.
  refine (proj1 (proj2 (proj2 (read_through_bypass_on_hit (gateway_rows invoice_1))))
            "invoices" options
            (JObj [("ttl", JNum 5); ("tags", JArr [JStr "invoices"])])
            invoice_1 5 1000 (initial 0) eq_refl _ eq_refl eq_refl eq_refl _ _ _).
  - vm_compute. reflexivity.
  - left. reflexivity.
  - unfold servable, in_date_range, max_date. cbn. lia.
  - lia.
Defined.

(** * Gateway failures *)

(** Once a read has missed, the same key misses again in every later world
    that has the miss's cache and the same caching flag. *)
Lemma miss_again (key : string) (w w1 w2 : World) :
  getFromCache key w = (inr None, w1) ->
  cache w2 = cache w1 -> isCacheEnabled w2 = isCacheEnabled w ->
  exists w3, getFromCache key w2 = (inr None, w3)
             /\ gateway_calls w3 = gateway_calls w2
             /\ cache w3 = cache w1.
Proof.
  intros Hmiss Hc He.
  apply getFromCache_None_inv in Hmiss as [[Hoff ->]|[Hon ->]].
  - exists w2. rewrite getFromCache_disabled by congruence. auto.
  - exists (set_cache (delete key (cache w2)) w2).
    rewrite getFromCache_absent.
    + cbn. rewrite Hc. cbn. split; [reflexivity|]. split; [reflexivity|].
      apply delete_delete_eq.
    + congruence.
    + rewrite Hc. cbn. apply lookup_delete_eq.
Qed.

Lemma select_miss_calls (gateway : list Request -> Request -> Reply)
    (table : string) (options : json) (w w1 : World) :
  options <> JNull ->
  getFromCache (generateCacheKey table OpSelect options) w = (inr None, w1) ->
  gateway_calls w1 = gateway_calls w ->
  gateway_calls (snd (select gateway table options w))
  = (gateway_calls w ++ [FromTable table (select_chain options)])%list.
Proof.
  intros Hnull Hmiss Hcalls.
  rewrite (select_on_miss gateway table options w w1 Hnull Hmiss).
  destruct (outcome _) as [[d|message]|e]; cbn [snd]; rewrite logger_run; cbn [snd];
    try (cbn; rewrite Hcalls; reflexivity).
  change (gateway_calls (snd (cache_result (generateCacheKey table OpSelect options) d
                                (get_field "cache" options)
                                (awaited gateway (FromTable table (select_chain options)) w1)))
          = (gateway_calls w ++ [FromTable table (select_chain options)])%list).
  destruct (cache_result_frame (generateCacheKey table OpSelect options) d
              (get_field "cache" options)
              (awaited gateway (FromTable table (select_chain options)) w1))
    as (_ & _ & _ & ->).
  cbn. rewrite Hcalls. reflexivity.
Qed.

Lemma rawQuery_miss_calls (gateway : list Request -> Request -> Reply)
    (query : string) (params : list json) (options : json) (w w1 : World) :
  getFromCache (generateCacheKey "raw" OpSelect (raw_params query params)) w
    = (inr None, w1) ->
  gateway_calls w1 = gateway_calls w ->
  gateway_calls (snd (rawQuery gateway query params options w))
  = (gateway_calls w ++ [Rpc "execute_sql" (raw_params query params)])%list.
Proof.
  intros Hmiss Hcalls. rewrite (rawQuery_on_miss gateway query params options w w1 Hmiss).
  destruct (outcome _) as [[d|message]|e]; cbn [snd]; rewrite ?logger_run; cbn [snd];
    try (cbn; rewrite Hcalls; reflexivity).
  assert (Hcases : options = JNull \/ options <> JNull)
    by (destruct options; auto; right; discriminate).
  destruct Hcases as [->|Hnull]; [cbn; rewrite Hcalls; reflexivity|].
  assert (Hgoal : gateway_calls
            (snd (logger LogDebug "Database raw query completed"
                    (Some (JObj [("rowCount", row_count d);
                                 ("cached", JBool (truthy (get_field "cache" options)))]))
                    (snd (cache_result
                            (generateCacheKey "raw" OpSelect (raw_params query params)) d
                            (get_field "cache" options)
                            (awaited gateway (Rpc "execute_sql" (raw_params query params))
                               w1)))))
          = (gateway_calls w ++ [Rpc "execute_sql" (raw_params query params)])%list);
    [|destruct options; try contradiction; exact Hgoal].
  rewrite logger_run. cbn [snd].
  change (gateway_calls
            (snd (cache_result (generateCacheKey "raw" OpSelect (raw_params query params)) d
                    (get_field "cache" options)
                    (awaited gateway (Rpc "execute_sql" (raw_params query params)) w1)))
          = (gateway_calls w ++ [Rpc "execute_sql" (raw_params query params)])%list).
  destruct (cache_result_frame (generateCacheKey "raw" OpSelect (raw_params query params)) d
              (get_field "cache" options)
              (awaited gateway (Rpc "execute_sql" (raw_params query params)) w1))
    as (_ & _ & _ & ->).
  cbn. rewrite Hcalls. reflexivity.
Qed.

Lemma failed_read_world (key : string) (lvl : LogLevel) (msg : string) (info : option json)
    (gateway : list Request -> Request -> Reply) (rq : Request) (w w1 : World) :
  getFromCache key w = (inr None, w1) ->
  let after := snd (logger lvl msg info (awaited gateway rq w1)) in
  cache after = cache w1
  /\ (isCacheEnabled w = true -> cache after !! key = None)
  /\ forall elapsed,
       exists w3, getFromCache key (advance elapsed after) = (inr None, w3)
                  /\ gateway_calls w3 = gateway_calls (advance elapsed after).
Proof.
  intros Hmiss after.
  assert (Hc : cache after = cache w1) by reflexivity.
  split; [exact Hc|]. split.
  - intros He. rewrite Hc.
    apply getFromCache_None_inv in Hmiss as [[Hoff _]|[_ ->]]; [congruence|].
    cbn. apply lookup_delete_eq.
  - intros elapsed.
    destruct (miss_again key w w1 (advance elapsed after) Hmiss) as (w3 & H3 & Hg & _).
    + exact Hc.
    + apply getFromCache_None_inv in Hmiss as [[_ ->]|[_ ->]]; reflexivity.
    + eauto.
Qed.

(** C7: when a read reaches the gateway and the call fails, by an error reply
    or by a thrown exception, the read returns a result (nothing is thrown)
    whose [error] is the failure's message (["Unknown error"] for a thrown
    value that is not an [Error]) and whose [data] is absent; nothing is
    written to the cache, and the same read made again goes to the gateway
    again.  A [select] reaches the gateway when its options are not [null]. *)
Theorem gateway_failure_is_returned_and_not_cached
    (gateway : list Request -> Request -> Reply) :
  (forall table options message w,
      let key := generateCacheKey table OpSelect options in
      let rq := FromTable table (select_chain options) in
      options <> JNull ->
      fst (getFromCache key w) = inr None ->
      fails_with (outcome (gateway (gateway_calls w) rq)) message ->
      let first := select gateway table options w in
      (exists r, fst first = inr r
                 /\ error r = Some message /\ data r = None /\ fromCache r = false)
      /\ cache (snd first) = cache (snd (getFromCache key w))
      /\ (isCacheEnabled w = true -> cache (snd first) !! key = None)
      /\ forall elapsed,
           gateway_calls (snd (select gateway table options (advance elapsed (snd first))))
           = (gateway_calls (snd first) ++ [rq])%list)
  /\ (forall query params options message w,
        let key := generateCacheKey "raw" OpSelect (raw_params query params) in
        let rq := Rpc "execute_sql" (raw_params query params) in
        fst (getFromCache key w) = inr None ->
        fails_with (outcome (gateway (gateway_calls w) rq)) message ->
        let first := rawQuery gateway query params options w in
        (exists r, fst first = inr r
                   /\ error r = Some message /\ data r = None /\ fromCache r = false)
        /\ cache (snd first) = cache (snd (getFromCache key w))
        /\ (isCacheEnabled w = true -> cache (snd first) !! key = None)
        /\ forall elapsed,
             gateway_calls
               (snd (rawQuery gateway query params options (advance elapsed (snd first))))
             = (gateway_calls (snd first) ++ [rq])%list).
Proof.
  split.
  - intros table options message w key rq Hnull Hmiss Hfail first.
    destruct (getFromCache key w) as [a w1] eqn:Hg. cbn in Hmiss. subst a.
    assert (Hcalls : gateway_calls w1 = gateway_calls w).
    { apply getFromCache_None_inv in Hg as [[_ ->]|[_ ->]]; reflexivity. }
    pose proof (select_on_miss gateway table options w w1 Hnull Hg) as Hfirst.
    fold key rq in Hfirst. rewrite Hcalls in Hfirst.
    assert (Hshape : exists lvl msg info,
               first = (inr (failed message),
                        snd (logger lvl msg info (awaited gateway rq w1)))).
    { unfold first. rewrite Hfirst.
      destruct Hfail as [-> | [-> | (v & -> & ->)]]; cbn; eauto. }
    destruct Hshape as (lvl & msg & info & ->). cbn [fst snd].
    destruct (failed_read_world key lvl msg info gateway rq w w1 Hg) as (Hc & Hk & Hagain).
    split; [eexists; cbn; eauto|]. split; [exact Hc|]. split; [exact Hk|].
    intros elapsed. destruct (Hagain elapsed) as (w3 & H3 & Hg3).
    apply (select_miss_calls gateway table options _ w3 Hnull H3 Hg3).
  - intros query params options message w key rq Hmiss Hfail first.
    destruct (getFromCache key w) as [a w1] eqn:Hg. cbn in Hmiss. subst a.
    assert (Hcalls : gateway_calls w1 = gateway_calls w).
    { apply getFromCache_None_inv in Hg as [[_ ->]|[_ ->]]; reflexivity. }
    pose proof (rawQuery_on_miss gateway query params options w w1 Hg) as Hfirst.
    fold key rq in Hfirst. rewrite Hcalls in Hfirst.
    assert (Hshape : exists lvl msg info,
               first = (inr (failed message),
                        snd (logger lvl msg info (awaited gateway rq w1)))).
    { unfold first. rewrite Hfirst.
      destruct Hfail as [-> | [-> | (v & -> & ->)]]; cbn; eauto. }
    destruct Hshape as (lvl & msg & info & ->). cbn [fst snd].
    destruct (failed_read_world key lvl msg info gateway rq w w1 Hg) as (Hc & Hk & Hagain).
    split; [eexists; cbn; eauto|]. split; [exact Hc|]. split; [exact Hk|].
    intros elapsed. destruct (Hagain elapsed) as (w3 & H3 & Hg3).
    apply (rawQuery_miss_calls gateway query params options _ w3 H3 Hg3).
Qed.

(** A thrown value that is not an [Error] is reported as ["Unknown error"]. *)
Example select_reports_thrown_value :
  fst (select (gateway_throws (ThrownValue (JStr "boom"))) "invoices" (JObj []) (initial 0))
  = inr (failed "Unknown error").
Proof. vm_compute. reflexivity. Qed.

(** A worked instance of C7: the store rejects a [select] on the invoices; the
    read returns the message, caches nothing and asks the store again when it
    is repeated. *)
Lemma gateway_failure_is_returned_and_not_cached_witness :
  let gateway := gateway_rejects "permission denied" in
  let options := JObj [("cache", JObj [("ttl", JNum 5)])] in
  let key := generateCacheKey "invoices" OpSelect options in
  let rq := FromTable "invoices" (select_chain options) in
  let first := select gateway "invoices" options (initial 0) in
  (exists r, fst first = inr r /\ error r = Some "permission denied"
             /\ data r = None /\ fromCache r = false)
  /\ cache (snd first) = cache (snd (getFromCache key (initial 0)))
  /\ (isCacheEnabled (initial 0) = true -> cache (snd first) !! key = None)
  /\ forall elapsed,
       gateway_calls (snd (select gateway "invoices" options (advance elapsed (snd first))))
       = (gateway_calls (snd first) ++ [rq])%list.
Proof.
  intros gateway options key rq first.
  refine (proj1 (gateway_failure_is_returned_and_not_cached gateway)
            "invoices" options "permission denied" (initial 0) _ _ _).
  - discriminate.
  - vm_compute. reflexivity.
  - left. reflexivity.
Defined.

(** * The shape of results *)

Lemma exactly_one_succeeded {T} (d : T) : exactly_one (succeeded d).
Proof. unfold exactly_one. cbn. split; [intros [x Hx]|]; discriminate. Qed.

Lemma exactly_one_failed {T} (message : string) : exactly_one (@failed T message).
Proof. unfold exactly_one. cbn. split; eauto. Qed.

Lemma not_exactly_one_deleted : ~ exactly_one deleted.
Proof. unfold exactly_one. cbn. intros [_ H]. destruct (H eq_refl) as [x Hx]. discriminate. Qed.

Create HintDb results.
#[local] Hint Resolve exactly_one_succeeded exactly_one_failed : results.

Section Shapes.

Variable gateway : list Request -> Request -> Reply.

(** Whatever [select] returns has exactly one of data and error; when it
    throws instead, the cache lookup threw. *)
Lemma select_exactly_one (table : string) (options : json) (w : World) :
  match fst (select gateway table options w) with
  | inr r => exactly_one r
  | inl e => fst (getFromCache (generateCacheKey table OpSelect options) w) = inl e
  end.
Proof.
  destruct (getFromCache (generateCacheKey table OpSelect options) w) as [[e|[r|]] w1] eqn:Hg.
  - rewrite (select_on_throw gateway table options w w1 e Hg). reflexivity.
  - rewrite (select_on_hit gateway table options w w1 r Hg). cbn [fst].
    apply getFromCache_Some_inv in Hg as (_ & _ & entry & _ & _ & _ & ->).
    unfold exactly_one. cbn. split; [intros [x Hx]|]; discriminate.
  - assert (Hcases : options = JNull \/ options <> JNull)
      by (destruct options; auto; right; discriminate).
    destruct Hcases as [->|Hnull].
    + rewrite (select_null_on_miss gateway table w w1 Hg). apply exactly_one_failed.
    + rewrite (select_on_miss gateway table options w w1 Hnull Hg).
      destruct (outcome _) as [[d|message]|e]; cbn [fst]; auto with results.
Qed.

Lemma rawQuery_exactly_one (query : string) (params : list json) (options : json)
    (w : World) :
  match fst (rawQuery gateway query params options w) with
  | inr r => exactly_one r
  | inl e =>
      fst (getFromCache (generateCacheKey "raw" OpSelect (raw_params query params)) w) = inl e
  end.
Proof.
  destruct (getFromCache (generateCacheKey "raw" OpSelect (raw_params query params)) w)
    as [[e|[r|]] w1] eqn:Hg.
  - rewrite (rawQuery_on_throw gateway query params options w w1 e Hg). reflexivity.
  - rewrite (rawQuery_on_hit gateway query params options w w1 r Hg). cbn [fst].
    apply getFromCache_Some_inv in Hg as (_ & _ & entry & _ & _ & _ & ->).
    unfold exactly_one. cbn. split; [intros [x Hx]|]; discriminate.
  - rewrite (rawQuery_on_miss gateway query params options w w1 Hg).
    destruct (outcome _) as [[d|message]|e]; cbn [fst]; auto with results.
    destruct options; cbn [fst]; auto with results.
Qed.

(** Runs the body of a write up to its return. *)
Ltac run_write :=
  unfold try_catch, bind, ret; cbn beta iota; rewrite ?await_run;
  match goal with
  | |- context [outcome ?reply] => destruct (outcome reply) as [[?d|?message]|?e]
  end;
  cbn [fst snd];
  try match goal with
    | |- context [invalidate_related ?o ?w] =>
        destruct (invalidate_related o w) as [[?|[]] ?]
    end;
  cbn [fst snd].

Lemma insert_exactly_one (table : string) (payload : option json) (options : json)
    (w : World) :
  exists r, fst (insert gateway table payload options w) = inr r /\ exactly_one r.
Proof. unfold insert. run_write; eauto with results. Qed.

Lemma upsert_exactly_one (table : string) (payload : option json) (options : json)
    (w : World) :
  exists r, fst (upsert gateway table payload options w) = inr r /\ exactly_one r.
Proof.
  unfold upsert.
  destruct options; cbn [property];
    try (unfold try_catch, bind, throw; cbn; eauto with results; fail);
    run_write; eauto with results.
Qed.

Lemma update_exactly_one (table : string) (payload filters : option json) (options : json)
    (w : World) :
  exists r, fst (update gateway table payload filters options w) = inr r /\ exactly_one r.
Proof.
  unfold update.
  destruct filters as [[]|]; cbn [filter_entries];
    try (unfold try_catch, bind, throw; cbn; eauto with results; fail);
    run_write; eauto with results.
Qed.

(** [delete] returns the failure, or the literal without data and error. *)
Lemma delete_shape (table : string) (filters : option json) (options : json) (w : World) :
  exists r, fst (delete_ gateway table filters options w) = inr r
            /\ data r = None
            /\ (r = deleted \/ exists message, r = failed message).
Proof.
  unfold delete_.
  destruct filters as [[]|]; cbn [filter_entries];
    try (unfold try_catch, bind, throw; cbn; eauto 10; fail);
    run_write; eauto 10.
Qed.

Lemma delete_accepted (table : string) (v : json) (options : json) (d : rows) (w : World) :
  v <> JNull ->
  tags_usable options ->
  outcome (gateway (gateway_calls w) (FromTable table (eq_filters [QDelete] (entries v))))
    = Responds (Rows d) ->
  fst (delete_ gateway table (Some v) options w) = inr deleted.
Proof.
  intros Hv Htags Hreply. unfold delete_.
  destruct v; try contradiction; cbn [filter_entries];
    unfold try_catch, bind, ret; rewrite await_run, Hreply; cbn [fst snd];
    match goal with
    | |- context [invalidate_related ?o ?w] =>
        let H := fresh in
        pose proof (invalidate_related_returns o w Htags) as H;
        destruct (invalidate_related o w) as [[?|[]] ?]; [discriminate H|]
    end; reflexivity.
Qed.

End Shapes.

(** * Batch *)

Section Batch.

Variable gateway : list Request -> Request -> Reply.

Lemma error_truthy_is_Some (e : option string) : error_truthy e = true -> is_Some e.
Proof. destruct e; [eauto | discriminate]. Qed.

Lemma batch_loop_exactly_one (total : nat) (operations : list BatchOp)
    (results : list (option rows)) (w : World) :
  match fst (batch_loop gateway total operations results w) with
  | inr r => exactly_one r
  | inl _ => True
  end.
Proof.
  revert results w. induction operations as [|op rest IH]; intros results w.
  - cbn. apply exactly_one_succeeded.
  - cbn [batch_loop]. unfold bind at 1.
    destruct (dispatch gateway op w) as [[e|result] w']; [exact I|].
    destruct (error_truthy (error result)) eqn:Ht.
    + cbn. unfold exactly_one. cbn. split; [reflexivity|].
      intros _. now apply error_truthy_is_Some.
    + apply IH.
Qed.

Lemma batch_exactly_one (operations : list BatchOp) (w : World) :
  exists r, fst (batch gateway operations w) = inr r /\ exactly_one r.
Proof.
  unfold batch, try_catch.
  pose proof (batch_loop_exactly_one (length operations) operations [] w) as H.
  destruct (batch_loop gateway (length operations) operations [] w) as [[e|r] w'].
  - cbn. eauto with results.
  - cbn in *. eauto.
Qed.

(** The loop after a prefix that ran without a truthy error. *)
Lemma batch_loop_after_prefix (total : nat) (pre rest : list BatchOp)
    (results ds : list (option rows)) (w w' : World) :
  ran gateway pre w ds w' ->
  batch_loop gateway total (pre ++ rest) results w
  = batch_loop gateway total rest (results ++ ds) w'.
Proof.
  intros Hran. revert results. induction Hran as [w|op ops w r w1 ds w2 Hd Ht _ IH];
    intros results.
  - cbn. now rewrite app_nil_r.
  - cbn [app batch_loop]. unfold bind at 1. rewrite Hd, Ht, IH.
    now rewrite <- app_assoc.
Qed.

(** Stop at the first truthy error: the batch returns that error without
    data, in the world the failing operation left, so no later operation has
    run. *)
Lemma batch_stops_at_first_truthy_error (pre post : list BatchOp) (op : BatchOp)
    (ds : list (option rows)) (r : QueryResult rows) (w w1 w2 : World) :
  ran gateway pre w ds w1 ->
  dispatch gateway op w1 = (inr r, w2) ->
  error_truthy (error r) = true ->
  batch gateway (pre ++ op :: post) w
  = (inr {| data := None; error := error r; fromCache := false;
            cachedAt := None; expiresAt := None |}, w2).
Proof.
  intros Hran Hd Ht. unfold batch, try_catch.
  rewrite (batch_loop_after_prefix _ pre (op :: post) [] ds w w1 Hran).
  cbn [batch_loop]. unfold bind at 1. rewrite Hd, Ht. reflexivity.
Qed.

(** When no operation reports a truthy error, the batch returns every
    operation's data in operation order. *)
Lemma batch_all_ran (operations : list BatchOp) (ds : list (option rows)) (w w' : World) :
  ran gateway operations w ds w' ->
  fst (batch gateway operations w) = inr (succeeded ds)
  /\ gateway_calls (snd (batch gateway operations w)) = gateway_calls w'.
Proof.
  intros Hran. unfold batch, try_catch.
  pose proof (batch_loop_after_prefix (length operations) operations [] [] ds w w' Hran) as H.
  rewrite app_nil_r in H. rewrite H. cbn. auto.
Qed.

End Batch.

(** C2, as stated, fails: a [delete] that the gateway accepts returns a result
    with neither data nor error. *)
Lemma delete_success_carries_neither :
  fst (delete_ (gateway_rows []) "invoices" (Some (JObj [("id", JNum 1)])) (JObj [])
         (initial 0))
  = inr deleted
  /\ data deleted = None /\ error deleted = None
  /\ ~ exactly_one deleted.
Proof.
  split; [vm_compute; reflexivity|].
  split; [reflexivity|]. split; [reflexivity|]. apply not_exactly_one_deleted.
Qed.

(** C2, amended: no result that an operation returns carries both data and
    an error.  Every result that [select] or [rawQuery] returns, and the
    result that [insert], [update], [upsert] and [batch] always return,
    carries exactly one of the two ([select] and [rawQuery] return unless
    the cache lookup throws, which they do not catch); the result that
    [delete] always returns never carries data, and a [delete] that the
    gateway accepted and whose invalidation ran carries no error either. *)
Theorem results_never_carry_both (gateway : list Request -> Request -> Reply) :
  (forall table options w r,
      fst (select gateway table options w) = inr r -> exactly_one r)
  /\ (forall table options w e,
        fst (select gateway table options w) = inl e ->
        fst (getFromCache (generateCacheKey table OpSelect options) w) = inl e)
  /\ (forall table payload options w,
        exists r, fst (insert gateway table payload options w) = inr r /\ exactly_one r)
  /\ (forall table payload filters options w,
        exists r, fst (update gateway table payload filters options w) = inr r
                  /\ exactly_one r)
  /\ (forall table payload options w,
        exists r, fst (upsert gateway table payload options w) = inr r /\ exactly_one r)
  /\ (forall query params options w r,
        fst (rawQuery gateway query params options w) = inr r -> exactly_one r)
  /\ (forall query params options w e,
        fst (rawQuery gateway query params options w) = inl e ->
        fst (getFromCache (generateCacheKey "raw" OpSelect (raw_params query params)) w)
        = inl e)
  /\ (forall operations w,
        exists r, fst (batch gateway operations w) = inr r /\ exactly_one r)
  /\ (forall table filters options w,
        exists r, fst (delete_ gateway table filters options w) = inr r
                  /\ data r = None)
  /\ (forall table v options d w,
        v <> JNull ->
        tags_usable options ->
        outcome (gateway (gateway_calls w)
                   (FromTable table (eq_filters [QDelete] (entries v))))
          = Responds (Rows d) ->
        exists r, fst (delete_ gateway table (Some v) options w) = inr r
                  /\ data r = None /\ error r = None).
Proof.
  repeat apply conj.
  - intros table options w r H.
    pose proof (select_exactly_one gateway table options w) as Hs.
    rewrite H in Hs. exact Hs.
  - intros table options w e H.
    pose proof (select_exactly_one gateway table options w) as Hs.
    rewrite H in Hs. exact Hs.
  - apply insert_exactly_one.
  - apply update_exactly_one.
  - apply upsert_exactly_one.
  - intros query params options w r H.
    pose proof (rawQuery_exactly_one gateway query params options w) as Hs.
    rewrite H in Hs. exact Hs.
  - intros query params options w e H.
    pose proof (rawQuery_exactly_one gateway query params options w) as Hs.
    rewrite H in Hs. exact Hs.
  - apply batch_exactly_one.
  - intros table filters options w.
    destruct (delete_shape gateway table filters options w) as (r & Hr & Hd & _). eauto.
  - intros table v options d w Hv Htags Hreply. exists deleted.
    split; [now apply (delete_accepted gateway table v options d)|]. split; reflexivity.
Qed.

(** A worked instance of C2 (amended): an accepted [delete] on the invoices. *)
Lemma results_never_carry_both_witness :
  exists r,
    fst (delete_ (gateway_rows []) "invoices" (Some (JObj [("id", JNum 1)])) (JObj [])
           (initial 0)) = inr r
    /\ data r = None /\ error r = None.
Proof.
  refine (proj2 (proj2 (proj2 (proj2 (proj2 (proj2 (proj2 (proj2 (proj2
            (results_never_carry_both (gateway_rows []))))))))))
            "invoices" (JObj [("id", JNum 1)]) (JObj []) [] (initial 0) _ _ eq_refl).
  - discriminate.
  - split; [discriminate | exact I].
Defined.

(** C6 at its failing input: the store rejects the first insert with an empty
    message.  The insert returns the error [""], yet [batch] goes on to run
    the second insert and reports success, with [null] in place of the failed
    operation's data. *)
Lemma batch_runs_past_error_with_empty_message :
  let gateway := gateway_first_fails_silently invoice_1 in
  fst (insert gateway "invoices" (Some (JObj [("id", JNum 1)])) (JObj []) (initial 0))
  = inr (failed "")
  /\ fst (batch gateway two_inserts (initial 0)) = inr (succeeded [None; Some invoice_1])
  /\ gateway_calls (snd (batch gateway two_inserts (initial 0)))
     = [ FromTable "invoices" [QInsert (Some (JObj [("id", JNum 1)])); QReturning];
         FromTable "quotes" [QInsert (Some (JObj [("id", JNum 2)])); QReturning] ].
Proof. vm_compute. repeat split. Qed.

(** The same batch against a store that rejects the first insert with a
    message: it stops there, and the second insert is never sent. *)
Example batch_stops_on_reported_error :
  let gateway := gateway_rejects "duplicate key" in
  fst (batch gateway two_inserts (initial 0)) = inr (failed "duplicate key")
  /\ gateway_calls (snd (batch gateway two_inserts (initial 0)))
     = [ FromTable "invoices" [QInsert (Some (JObj [("id", JNum 1)])); QReturning] ].
Proof. vm_compute. repeat split. Qed.

(** * What a read forwards to the gateway *)

Lemma apply_filter_calls (query : list BuilderCall) (kv : string * json) :
  apply_filter query kv = (query ++ filter_calls kv)%list.
Proof.
  destruct kv as [key value]. unfold apply_filter, filter_calls, call.
  destruct value; try reflexivity.
  unfold call_if_defined, member_call, call.
  repeat match goal with
    | |- context [get_field ?n ?v] => destruct (get_field n v)
    end;
    rewrite <- ?app_assoc; cbn [app]; rewrite ?app_nil_r; reflexivity.
Qed.

Lemma apply_filters_calls (fields : list (string * json)) (query : list BuilderCall) :
  foldl apply_filter query fields = (query ++ flat_map filter_calls fields)%list.
Proof.
  revert query. induction fields as [|kv fields IH]; intros query; cbn [foldl flat_map].
  - now rewrite app_nil_r.
  - rewrite IH, apply_filter_calls. now rewrite <- app_assoc.
Qed.

Lemma select_chain_forwarded (options : json) :
  select_chain options = forwarded options.
Proof.
  unfold select_chain, forwarded, forwarded_columns, forwarded_filters, forwarded_order,
    forwarded_limit, forwarded_range, page_size, call.
  destruct (when_truthy (get_field "filters" options)) as [filters|];
    rewrite ?apply_filters_calls;
    destruct (when_truthy (get_field "orderBy" options)) as [orderBy|];
    destruct (when_truthy (get_field "limit" options)) as [limit|];
    destruct (when_truthy (get_field "offset" options)) as [offset|];
    cbn [app]; rewrite <- ?app_assoc; cbn [app]; rewrite ?app_nil_r; reflexivity.
Qed.

(** C8, as stated, fails: given only [offset: 20], [select] asks the gateway
    for the range 20 to 29, a page of ten that the caller never supplied; and
    a filter whose object value names an operator other than the six the
    service knows is not forwarded at all. *)
Lemma select_adds_page_size_and_drops_filter :
  (get_field "offset" page_three = Some (JNum 20)
   /\ get_field "limit" page_three = None
   /\ gateway_calls (snd (select (gateway_rows []) "invoices" page_three (initial 0)))
      = [FromTable "invoices" [QSelect (JStr "*"); QRange (JNum 20) (EndNumber 29)]])
  /\ (get_field "filters" not_paid = Some (JObj [("status", JObj [("neq", JStr "paid")])])
      /\ gateway_calls (snd (select (gateway_rows []) "invoices" not_paid (initial 0)))
         = [FromTable "invoices" [QSelect (JStr "*")]]).
Proof. vm_compute. repeat split. Qed.

(** C8, amended: a read that reaches the gateway sends one request, built
    from the caller's options only: the columns (["*"] when none are given);
    then, for each entry of [filters] in order (the properties of an object,
    the items of an array under their indices), [in] with the values of an
    array, the [gte], [lte], [gt], [lt], [like] and [ilike] members of an
    object (its other members are not sent), and [eq] with any other value,
    column names and values unchanged; then [orderBy] with its column,
    ascending unless the caller said [false]; then the limit, unchanged,
    unless it is zero; then, for an offset [o] other than zero, the range
    from [o] to [o + (limit or 10) - 1], where a limit of zero counts as
    none.  With [null] for options the read sends nothing. *)
Theorem select_forwards_translated_options
    (gateway : list Request -> Request -> Reply) (table : string) (options : json)
    (w : World) :
  fst (getFromCache (generateCacheKey table OpSelect options) w) = inr None ->
  gateway_calls (snd (select gateway table options w))
  = match options with
    | JNull => gateway_calls w
    | _ => (gateway_calls w ++ [FromTable table (forwarded options)])%list
    end.
Proof.
  intros Hmiss.
  destruct (getFromCache (generateCacheKey table OpSelect options) w) as [a w1] eqn:Hg.
  cbn in Hmiss. subst a.
  assert (Hcalls : gateway_calls w1 = gateway_calls w).
  { apply getFromCache_None_inv in Hg as [[_ ->]|[_ ->]]; reflexivity. }
  assert (Hsent : options <> JNull ->
            gateway_calls (snd (select gateway table options w))
            = (gateway_calls w ++ [FromTable table (forwarded options)])%list).
  { intros Hnull. rewrite <- (select_chain_forwarded options).
    now apply (select_miss_calls gateway table options w w1 Hnull Hg). }
  destruct options; try (apply Hsent; discriminate).
  rewrite (select_null_on_miss gateway table w w1 Hg). exact Hcalls.
Qed.

(** A worked instance of C8 (amended): paid invoices of two customers, newest
    first, second page of 25. *)
Lemma select_forwards_translated_options_witness :
  let options :=
    JObj [("columns", JStr "id,total");
          ("filters", JObj [("status", JStr "paid");
                            ("customer_id", JArr [JNum 7; JNum 9]);
                            ("total", JObj [("gte", JNum 100)])]);
          ("orderBy", JObj [("column", JStr "created_at"); ("ascending", JBool false)]);
          ("limit", JNum 25); ("offset", JNum 25)] in
  forwarded options
  = [QSelect (JStr "id,total"); QEq "status" (JStr "paid");
     QIn "customer_id" [JNum 7; JNum 9]; QGte "total" (JNum 100);
     QOrder (Some (JStr "created_at")) false;
     QLimit (JNum 25); QRange (JNum 25) (EndNumber 49)]
  /\ gateway_calls (snd (select (gateway_rows []) "invoices" options (initial 0)))
     = ([] ++ [FromTable "invoices" (forwarded options)])%list.
Proof.
  intros options. split; [vm_compute; reflexivity|].
  refine (select_forwards_translated_options (gateway_rows []) "invoices" options
            (initial 0) _).
  vm_compute. reflexivity.
Defined.

(** What [forwarded] says at the edges: a limit of zero is not sent and
    gives a page of ten; filters given as an array are sent by index, and
    filters given as a text character by character (the second character
    here is U+00E9, two bytes of UTF-8). *)
Example forwarded_at_the_edges :
  forwarded (JObj [("limit", JNum 0); ("offset", JNum 5)])
  = [QSelect (JStr "*"); QRange (JNum 5) (EndNumber 14)]
  /\ forwarded (JObj [("filters", JArr [JStr "a"; JArr [JNum 1]])])
     = [QSelect (JStr "*"); QEq "0" (JStr "a"); QIn "1" [JNum 1]]
  /\ forwarded
       (JObj [("filters",
               JStr (String "a" (String (ascii_of_nat 195) (String (ascii_of_nat 169) "z"))))])
     = [QSelect (JStr "*"); QEq "0" (JStr "a");
        QEq "1" (JStr (String (ascii_of_nat 195) (String (ascii_of_nat 169) "")));
        QEq "2" (JStr "z")].
Proof. vm_compute. repeat split; reflexivity. Qed.

(** * The service on input outside its declared types *)

(** [null] for the options of a [select]: the read of [options.columns]
    throws inside the [try]; the error is returned and nothing is sent. *)
Example select_with_null_options :
  let first := select (gateway_rows invoice_1) "invoices" JNull (initial 0) in
  fst first = inr (failed "Cannot read properties of null (reading 'columns')")
  /\ gateway_calls (snd first) = [].
Proof. vm_compute. split; reflexivity. Qed.

(** [null] for the options of an [insert]: the rows are inserted, and then
    the read of [options.invalidateTags] throws; the insert is reported as
    failed. *)
Example insert_with_null_options :
  let first :=
    insert (gateway_rows invoice_1) "invoices" (Some (JObj [("id", JNum 1)])) JNull (initial 0) in
  fst first = inr (failed "Cannot read properties of null (reading 'invalidateTags')")
  /\ gateway_calls (snd first)
     = [FromTable "invoices" [QInsert (Some (JObj [("id", JNum 1)])); QReturning]].
Proof. vm_compute. split; reflexivity. Qed.

(** [null] for the options of an [upsert]: [options.onConflict] is read
    before the request is sent, so nothing is sent. *)
Example upsert_with_null_options :
  let first :=
    upsert (gateway_rows invoice_1) "invoices" (Some (JObj [("id", JNum 1)])) JNull (initial 0) in
  fst first = inr (failed "Cannot read properties of null (reading 'onConflict')")
  /\ gateway_calls (snd first) = [].
Proof. vm_compute. split; reflexivity. Qed.

(** A [ttl] of [null] is zero seconds, not the default: the entry is stored
    expired, and the same read goes to the gateway again. *)
Example select_with_null_ttl :
  let options := JObj [("cache", JObj [("ttl", JNull)])] in
  let first := select (gateway_rows invoice_1) "invoices" options (initial 0) in
  let second := select (gateway_rows invoice_1) "invoices" options (advance 1 (snd first)) in
  entry_expiresAt <$> cache (snd first) !! generateCacheKey "invoices" OpSelect options
  = Some 0
  /\ length (gateway_calls (snd second)) = 2%nat.
Proof. vm_compute. split; reflexivity. Qed.

(** A [ttl] of 1e13 seconds puts the expiry beyond the last valid date: the
    read that stores the entry succeeds, and the next one throws out of
    [select], which makes its lookup before the [try]. *)
Example select_with_far_expiry :
  let options := JObj [("cache", JObj [("ttl", JNum 10000000000000)])] in
  let first := select (gateway_rows invoice_1) "invoices" options (initial 0) in
  let second := select (gateway_rows invoice_1) "invoices" options (advance 1 (snd first)) in
  fst first = inr (succeeded invoice_1)
  /\ fst second = inl (ErrorObject "Invalid time value")
  /\ gateway_calls (snd second) = gateway_calls (snd first).
Proof. vm_compute. repeat split; reflexivity. Qed.

(** Inside a batch the same throw is caught by the batch. *)
Example batch_catches_the_lookup :
  let options := JObj [("cache", JObj [("ttl", JNum 10000000000000)])] in
  let read := {| operation := "select"; table := "invoices"; op_data := None;
                 op_filters := None; op_options := Some options |} in
  fst (batch (gateway_rows invoice_1) [read; read] (initial 0))
  = inr (failed "Invalid time value").
Proof. vm_compute. reflexivity. Qed.

(** [invalidateTags] given as a string: the tags of the entries are looked
    for inside the text, the entries found are removed, and then [join],
    which a string does not have, throws; the write is done and reported as
    failed. *)
Example insert_with_text_for_tags :
  let options := JObj [("invalidateTags", JStr "invoices,quotes")] in
  let first := perform (gateway_rows invoice_1) (insert_invoice options) cached_invoices in
  fst first = inr (failed "tags.join is not a function")
  /\ cache (snd first) !! generateCacheKey "invoices" OpSelect (JObj []) = None
  /\ length (gateway_calls (snd first)) = 1%nat.
Proof. vm_compute. repeat split; reflexivity. Qed.

(** * Further properties of the service *)
(** * Writes *)

Lemma eq_filters_equalities (fs : list (string * json)) (query : list BuilderCall) :
  eq_filters query fs = (query ++ equalities fs)%list.
Proof.
  unfold eq_filters, equalities, call. revert query.
  induction fs as [|kv fs IH]; intros query; cbn [foldl List.map].
  - now rewrite app_nil_r.
  - rewrite IH. now rewrite <- app_assoc.
Qed.

Lemma filter_entries_usable (filters : option json) (w : World) :
  filter_entries filters w =
    match usable_filters filters with
    | Some fs => (inr fs, w)
    | None => (inl (ErrorObject "Cannot convert undefined or null to object"), w)
    end.
Proof. destruct filters as [[]|]; reflexivity. Qed.

Ltac run_body :=
  unfold try_catch, bind, ret; cbn beta iota; rewrite ?await_run;
  match goal with
  | |- context [outcome ?reply] => destruct (outcome reply) as [[?d|?message]|?e]
  end;
  cbn [fst snd];
  try match goal with
    | |- context [invalidate_related ?o ?w] =>
        destruct (invalidate_related o w) as [[?|[]] ?]
    end;
  cbn [fst snd]; rewrite ?logger_run; cbn [fst snd]; eauto.

(** The calls of [upsert], for options that are not [null]. *)
Lemma upsert_chain (p : option json) (o : json) :
  call QReturning
    (match when_truthy (get_field "onConflict" o) with
     | Some target => call (QOnConflict target) [QUpsert p]
     | None => [QUpsert p]
     end)
  = ([QUpsert p]
     ++ match when_truthy (get_field "onConflict" o) with
        | Some target => [QOnConflict target]
        | None => []
        end
     ++ [QReturning])%list.
Proof. unfold call. destruct (when_truthy _); reflexivity. Qed.

(** A write whose request can be built: one await, then one logger call. *)
Lemma perform_run (gateway : list Request -> Request -> Reply) (c : WriteCall)
    (rq : Request) (w : World) :
  write_request c = Some rq ->
  exists entry,
    perform gateway c w =
      (inr (write_result gateway c rq w),
       set_logged (logged (settled gateway c rq w) ++ [entry]) (settled gateway c rq w)).
Proof.
  unfold settled, write_result.
  destruct c as [t p o|t p f o|t f o|t p o]; cbn [perform write_request write_options write_success].
  - intros [= Hrq]. unfold insert. rewrite Hrq. run_body.
  - destruct (usable_filters f) as [fs|] eqn:Hf; [|discriminate].
    intros H. simpl in H. injection H as Hrq.
    unfold update, bind at 1, try_catch. rewrite filter_entries_usable, Hf.
    rewrite eq_filters_equalities. unfold call. rewrite <- app_assoc. cbn [app].
    rewrite Hrq.
    fold (@try_catch (QueryResult rows)). run_body.
  - destruct (usable_filters f) as [fs|] eqn:Hf; [|discriminate].
    intros H. simpl in H. injection H as Hrq.
    unfold delete_, bind at 1, try_catch. rewrite filter_entries_usable, Hf.
    rewrite eq_filters_equalities. cbn [app]. rewrite Hrq.
    fold (@try_catch (QueryResult rows)). run_body.
  - intros Hrq.
    assert (Hread : property "onConflict" o w = (inr (get_field "onConflict" o), w))
      by (destruct o; try discriminate Hrq; reflexivity).
    assert (Hrq' : FromTable t
                     ([QUpsert p]
                      ++ match when_truthy (get_field "onConflict" o) with
                         | Some target => [QOnConflict target]
                         | None => []
                         end
                      ++ [QReturning])%list = rq)
      by (destruct o; try discriminate Hrq; injection Hrq as Hrq; exact Hrq).
    unfold upsert, bind at 1, try_catch. rewrite Hread.
    rewrite upsert_chain, Hrq'.
    fold (@try_catch (QueryResult rows)). run_body.
Qed.

(** A write that sends nothing: [Object.entries] throws on missing filters,
    and [upsert] cannot read [onConflict] from [null], before any request is
    built; the catch clause answers. *)
Lemma perform_without_request (gateway : list Request -> Request -> Reply) (c : WriteCall)
    (w : World) :
  write_request c = None ->
  exists entry message,
    perform gateway c w = (inr (failed message), set_logged (logged w ++ [entry]) w).
Proof.
  destruct c as [t p o|t p f o|t f o|t p o]; cbn [perform write_request]; try discriminate.
  - destruct (usable_filters f) as [fs|] eqn:Hf; [discriminate|]. intros _.
    unfold update, bind at 1, try_catch. rewrite filter_entries_usable, Hf.
    cbn. eauto.
  - destruct (usable_filters f) as [fs|] eqn:Hf; [discriminate|]. intros _.
    unfold delete_, bind at 1, try_catch. rewrite filter_entries_usable, Hf.
    cbn. eauto.
  - destruct o; try discriminate. intros _. cbn. eauto.
Qed.

Lemma settled_frame (gateway : list Request -> Request -> Reply) (c : WriteCall)
    (rq : Request) (w : World) :
  let w' := settled gateway c rq w in
  isCacheEnabled w' = isCacheEnabled w /\ defaultTTL w' = defaultTTL w
  /\ clock w' = clock w + Z.of_N (latency (gateway (gateway_calls w) rq))
  /\ gateway_calls w' = (gateway_calls w ++ [rq])%list.
Proof.
  unfold settled.
  destruct (outcome (gateway (gateway_calls w) rq)) as [[d|message]|e]; cbn; auto.
  destruct (invalidate_related_frame (write_options c) (awaited gateway rq w))
    as (-> & -> & -> & ->). cbn. auto.
Qed.

Lemma settled_lookup (gateway : list Request -> Request -> Reply) (c : WriteCall)
    (rq : Request) (key : string) (w : World) :
  cache (settled gateway c rq w) !! key =
    match outcome (gateway (gateway_calls w) rq) with
    | Responds (Rows _) =>
        if isCacheEnabled w then
          match cache w !! key with
          | Some entry => if related_hit (write_options c) entry then None else Some entry
          | None => None
          end
        else cache w !! key
    | _ => cache w !! key
    end.
Proof.
  unfold settled.
  destruct (outcome (gateway (gateway_calls w) rq)) as [[d|message]|e]; try reflexivity.
  exact (invalidate_related_lookup (write_options c) key (awaited gateway rq w)).
Qed.

(** The tags a write names, as an array, are the tags its invalidation
    looks for. *)
Lemma related_hit_tags (options : json) (tags : list string) (entry : CacheEntry) :
  get_strings "invalidateTags" options = Some tags ->
  related_hit options entry = tags_hit tags entry.
Proof.
  unfold get_strings, related_hit.
  destruct (get_field "invalidateTags" options) as [[| | | |items|]|]; try discriminate.
  intros [= <-]. reflexivity.
Qed.

Lemma tags_usable_tags (options : json) (tags : list string) :
  get_strings "invalidateTags" options = Some tags -> tags_usable options.
Proof.
  unfold get_strings, tags_usable. intros H. split.
  - intros ->. discriminate H.
  - destruct (get_field "invalidateTags" options) as [[| | | |items|]|]; try discriminate.
    exact I.
Qed.

Lemma write_result_accepted (gateway : list Request -> Request -> Reply) (c : WriteCall)
    (rq : Request) (d : rows) (w : World) :
  outcome (gateway (gateway_calls w) rq) = Responds (Rows d) ->
  tags_usable (write_options c) ->
  write_result gateway c rq w = write_success c d.
Proof.
  intros Hreply Htags. unfold write_result. rewrite Hreply.
  now rewrite (invalidate_related_returns (write_options c) _ Htags).
Qed.

(** X15: every write that gets as far as its request sends exactly one, whatever
    the cache holds and whether caching is on or off, and returns by the
    reply: the failure's message, or the rows (nothing, for [delete]) when
    the invalidation that follows an accepted write runs to its end.  With
    [null] for options it does not: the write is done, and reported as
    failed. *)
Theorem write_sends_exactly_one_request
    (gateway : list Request -> Request -> Reply) (c : WriteCall) (rq : Request) (w : World) :
  write_request c = Some rq ->
  gateway_calls (snd (perform gateway c w)) = (gateway_calls w ++ [rq])%list
  /\ match outcome (gateway (gateway_calls w) rq) with
     | Responds (Rows d) =>
         (tags_usable (write_options c) ->
          fst (perform gateway c w) = inr (write_success c d))
         /\ (write_options c = JNull ->
             exists message, fst (perform gateway c w) = inr (failed message))
     | Responds (Failure message) => fst (perform gateway c w) = inr (failed message)
     | Throws e => fst (perform gateway c w) = inr (failed (exn_message e))
     end.
Proof.
  intros Hrq. destruct (perform_run gateway c rq w Hrq) as [entry ->]. cbn [fst snd].
  split.
  - change (gateway_calls (settled gateway c rq w) = (gateway_calls w ++ [rq])%list).
    apply settled_frame.
  - destruct (outcome (gateway (gateway_calls w) rq)) as [[d|message]|e] eqn:Hreply.
    + split.
      * intros Htags. now rewrite (write_result_accepted gateway c rq d w Hreply Htags).
      * intros Hnull. unfold write_result. rewrite Hreply, Hnull. cbn. eauto.
    + unfold write_result. now rewrite Hreply.
    + unfold write_result. now rewrite Hreply.
Qed.

(** X16: [update] and [delete] called without filters (as [batch] does for an
    operation that names none) send nothing: they return an error without
    data and leave the cache and the gateway alone. *)
Theorem write_without_filters_sends_nothing
    (gateway : list Request -> Request -> Reply)
    (table : string) (payload filters : option json) (options : json) (w : World) :
  filters = None \/ filters = Some JNull ->
  (exists r, fst (update gateway table payload filters options w) = inr r
             /\ is_Some (error r) /\ data r = None)
  /\ (exists r, fst (delete_ gateway table filters options w) = inr r
                /\ is_Some (error r) /\ data r = None)
  /\ gateway_calls (snd (update gateway table payload filters options w)) = gateway_calls w
  /\ gateway_calls (snd (delete_ gateway table filters options w)) = gateway_calls w
  /\ cache (snd (update gateway table payload filters options w)) = cache w
  /\ cache (snd (delete_ gateway table filters options w)) = cache w.
Proof.
  intros Hf.
  assert (Hu : write_request (WUpdate table payload filters options) = None)
    by (destruct Hf as [-> | ->]; reflexivity).
  assert (Hd : write_request (WDelete table filters options) = None)
    by (destruct Hf as [-> | ->]; reflexivity).
  destruct (perform_without_request gateway _ w Hu) as (e1 & m1 & H1).
  destruct (perform_without_request gateway _ w Hd) as (e2 & m2 & H2).
  cbn [perform] in H1, H2. rewrite H1, H2. cbn.
  repeat split; eauto.
Qed.

(** X17: a write that fails, by an error reply or a thrown exception, returns
    the failure's message and leaves every cache entry in place, whatever
    tags it was asked to invalidate. *)
Theorem failed_write_invalidates_nothing
    (gateway : list Request -> Request -> Reply) (c : WriteCall) (rq : Request)
    (message : string) (w : World) :
  write_request c = Some rq ->
  fails_with (outcome (gateway (gateway_calls w) rq)) message ->
  fst (perform gateway c w) = inr (failed message)
  /\ cache (snd (perform gateway c w)) = cache w.
Proof.
  intros Hrq Hfail. destruct (perform_run gateway c rq w Hrq) as [entry ->]. cbn [fst snd].
  unfold write_result, settled.
  destruct Hfail as [-> | [-> | (v & -> & ->)]]; split; reflexivity.
Qed.

(** X18: a write that the gateway accepts, with [invalidateTags] given and
    caching on, removes exactly the entries that carry one of those tags (of
    whatever table) and keeps the others; a read whose cached entry carried
    such a tag goes to the gateway next time (its options being other than
    [null], with which a [select] never gets to its request). *)
Theorem accepted_write_invalidates_its_tags
    (gateway : list Request -> Request -> Reply) (c : WriteCall) (rq : Request)
    (d : rows) (tags : list string) (w : World) :
  write_request c = Some rq ->
  outcome (gateway (gateway_calls w) rq) = Responds (Rows d) ->
  write_tags c = Some tags ->
  isCacheEnabled w = true ->
  let after := snd (perform gateway c w) in
  fst (perform gateway c w) = inr (write_success c d)
  /\ (forall key entry,
        cache w !! key = Some entry ->
        (exists t, t ∈ entry_tags entry /\ t ∈ tags) ->
        cache after !! key = None)
  /\ (forall key entry,
        cache w !! key = Some entry ->
        ~ (exists t, t ∈ entry_tags entry /\ t ∈ tags) ->
        cache after !! key = Some entry)
  /\ (forall key, cache w !! key = None -> cache after !! key = None)
  /\ (forall table options entry,
        options <> JNull ->
        cache w !! generateCacheKey table OpSelect options = Some entry ->
        (exists t, t ∈ entry_tags entry /\ t ∈ tags) ->
        gateway_calls (snd (select gateway table options after))
        = (gateway_calls after ++ [FromTable table (select_chain options)])%list).
Proof.
  intros Hrq Hreply Htags He after.
  destruct (perform_run gateway c rq w Hrq) as [entry Hrun].
  assert (Hlook : forall key,
             cache after !! key =
               match cache w !! key with
               | Some entry => if tags_hit tags entry then None else Some entry
               | None => None
               end).
  { intros key. unfold after. rewrite Hrun. cbn [snd].
    change (cache (settled gateway c rq w) !! key = match cache w !! key with
                                                   | Some entry => if tags_hit tags entry then None else Some entry
                                                   | None => None
                                                   end).
    rewrite settled_lookup, Hreply, He.
    destruct (cache w !! key) as [e|]; [|reflexivity].
    now rewrite (related_hit_tags (write_options c) tags e Htags). }
  assert (Hgone : forall key entry,
             cache w !! key = Some entry ->
             (exists t, t ∈ entry_tags entry /\ t ∈ tags) -> cache after !! key = None).
  { intros key e Hk Hhit. rewrite Hlook, Hk.
    apply tags_hit_spec in Hhit. now rewrite Hhit. }
  split; [|split; [exact Hgone|split; [|split]]].
  - rewrite Hrun. cbn [fst]. f_equal.
    apply (write_result_accepted gateway c rq d w Hreply).
    exact (tags_usable_tags (write_options c) tags Htags).
  - intros key e Hk Hno. rewrite Hlook, Hk.
    destruct (tags_hit tags e) eqn:Hhit; [|reflexivity].
    apply tags_hit_spec in Hhit. contradiction.
  - intros key Hk. now rewrite Hlook, Hk.
  - intros table options e Hnull Hk Hhit.
    assert (Hon : isCacheEnabled after = true).
    { unfold after. rewrite Hrun. cbn [snd].
      change (isCacheEnabled (settled gateway c rq w) = true).
      destruct (settled_frame gateway c rq w) as (-> & _). exact He. }
    apply (select_miss_calls gateway table options after
             (set_cache (delete (generateCacheKey table OpSelect options) (cache after)) after)).
    + exact Hnull.
    + apply getFromCache_absent; [exact Hon|]. now apply (Hgone _ e).
    + reflexivity.
Qed.

Lemma perform_cache_lookup (gateway : list Request -> Request -> Reply) (c : WriteCall)
    (key : string) (w : World) :
  cache (snd (perform gateway c w)) !! key = cache w !! key
  \/ (cache (snd (perform gateway c w)) !! key = None
      /\ isCacheEnabled w = true
      /\ exists entry,
           cache w !! key = Some entry
           /\ related_hit (write_options c) entry = true).
Proof.
  destruct (write_request c) as [rq|] eqn:Hrq.
  - destruct (perform_run gateway c rq w Hrq) as [entry ->]. cbn [snd].
    change (cache (settled gateway c rq w) !! key = cache w !! key
            \/ (cache (settled gateway c rq w) !! key = None
                /\ isCacheEnabled w = true
                /\ exists entry,
                     cache w !! key = Some entry
                     /\ related_hit (write_options c) entry = true)).
    rewrite settled_lookup.
    destruct (outcome (gateway (gateway_calls w) rq)) as [[d|message]|e]; auto.
    destruct (isCacheEnabled w); auto.
    destruct (cache w !! key) as [e|]; auto.
    destruct (related_hit (write_options c) e) eqn:Hhit; eauto 10.
  - destruct (perform_without_request gateway c w Hrq) as (entry & message & ->). auto.
Qed.

Lemma perform_frame (gateway : list Request -> Request -> Reply) (c : WriteCall) (w : World) :
  let w' := snd (perform gateway c w) in
  isCacheEnabled w' = isCacheEnabled w /\ defaultTTL w' = defaultTTL w
  /\ clock w <= clock w'.
Proof.
  destruct (write_request c) as [rq|] eqn:Hrq.
  - destruct (perform_run gateway c rq w Hrq) as [entry ->]. cbn [snd].
    destruct (settled_frame gateway c rq w) as (He & Hd & Hc & _).
    change (isCacheEnabled (settled gateway c rq w) = isCacheEnabled w
            /\ defaultTTL (settled gateway c rq w) = defaultTTL w
            /\ clock w <= clock (settled gateway c rq w)).
    rewrite He, Hd, Hc. repeat split. lia.
  - destruct (perform_without_request gateway c w Hrq) as (entry & message & ->).
    cbn. repeat split. lia.
Qed.

(** X19: no write puts anything into the cache or changes an entry: whatever
    is cached after a write was cached, with the same content, before it. *)
Theorem writes_never_add_entries
    (gateway : list Request -> Request -> Reply) (c : WriteCall) (key : string)
    (entry : CacheEntry) (w : World) :
  cache (snd (perform gateway c w)) !! key = Some entry ->
  cache w !! key = Some entry.
Proof.
  intros H. destruct (perform_cache_lookup gateway c key w) as [Heq|[Hnone _]]; congruence.
Qed.

(** X20: invalidation goes by tags only, never by table.  A cached read stays
    cached across every write that names none of its tags, a write to the
    read's own table included, and is served, unchanged and without a
    request, for as long as its TTL lasts.  The write's [invalidateTags] is
    anything but a string, in which the tags would be searched as text; the
    dates of the entry are valid dates, as a hit needs them. *)
Theorem reads_outlive_untagged_writes
    (gateway : list Request -> Request -> Reply) (c : WriteCall)
    (table : string) (options : json) (entry : CacheEntry) (w : World) :
  let key := generateCacheKey table OpSelect options in
  let after := snd (perform gateway c w) in
  isCacheEnabled w = true ->
  cache w !! key = Some entry ->
  (forall tags t, write_tags c = Some tags -> t ∈ entry_tags entry -> t ∉ tags) ->
  (forall s, get_field "invalidateTags" (write_options c) <> Some (JStr s)) ->
  clock after < entry_expiresAt entry ->
  dates_in_range w entry ->
  exists r, select gateway table options after = (inr r, after)
            /\ data r = Some (entry_data entry) /\ fromCache r = true.
Proof.
  intros key after He Hk Hno Htext Ht Hdates.
  assert (Hmiss : related_hit (write_options c) entry = false).
  { unfold related_hit.
    destruct (get_field "invalidateTags" (write_options c)) as [v|] eqn:Hv; [|reflexivity].
    unfold when_truthy. destruct (truthy (Some v)); [|reflexivity].
    destruct v as [| | |s|items|]; try reflexivity.
    - now destruct (Htext s).
    - cbn [value_hit]. destruct (tags_hit (string_items items) entry) eqn:Hhit; [|reflexivity].
      apply tags_hit_spec in Hhit as (t & Hin & Hin').
      destruct (Hno (string_items items) t); [|assumption|assumption].
      unfold write_tags, get_strings. now rewrite Hv. }
  assert (Hkept : cache after !! key = Some entry).
  { destruct (perform_cache_lookup gateway c key w) as [Heq|(_ & _ & e & Hke & Hhit)].
    - unfold after. now rewrite Heq.
    - assert (e = entry) as -> by congruence. congruence. }
  destruct (perform_frame gateway c w) as (He' & Hd' & _).
  fold after in He', Hd'.
  eexists. split.
  - apply select_on_hit. apply (getFromCache_hit _ entry); [|exact Hkept|exact Ht|].
    + now rewrite He'.
    + unfold dates_in_range. rewrite Hd'. exact Hdates.
  - cbn. auto.
Qed.

(** * The periodic sweep *)

Lemma cleanup_loop_None (now : Z) (l : list (string * CacheEntry))
    (m : gmap string CacheEntry) (n : Z) (key : string) :
  m !! key = None -> fst (foldl (cleanup_step now) (m, n) l) !! key = None.
Proof.
  revert m n. induction l as [|[k e] l IH]; intros m n Hm; [exact Hm|].
  cbn [foldl]. unfold cleanup_step at 2. cbn [fst snd].
  destruct (now >=? entry_expiresAt e)%Z.
  - apply IH. rewrite lookup_delete_None. auto.
  - apply IH, Hm.
Qed.

Lemma cleanup_loop_removes (now : Z) (l : list (string * CacheEntry))
    (m : gmap string CacheEntry) (n : Z) (key : string) (entry : CacheEntry) :
  (key, entry) ∈ l -> entry_expiresAt entry <= now ->
  fst (foldl (cleanup_step now) (m, n) l) !! key = None.
Proof.
  revert m n. induction l as [|[k e] l IH]; intros m n Hin Hexp.
  - now apply elem_of_nil in Hin.
  - cbn [foldl]. unfold cleanup_step at 2. cbn [fst snd].
    apply elem_of_cons in Hin as [[= <- <-]|Hin].
    + destruct (Z.geb_spec now (entry_expiresAt entry)); [|lia].
      apply cleanup_loop_None, lookup_delete_eq.
    + destruct (now >=? entry_expiresAt e)%Z; now apply IH.
Qed.

Lemma cleanup_loop_keeps (now : Z) (l : list (string * CacheEntry))
    (m : gmap string CacheEntry) (n : Z) (key : string) :
  (forall entry, (key, entry) ∈ l -> now < entry_expiresAt entry) ->
  fst (foldl (cleanup_step now) (m, n) l) !! key = m !! key.
Proof.
  revert m n. induction l as [|[k e] l IH]; intros m n Hall; [reflexivity|].
  cbn [foldl]. unfold cleanup_step at 2. cbn [fst snd].
  assert (Hrest : forall entry, (key, entry) ∈ l -> now < entry_expiresAt entry).
  { intros entry Hin. apply Hall. now apply elem_of_cons; right. }
  destruct (Z.geb_spec now (entry_expiresAt e)) as [Hge|Hlt].
  - rewrite IH by assumption. apply lookup_delete_ne. intros <-.
    specialize (Hall e). rewrite elem_of_cons in Hall. specialize (Hall (or_introl eq_refl)). lia.
  - now apply IH.
Qed.

Lemma cleanup_loop_count (now : Z) (l : list (string * CacheEntry))
    (m : gmap string CacheEntry) (n : Z) :
  NoDup (l.*1) ->
  (forall k e, (k, e) ∈ l -> m !! k = Some e) ->
  snd (foldl (cleanup_step now) (m, n) l)
  = n + (Z.of_nat (size m) - Z.of_nat (size (fst (foldl (cleanup_step now) (m, n) l)))).
Proof.
  revert m n. induction l as [|[k e] l IH]; intros m n Hnd Hin.
  - cbn. lia.
  - cbn [foldl]. unfold cleanup_step at 2 4. cbn [fst snd].
    rewrite fmap_cons in Hnd. apply NoDup_cons in Hnd as [Hk Hnd]. cbn in Hk.
    assert (Hke : m !! k = Some e) by (apply Hin, elem_of_cons; now left).
    destruct (now >=? entry_expiresAt e)%Z.
    + rewrite IH; [|assumption|].
      * rewrite (map_size_delete_Some k m) by eauto.
        assert (0 < size m)%nat.
        { destruct (decide (size m = 0%nat)) as [Hz|]; [|lia].
          apply map_size_empty_inv in Hz. rewrite Hz, lookup_empty in Hke. discriminate. }
        lia.
      * intros k' e' Hin'. rewrite lookup_delete_ne.
        -- apply Hin, elem_of_cons. now right.
        -- intros <-. apply Hk. apply list_elem_of_fmap. exists (k, e'). auto.
    + apply IH; [assumption|]. intros k' e' Hin'. apply Hin, elem_of_cons. now right.
Qed.

Lemma cacheCleanup_run (w : World) :
  let loop := foldl (cleanup_step (clock w)) (cache w, 0) (map_to_list (cache w)) in
  cacheCleanup w =
    if (snd loop >? 0)%Z then
      logger LogDebug
        ("Cache cleanup: " +:+ number_to_string (snd loop) +:+ " expired entries removed")
        None (set_cache (fst loop) w)
    else (inr tt, set_cache (fst loop) w).
Proof. intros loop. unfold cacheCleanup. fold loop. destruct loop. reflexivity. Qed.

Lemma cacheCleanup_cache (w : World) :
  cache (snd (cacheCleanup w))
  = fst (foldl (cleanup_step (clock w)) (cache w, 0) (map_to_list (cache w))).
Proof. rewrite cacheCleanup_run. destruct (_ >? 0)%Z; reflexivity. Qed.

Lemma cacheCleanup_lookup (key : string) (w : World) :
  cache (snd (cacheCleanup w)) !! key =
    match cache w !! key with
    | Some entry => if (clock w <? entry_expiresAt entry)%Z then Some entry else None
    | None => None
    end.
Proof.
  rewrite cacheCleanup_cache.
  destruct (cache w !! key) as [entry|] eqn:Hk.
  - destruct (Z.ltb_spec (clock w) (entry_expiresAt entry)).
    + rewrite cleanup_loop_keeps; [assumption|].
      intros e' Hin. apply elem_of_map_to_list in Hin. congruence.
    + apply cleanup_loop_removes with (entry := entry); [|assumption].
      now apply elem_of_map_to_list.
  - now apply cleanup_loop_None.
Qed.

(** X9: the sweep removes exactly the entries whose [expiresAt] has been
    reached and keeps every other entry as it is, with caching on or off; it
    reports the number removed to the logger, and says nothing when it
    removed none. *)
Theorem sweep_removes_exactly_expired (w : World) :
  let w' := snd (cacheCleanup w) in
  let removed := Z.of_nat (size (cache w)) - Z.of_nat (size (cache w')) in
  (forall key entry,
      cache w !! key = Some entry -> entry_expiresAt entry <= clock w ->
      cache w' !! key = None)
  /\ (forall key entry,
        cache w !! key = Some entry -> clock w < entry_expiresAt entry ->
        cache w' !! key = Some entry)
  /\ (forall key, cache w !! key = None -> cache w' !! key = None)
  /\ 0 <= removed
  /\ logged w' =
       if (removed >? 0)%Z then
         (logged w ++
          [ {| log_level := LogDebug;
               log_message :=
                 "Cache cleanup: " +:+ number_to_string removed +:+ " expired entries removed";
               log_context := "database"; log_data := None |} ])%list
       else logged w.
Proof.
  intros w' removed.
  assert (Hl : forall key, cache w' !! key =
                 match cache w !! key with
                 | Some entry => if (clock w <? entry_expiresAt entry)%Z then Some entry else None
                 | None => None
                 end) by (intros key; apply cacheCleanup_lookup).
  assert (Hcount : snd (foldl (cleanup_step (clock w)) (cache w, 0) (map_to_list (cache w)))
                   = removed).
  { rewrite cleanup_loop_count.
    - unfold removed, w'. rewrite cacheCleanup_cache. lia.
    - apply NoDup_fst_map_to_list.
    - intros k e. apply elem_of_map_to_list. }
  repeat apply conj.
  - intros key entry Hk Hexp. rewrite Hl, Hk.
    destruct (Z.ltb_spec (clock w) (entry_expiresAt entry)); [lia|reflexivity].
  - intros key entry Hk Hexp. rewrite Hl, Hk.
    destruct (Z.ltb_spec (clock w) (entry_expiresAt entry)); [reflexivity|lia].
  - intros key Hk. now rewrite Hl, Hk.
  - unfold removed.
    assert (size (cache w') <= size (cache w))%nat; [|lia].
    apply map_subseteq_size, map_subseteq_spec. intros k e Hke.
    rewrite Hl in Hke. destruct (cache w !! k) as [e'|]; [|discriminate].
    destruct (clock w <? entry_expiresAt e')%Z; congruence.
  - unfold w'. rewrite cacheCleanup_run, Hcount.
    destruct (removed >? 0)%Z; reflexivity.
Qed.

Lemma cacheCleanup_frame (w : World) :
  let w' := snd (cacheCleanup w) in
  isCacheEnabled w' = isCacheEnabled w /\ defaultTTL w' = defaultTTL w
  /\ clock w' = clock w /\ gateway_calls w' = gateway_calls w.
Proof. rewrite cacheCleanup_run. destruct (_ >? 0)%Z; cbn; auto. Qed.

(** X10: the sweep is invisible to reads: at any later moment a cache lookup
    answers the same whether or not the sweep has run in between. *)
Theorem sweep_is_invisible_to_reads (key : string) (elapsed : Z) (w : World) :
  0 <= elapsed ->
  fst (getFromCache key (advance elapsed (snd (cacheCleanup w))))
  = fst (getFromCache key (advance elapsed w)).
Proof.
  intros Hel. destruct (cacheCleanup_frame w) as (He & Hd & Hc & _).
  pose proof (cacheCleanup_lookup key w) as Hl.
  destruct (cache w !! key) as [entry|] eqn:Hk.
  - destruct (Z.ltb_spec (clock w) (entry_expiresAt entry)) as [Hlt|Hge].
    + apply getFromCache_answer_congr; cbn; try congruence.
    + destruct (isCacheEnabled w) eqn:Hen.
      * rewrite (getFromCache_absent key (advance elapsed (snd (cacheCleanup w))));
          [|exact He|].
        -- rewrite (getFromCache_expired key entry (advance elapsed w));
             [reflexivity|exact Hen|exact Hk|cbn; lia].
        -- change (cache (snd (cacheCleanup w)) !! key = None). rewrite Hl.
           destruct (Z.ltb_spec (clock w) (entry_expiresAt entry)); [lia|reflexivity].
      * rewrite !getFromCache_disabled; [reflexivity|exact Hen|exact He].
  - apply getFromCache_answer_congr; cbn; try congruence.
Qed.

(** * More on the cache store *)

(** X4: cache keys are independent: storing under one key changes no lookup
    of another key, and a lookup, which may evict its own key, leaves every
    other key's entry in place. *)
Theorem cache_keys_are_independent
    (key other : string) (value : rows) (ttl : option Z) (tags : list string) (w : World) :
  key <> other ->
  fst (getFromCache other (snd (setCache key value ttl tags w))) = fst (getFromCache other w)
  /\ cache (snd (getFromCache key w)) !! other = cache w !! other.
Proof.
  intros Hne. split.
  - destruct (setCache_frame key value ttl tags w) as (He & Hd & Hc & _).
    apply getFromCache_answer_congr; try assumption.
    destruct (isCacheEnabled w) eqn:Hen.
    + destruct (setCache_enabled key value ttl tags w Hen) as (_ & -> & _).
      now apply lookup_insert_ne.
    + now rewrite setCache_disabled.
  - unfold getFromCache, isCacheValid.
    destruct (negb (isCacheEnabled w)); [reflexivity|].
    destruct (cache w !! key) as [entry|];
      [destruct (clock w <? entry_expiresAt entry)%Z;
       [destruct (toISOString _); [|destruct (toISOString _)]|]|]; cbn;
      try reflexivity; now apply lookup_delete_ne.
Qed.

(** X3: last write wins.  Storing twice under one key leaves exactly what the
    second store alone would have left: the first value, its expiry and its
    tags are gone, and the number of entries does not grow. *)
Theorem setCache_last_write_wins
    (key : string) (v1 v2 : rows) (ttl1 ttl2 : option Z) (tags1 tags2 : list string)
    (w : World) :
  isCacheEnabled w = true ->
  let once := snd (setCache key v1 ttl1 tags1 w) in
  let twice := snd (setCache key v2 ttl2 tags2 once) in
  cache twice = cache (snd (setCache key v2 ttl2 tags2 w))
  /\ size (cache twice) = size (cache once)
  /\ cache twice !! key =
       Some {| entry_data := v2;
               entry_expiresAt :=
                 clock w + match ttl2 with Some t => t | None => defaultTTL w end * 1000;
               entry_tags := tags2 |}.
Proof.
  intros He once twice.
  destruct (setCache_enabled key v1 ttl1 tags1 w He) as (_ & Hc1 & He1 & Hd1 & Hk1 & _).
  fold once in Hc1, He1, Hd1, Hk1.
  destruct (setCache_enabled key v2 ttl2 tags2 once He1) as (_ & Hc2 & _).
  fold twice in Hc2.
  destruct (setCache_enabled key v2 ttl2 tags2 w He) as (_ & Hc & _).
  rewrite Hc2, Hc, Hc1, Hk1, Hd1. repeat split.
  - apply insert_insert_eq.
  - rewrite map_size_insert_Some; [reflexivity|]. rewrite lookup_insert_eq. eauto.
  - apply lookup_insert_eq.
Qed.

(** X5: entries only age.  If a lookup hits at some moment, the same lookup
    on the same state (the same entries, flag and default TTL) hit, with the
    same result, at every earlier moment. *)
Theorem hit_later_implies_hit_now
    (key : string) (elapsed : Z) (r : QueryResult rows) (w : World) :
  0 <= elapsed ->
  fst (getFromCache key (advance elapsed w)) = inr (Some r) ->
  fst (getFromCache key w) = inr (Some r).
Proof.
  intros Hel H.
  destruct (getFromCache key (advance elapsed w)) as [a w'] eqn:Hg. cbn in H. subst a.
  apply getFromCache_Some_inv in Hg as (_ & He & entry & Hk & Ht & Hdates & ->).
  rewrite (getFromCache_hit key entry w He Hk); [reflexivity| |exact Hdates].
  cbn in Ht. lia.
Qed.

Lemma read_reaches_gateway (gateway : list Request -> Request -> Reply)
    (table : string) (options : json) (w : World) :
  options <> JNull ->
  fst (getFromCache (generateCacheKey table OpSelect options) w) = inr None ->
  gateway_calls (snd (select gateway table options w))
  = (gateway_calls w ++ [FromTable table (select_chain options)])%list.
Proof.
  intros Hnull Hmiss.
  destruct (getFromCache (generateCacheKey table OpSelect options) w) as [a w1] eqn:Hg.
  cbn in Hmiss. subst a.
  apply (select_miss_calls gateway table options w w1 Hnull Hg).
  apply getFromCache_None_inv in Hg as [[_ ->]|[_ ->]]; reflexivity.
Qed.

Lemma raw_reaches_gateway (gateway : list Request -> Request -> Reply)
    (query : string) (params : list json) (options : json) (w : World) :
  fst (getFromCache (generateCacheKey "raw" OpSelect (raw_params query params)) w)
    = inr None ->
  gateway_calls (snd (rawQuery gateway query params options w))
  = (gateway_calls w ++ [Rpc "execute_sql" (raw_params query params)])%list.
Proof.
  intros Hmiss.
  destruct (getFromCache (generateCacheKey "raw" OpSelect (raw_params query params)) w)
    as [a w1] eqn:Hg.
  cbn in Hmiss. subst a.
  apply (rawQuery_miss_calls gateway query params options w w1 Hg).
  apply getFromCache_None_inv in Hg as [[_ ->]|[_ ->]]; reflexivity.
Qed.

(** X8: [clearCache] empties the cache whether caching is on or off (unlike
    invalidation by tags, it does not look at the flag): afterwards every
    lookup misses and every read that can build its request ([select] needs
    options other than [null] for that) reaches the gateway, also once
    caching has been switched back on. *)
Theorem clearCache_forgets_everything
    (gateway : list Request -> Request -> Reply) (enabled : bool) (elapsed : Z) (w : World) :
  let cleared := snd (clearCache w) in
  let later := advance elapsed (snd (setCacheEnabled enabled cleared)) in
  cache cleared = ∅
  /\ (forall key, fst (getFromCache key later) = inr None)
  /\ (forall table options,
        options <> JNull ->
        gateway_calls (snd (select gateway table options later))
        = (gateway_calls w ++ [FromTable table (select_chain options)])%list)
  /\ (forall query params options,
        gateway_calls (snd (rawQuery gateway query params options later))
        = (gateway_calls w ++ [Rpc "execute_sql" (raw_params query params)])%list).
Proof.
  intros cleared later.
  assert (Hmiss : forall key, fst (getFromCache key later) = inr None).
  { intros key. destruct enabled.
    - rewrite getFromCache_absent; [reflexivity|reflexivity|]. cbn. apply lookup_empty.
    - now rewrite getFromCache_disabled. }
  repeat apply conj; [reflexivity|exact Hmiss| |].
  - intros table options Hnull. now rewrite read_reaches_gateway.
  - intros query params options. now rewrite raw_reaches_gateway.
Qed.

(** X11: with caching off a read does not touch the cache, cache directive or
    not: with options other than [null] it sends its one request, returns
    the reply with [fromCache = false], and leaves every entry where it
    was. *)
Theorem disabled_reads_bypass_the_cache
    (gateway : list Request -> Request -> Reply) (table : string) (options : json)
    (w : World) :
  isCacheEnabled w = false ->
  options <> JNull ->
  let rq := FromTable table (select_chain options) in
  let after := snd (select gateway table options w) in
  cache after = cache w
  /\ gateway_calls after = (gateway_calls w ++ [rq])%list
  /\ fst (select gateway table options w) =
       inr match outcome (gateway (gateway_calls w) rq) with
           | Responds (Rows d) => succeeded d
           | Responds (Failure message) => failed message
           | Throws e => failed (exn_message e)
           end.
Proof.
  intros He Hnull rq after.
  pose proof (getFromCache_disabled (generateCacheKey table OpSelect options) w He) as Hg.
  subst after. rewrite (select_on_miss gateway table options w w Hnull Hg). fold rq.
  destruct (outcome (gateway (gateway_calls w) rq)) as [[d|message]|e]; cbn [fst snd];
    rewrite logger_run; cbn [snd]; try (repeat split; reflexivity).
  assert (Hc : cache_result (generateCacheKey table OpSelect options) d
                 (get_field "cache" options) (awaited gateway rq w)
               = (inr tt, awaited gateway rq w)).
  { unfold cache_result. destruct (get_field "cache" options) as [c|]; [|reflexivity].
    destruct (truthy (Some c)); [|reflexivity]. now apply setCache_disabled. }
  rewrite Hc. repeat split; reflexivity.
Qed.

(** * More on reads *)

Lemma cache_result_skipped (key : string) (d : rows) (directive : option json) (w : World) :
  truthy directive = false -> cache_result key d directive w = (inr tt, w).
Proof.
  intros Hf. unfold cache_result. destruct directive as [c|]; [|reflexivity].
  now rewrite Hf.
Qed.

(** X12: a read without a cache directive is never cached: after it has gone
    to the gateway (its options are not [null]) the cache holds nothing
    under its key, and the same read goes to the gateway again, whatever the
    first reply was. *)
Theorem read_without_directive_is_not_cached
    (gateway : list Request -> Request -> Reply) (table : string) (options : json)
    (elapsed : Z) (w : World) :
  let key := generateCacheKey table OpSelect options in
  let rq := FromTable table (select_chain options) in
  options <> JNull ->
  truthy (get_field "cache" options) = false ->
  fst (getFromCache key w) = inr None ->
  let first := select gateway table options w in
  cache (snd first) = cache (snd (getFromCache key w))
  /\ (isCacheEnabled w = true -> cache (snd first) !! key = None)
  /\ gateway_calls (snd (select gateway table options (advance elapsed (snd first))))
     = (gateway_calls (snd first) ++ [rq])%list.
Proof.
  intros key rq Hnull Hno Hmiss first.
  destruct (getFromCache key w) as [a w1] eqn:Hg. cbn in Hmiss. subst a.
  pose proof (select_on_miss gateway table options w w1 Hnull Hg) as Hfirst.
  fold key rq in Hfirst.
  assert (Hshape : exists lvl msg info r,
             first = (inr r, snd (logger lvl msg info (awaited gateway rq w1)))).
  { unfold first. rewrite Hfirst.
    destruct (outcome (gateway (gateway_calls w1) rq)) as [[d|message]|e]; eauto 10.
    rewrite (cache_result_skipped key d _ _ Hno). eauto 10. }
  destruct Hshape as (lvl & msg & info & r & ->). cbn [fst snd].
  destruct (failed_read_world key lvl msg info gateway rq w w1 Hg) as (Hc & Hk & Hagain).
  split; [exact Hc|]. split; [exact Hk|].
  destruct (Hagain elapsed) as (w3 & H3 & Hg3).
  apply (select_miss_calls gateway table options _ w3 Hnull H3 Hg3).
Qed.

(** X13: a cache directive whose [ttl] is zero or negative stores an entry
    that is never served: the same read, made again at once or at any later
    time, goes to the gateway. *)
Theorem nonpositive_ttl_is_never_served
    (gateway : list Request -> Request -> Reply) (table : string) (options c : json)
    (ttl : Z) (d : rows) (elapsed : Z) (w : World) :
  let key := generateCacheKey table OpSelect options in
  let rq := FromTable table (select_chain options) in
  isCacheEnabled w = true ->
  fst (getFromCache key w) = inr None ->
  outcome (gateway (gateway_calls w) rq) = Responds (Rows d) ->
  get_field "cache" options = Some c -> truthy (Some c) = true ->
  cache_ttl c = Some ttl -> ttl <= 0 -> 0 <= elapsed ->
  let first := select gateway table options w in
  fst first = inr (succeeded d)
  /\ gateway_calls (snd (select gateway table options (advance elapsed (snd first))))
     = (gateway_calls (snd first) ++ [rq])%list.
Proof.
  intros key rq He Hmiss Hreply Hc Htruthy Httl Hle Hel first.
  assert (Hnull : options <> JNull) by (intros ->; discriminate Hc).
  destruct (getFromCache key w) as [a w1] eqn:Hg. cbn in Hmiss. subst a.
  assert (Hw1 : w1 = set_cache (delete key (cache w)) w).
  { apply getFromCache_None_inv in Hg as [[Hoff _]|[_ ->]]; [congruence|reflexivity]. }
  pose proof (select_on_miss gateway table options w w1 Hnull Hg) as Hfirst.
  fold key rq in Hfirst. subst w1.
  change (gateway_calls (set_cache (delete key (cache w)) w)) with (gateway_calls w) in Hfirst.
  rewrite Hreply, Hc in Hfirst.
  set (w2 := awaited gateway rq (set_cache (delete key (cache w)) w)) in *.
  assert (He2 : isCacheEnabled w2 = true) by exact He.
  pose proof (cache_result_stores key d c w2 He2 Htruthy) as Hstored.
  rewrite Httl in Hstored.
  destruct (cache_result_frame key d (Some c) w2) as (He3 & _ & Hc3 & _).
  unfold first. rewrite Hfirst. cbn [fst snd]. split; [reflexivity|].
  rewrite read_reaches_gateway; [reflexivity|exact Hnull|]. fold key.
  erewrite getFromCache_expired; [reflexivity| | |].
  - change (isCacheEnabled (snd (cache_result key d (Some c) w2)) = true).
    now rewrite He3.
  - exact Hstored.
  - change (clock w2 + ttl * 1000 <= clock (snd (cache_result key d (Some c) w2)) + elapsed).
    rewrite Hc3. nia.
Qed.

(** X14: [rawQuery] keys its results under table ["raw"] and operation
    ["select"], the key [select] uses for a table named ["raw"] with the
    options [{ query, params }]: after a cached [rawQuery], that [select] is
    served the raw query's rows from the cache, without a request, within
    the TTL (the number the directive gives, or the default when it gives
    none; the dates a hit reports are taken to be valid dates). *)
Theorem rawQuery_shares_keys_with_select
    (gateway : list Request -> Request -> Reply) (query : string) (params : list json)
    (options c : json) (d : rows) (ttl elapsed : Z) (w : World) :
  let key := generateCacheKey "raw" OpSelect (raw_params query params) in
  let rq := Rpc "execute_sql" (raw_params query params) in
  let arrived := clock w + Z.of_N (latency (gateway (gateway_calls w) rq)) in
  isCacheEnabled w = true ->
  fst (getFromCache key w) = inr None ->
  outcome (gateway (gateway_calls w) rq) = Responds (Rows d) ->
  get_field "cache" options = Some c -> truthy (Some c) = true ->
  lifetime c w ttl ->
  servable arrived ttl (defaultTTL w) ->
  elapsed < ttl * 1000 ->
  let first := rawQuery gateway query params options w in
  let second := select gateway "raw" (raw_params query params) (advance elapsed (snd first)) in
  (exists r, fst second = inr r /\ data r = Some d /\ fromCache r = true)
  /\ gateway_calls (snd second) = gateway_calls (snd first).
Proof.
  intros key rq arrived He Hmiss Hreply Hc Htruthy Hlife Hserve Hlt first second. subst key.
  destruct (getFromCache _ w) as [a w1] eqn:Hg. cbn in Hmiss. subst a.
  assert (Hcalls : gateway_calls w1 = gateway_calls w).
  { apply getFromCache_None_inv in Hg as [[_ ->]|[_ ->]]; reflexivity. }
  pose proof (rawQuery_on_miss gateway query params options w w1 Hg) as Hfirst.
  fold rq in Hfirst. rewrite Hcalls, Hreply in Hfirst.
  assert (Hshape : rawQuery gateway query params options w =
            (inr (succeeded d),
             snd (logger LogDebug "Database raw query completed"
                    (Some (JObj [("rowCount", row_count d);
                                 ("cached", JBool (truthy (Some c)))]))
                    (snd (cache_result
                            (generateCacheKey "raw" OpSelect (raw_params query params)) d
                            (Some c) (awaited gateway rq w1)))))).
  { rewrite Hfirst. destruct options; try discriminate Hc; rewrite Hc; reflexivity. }
  destruct (read_then_hit gateway _ rq d c ttl elapsed
              LogDebug "Database raw query completed"
              (Some (JObj [("rowCount", row_count d);
                           ("cached", JBool (truthy (Some c)))]))
              w w1 He Hg Htruthy Hlife Hserve) as [_ Hhit].
  destruct (Hhit Hlt) as (r & Hr & Hd & Hf).
  subst second. subst first. rewrite Hshape. cbn [fst snd].
  rewrite (select_on_hit gateway "raw" (raw_params query params) _ _ r Hr). cbn [fst snd].
  split; [eauto|reflexivity].
Qed.

(** * More on batch *)

Lemma dispatch_unsupported (gateway : list Request -> Request -> Reply) (op : BatchOp)
    (w : World) :
  operation op ∉ ["select"; "insert"; "update"; "delete"; "upsert"] ->
  dispatch gateway op w
  = (inl (ErrorObject ("Unsupported operation: " +:+ operation op)), w).
Proof.
  intros Hnot. unfold dispatch.
  repeat match goal with
    | |- context [String.eqb (operation op) ?name] =>
        destruct (String.eqb_spec (operation op) name) as [Heq|_];
        [exfalso; apply Hnot; rewrite Heq; set_solver|]
    end.
  reflexivity.
Qed.

(** X23: an operation kind that [batch] does not know ends the batch with the
    error ["Unsupported operation: <kind>"]: the operations before it have
    run and stay done, the ones after it are never started. *)
Theorem batch_rejects_unsupported_operation
    (gateway : list Request -> Request -> Reply) (pre post : list BatchOp) (op : BatchOp)
    (ds : list (option rows)) (w w1 : World) :
  ran gateway pre w ds w1 ->
  operation op ∉ ["select"; "insert"; "update"; "delete"; "upsert"] ->
  fst (batch gateway (pre ++ op :: post) w)
  = inr (failed ("Unsupported operation: " +:+ operation op))
  /\ gateway_calls (snd (batch gateway (pre ++ op :: post) w)) = gateway_calls w1
  /\ cache (snd (batch gateway (pre ++ op :: post) w)) = cache w1.
Proof.
  intros Hran Hnot.
  assert (H : batch gateway (pre ++ op :: post) w
              = (inr (failed ("Unsupported operation: " +:+ operation op)),
                 snd (logger LogError "Batch operation exception"
                        (Some (exn_data (ErrorObject
                                           ("Unsupported operation: " +:+ operation op))))
                        w1))).
  { unfold batch, try_catch.
    rewrite (batch_loop_after_prefix gateway _ pre (op :: post) [] ds w w1 Hran).
    cbn [batch_loop]. unfold bind at 1.
    rewrite (dispatch_unsupported gateway op w1 Hnot). reflexivity. }
  rewrite H. repeat split.
Qed.

(** * Cache keys determine their inputs *)

Lemma append_cons (x : ascii) (a b : string) : String x a +:+ b = String x (a +:+ b).
Proof. reflexivity. Qed.

Lemma append_nil_l (b : string) : "" +:+ b = b.
Proof. reflexivity. Qed.

Lemma append_assoc (a b c : string) : (a +:+ b) +:+ c = a +:+ (b +:+ c).
Proof.
  induction a as [|x a IH]; rewrite ?append_nil_l, ?append_cons; [reflexivity|].
  now rewrite IH.
Qed.

Lemma append_nil_r (a : string) : a +:+ "" = a.
Proof.
  induction a as [|x a IH]; rewrite ?append_nil_l, ?append_cons; [reflexivity|].
  now rewrite IH.
Qed.

Lemma append_cancel_l (a b c : string) : a +:+ b = a +:+ c -> b = c.
Proof.
  induction a as [|x a IH]; rewrite ?append_nil_l, ?append_cons; [auto|].
  intros [= H]. auto.
Qed.

(** Two texts of one character class, each followed by something that
    starts outside the class, are equal when the whole texts are. *)
Lemma split_class (p : ascii -> bool) (s1 s2 r1 r2 : string) :
  all_chars p s1 = true -> all_chars p s2 = true ->
  stops p r1 -> stops p r2 ->
  s1 +:+ r1 = s2 +:+ r2 -> s1 = s2 /\ r1 = r2.
Proof.
  revert s2. induction s1 as [|c1 s1 IH]; intros [|c2 s2] H1 H2 Hr1 Hr2 H;
    rewrite ?append_nil_l, ?append_cons in H; cbn in H1, H2.
  - auto.
  - subst r1. cbn in Hr1. apply andb_prop in H2 as [H2 _]. congruence.
  - subst r2. cbn in Hr2. apply andb_prop in H1 as [H1 _]. congruence.
  - injection H as <- H. apply andb_prop in H1 as [_ H1]. apply andb_prop in H2 as [_ H2].
    destruct (IH s2 H1 H2 Hr1 Hr2 H) as [-> ->]. auto.
Qed.

Lemma in_all_ascii (c : ascii) : In c all_ascii.
Proof.
  unfold all_ascii. rewrite <- (ascii_nat_embedding c). apply in_map, in_seq.
  pose proof (nat_ascii_bounded c). lia.
Qed.

Lemma append_eq_comparable (s1 s2 x y : string) :
  s1 +:+ x = s2 +:+ y -> comparable s1 s2 = true.
Proof.
  unfold comparable. revert s2. induction s1 as [|c1 s1 IH]; intros [|c2 s2] H;
    rewrite ?append_nil_l, ?append_cons in H; cbn; try reflexivity.
  injection H as <- H. specialize (IH s2 H).
  destruct (ascii_dec c1 c1) as [_|Hn]; [|contradiction]. exact IH.
Qed.

(** No two characters have escapes of which one begins the other, and no
    escape begins with the quotation mark. *)
Lemma escapes_checked :
  forallb (fun c1 =>
    negb (match head_char (quote_char c1) with
          | Some c => Ascii.eqb c dquote
          | None => true
          end)
    && forallb (fun c2 =>
         Ascii.eqb c1 c2 || negb (comparable (quote_char c1) (quote_char c2)))
       all_ascii)
    all_ascii = true.
Proof. vm_compute. reflexivity. Qed.

Lemma quote_char_prefix_free (c1 c2 : ascii) (x y : string) :
  quote_char c1 +:+ x = quote_char c2 +:+ y -> c1 = c2 /\ x = y.
Proof.
  intros H. pose proof escapes_checked as Hall.
  rewrite forallb_forall in Hall. specialize (Hall c1 (in_all_ascii c1)).
  apply andb_prop in Hall as [_ Hall]. rewrite forallb_forall in Hall.
  specialize (Hall c2 (in_all_ascii c2)).
  rewrite (append_eq_comparable _ _ _ _ H) in Hall. cbn in Hall. rewrite orb_false_r in Hall.
  apply Ascii.eqb_eq in Hall. subst c2. split; [reflexivity|].
  now apply append_cancel_l in H.
Qed.

Lemma quote_char_head (c : ascii) (x : string) :
  head_char (quote_char c +:+ x) <> Some dquote.
Proof.
  pose proof escapes_checked as Hall.
  rewrite forallb_forall in Hall. specialize (Hall c (in_all_ascii c)).
  apply andb_prop in Hall as [Hall _].
  destruct (quote_char c) as [|a s]; [discriminate Hall|]. rewrite append_cons. cbn in *.
  intros [= ->]. rewrite Ascii.eqb_refl in Hall. discriminate.
Qed.

Lemma quote_body_cons (c : ascii) (s : string) :
  quote_body (String c s) = quote_char c +:+ quote_body s.
Proof. reflexivity. Qed.

(** The closing quotation mark ends a string literal where it stands. *)
Lemma quote_body_prefix_free (s1 s2 r1 r2 : string) :
  quote_body s1 +:+ String dquote r1 = quote_body s2 +:+ String dquote r2 ->
  s1 = s2 /\ r1 = r2.
Proof.
  revert s2. induction s1 as [|c1 s1 IH]; intros [|c2 s2] H;
    rewrite ?quote_body_cons, ?append_assoc in H;
    change (quote_body "") with "" in H; rewrite ?append_nil_l in H.
  - injection H as ->. auto.
  - exfalso. apply (f_equal head_char) in H.
    symmetry in H. now apply quote_char_head in H.
  - exfalso. apply (f_equal head_char) in H.
    now apply quote_char_head in H.
  - apply quote_char_prefix_free in H as [-> H].
    destruct (IH s2 H) as [-> ->]. auto.
Qed.

Lemma quote_prefix_free (s1 s2 r1 r2 : string) :
  quote s1 +:+ r1 = quote s2 +:+ r2 -> s1 = s2 /\ r1 = r2.
Proof.
  unfold quote. rewrite !append_cons. intros [= H].
  rewrite !append_assoc, !append_cons, !append_nil_l in H.
  now apply quote_body_prefix_free.
Qed.

Lemma to_int_not_nil (n : Z) : Z.to_int n <> Decimal.Pos Decimal.Nil /\ Z.to_int n <> Decimal.Neg Decimal.Nil.
Proof.
  destruct n as [|p|p]; cbn; split; try discriminate;
    intros [= H]; now apply DecimalPos.Unsigned.to_uint_nonnil in H.
Qed.

Lemma number_to_string_inj (n1 n2 : Z) :
  number_to_string n1 = number_to_string n2 -> n1 = n2.
Proof.
  unfold number_to_string. intros H.
  apply (f_equal NilZero.int_of_string) in H.
  destruct (to_int_not_nil n1) as [Ha Hb], (to_int_not_nil n2) as [Hc Hd].
  rewrite !NilZero.isi in H by assumption.
  injection H as H. now apply DecimalZ.to_int_inj.
Qed.

Lemma uint_chars (d : Decimal.uint) :
  all_chars is_number_char (NilEmpty.string_of_uint d) = true.
Proof. induction d; cbn; auto. Qed.

Lemma number_chars (n : Z) : all_chars is_number_char (number_to_string n) = true.
Proof.
  unfold number_to_string, NilZero.string_of_int, NilZero.string_of_uint.
  destruct (Z.to_int n) as [d|d]; destruct d; try reflexivity; cbn;
    apply uint_chars.
Qed.

Lemma number_head (n : Z) :
  exists c, head_char (number_to_string n) = Some c /\ is_number_char c = true.
Proof.
  pose proof (number_chars n) as H.
  assert (Hne : number_to_string n <> "").
  { unfold number_to_string, NilZero.string_of_int, NilZero.string_of_uint.
    destruct (Z.to_int n) as [d|d]; destruct d; discriminate. }
  destruct (number_to_string n) as [|c s]; [contradiction|].
  cbn in H. apply andb_prop in H as [H _]. eauto.
Qed.

Lemma json_ind_nested (P : json -> Prop) :
  P JNull -> (forall b, P (JBool b)) -> (forall n, P (JNum n)) -> (forall s, P (JStr s)) ->
  (forall items, Forall P items -> P (JArr items)) ->
  (forall fields, Forall (fun kv => P (snd kv)) fields -> P (JObj fields)) ->
  forall v, P v.
Proof.
  intros Hnull Hbool Hnum Hstr Harr Hobj. fix IH 1. intros [|b|n|s|items|fields].
  - exact Hnull.
  - apply Hbool.
  - apply Hnum.
  - apply Hstr.
  - apply Harr. induction items as [|x items IHl]; constructor; [apply IH | exact IHl].
  - apply Hobj. induction fields as [|[k x] fields IHl]; constructor; [apply IH | exact IHl].
Qed.

Lemma head_char_cons (c : ascii) (s r : string) : head_char (String c s +:+ r) = Some c.
Proof. reflexivity. Qed.

Lemma number_char_kind (c : ascii) : is_number_char c = true -> head_kind c = 2%nat.
Proof.
  intros H. unfold head_kind.
  destruct (Ascii.eqb_spec c "n") as [->|_]; [discriminate H|].
  destruct (Ascii.eqb_spec c "t") as [->|_]; [discriminate H|].
  destruct (Ascii.eqb_spec c "f") as [->|_]; [discriminate H|].
  cbn [orb]. now rewrite H.
Qed.

Lemma stringify_head (v : json) (r : string) :
  exists c, head_char (stringify v +:+ r) = Some c /\ head_kind c = json_kind v.
Proof.
  destruct v as [|[]|n|s|items|fields]; cbn [stringify json_kind];
    try (eexists; split; [apply head_char_cons | reflexivity]).
  - destruct (number_head n) as (c & Hc & Hn).
    destruct (number_to_string n) as [|c' s']; [discriminate Hc|]. injection Hc as ->.
    exists c. split; [reflexivity|]. now apply number_char_kind.
Qed.

Lemma kind_mismatch (v1 v2 : json) (r1 r2 : string) :
  stringify v1 +:+ r1 = stringify v2 +:+ r2 -> json_kind v1 = json_kind v2.
Proof.
  intros H. destruct (stringify_head v1 r1) as (c1 & H1 & <-).
  destruct (stringify_head v2 r2) as (c2 & H2 & <-). congruence.
Qed.

Lemma closed_stops_number (r : string) : stops is_inner_char r -> stops is_number_char r.
Proof.
  destruct r as [|c r]; [auto|]. unfold stops, is_inner_char. cbn [existsb list_ascii_of_string].
  destruct (Ascii.eqb_spec c ",") as [->|_]; [reflexivity|].
  destruct (Ascii.eqb_spec c "]") as [->|_]; [reflexivity|].
  destruct (Ascii.eqb_spec c "}") as [->|_]; [reflexivity|].
  discriminate.
Qed.

Lemma join_tail (close : ascii) (p : string) (rest : list string) (r : string) :
  join "," (p :: rest) +:+ String close r = p +:+ tail_text close rest r.
Proof.
  destruct rest as [|q rest]; [reflexivity|].
  cbn [join tail_text]. now rewrite !append_assoc.
Qed.

Lemma tail_text_closed (close : ascii) (rest : list string) (r : string) :
  is_inner_char close = false -> stops is_inner_char (tail_text close rest r).
Proof. intros H. destruct rest; [exact H | reflexivity]. Qed.

(** Elements that end where they are seen to end make lists that do. *)
Lemma join_prefix_free {A} (f : A -> string) (close : ascii) (items1 : list A) :
  is_inner_char close = false -> close <> ","%char ->
  (forall x r, head_char (f x +:+ r) <> Some close) ->
  Forall (fun x => forall y r1 r2,
            stops is_inner_char r1 -> stops is_inner_char r2 ->
            f x +:+ r1 = f y +:+ r2 -> x = y /\ r1 = r2) items1 ->
  forall items2 r1 r2,
    join "," (List.map f items1) +:+ String close r1
    = join "," (List.map f items2) +:+ String close r2 ->
    items1 = items2 /\ r1 = r2.
Proof.
  intros Hclose Hcomma Hhead Hall.
  induction Hall as [|x xs Hx _ IH]; intros [|y ys] r1 r2 H; cbn [List.map] in H;
    rewrite ?join_tail in H; change (join "," []) with "" in H; rewrite ?append_nil_l in H.
  - injection H as ->. auto.
  - exfalso. apply (Hhead y (tail_text close (List.map f ys) r2)). now rewrite <- H.
  - exfalso. apply (Hhead x (tail_text close (List.map f xs) r1)). now rewrite H.
  - apply Hx in H as [<- H]; [|now apply tail_text_closed ..].
    destruct xs as [|x' xs], ys as [|y' ys]; cbn [List.map tail_text] in H.
    + injection H as ->. auto.
    + injection H as H _. congruence.
    + injection H as H _. congruence.
    + injection H as H.
      destruct (IH (y' :: ys) r1 r2 H) as [-> ->]. auto.
Qed.

(** A JSON text ends where it is seen to end: followed by nothing, a comma
    or a closing bracket, it determines the value and what follows. *)
Lemma stringify_prefix_free (v1 : json) :
  forall v2 r1 r2,
    stops is_inner_char r1 -> stops is_inner_char r2 ->
    stringify v1 +:+ r1 = stringify v2 +:+ r2 -> v1 = v2 /\ r1 = r2.
Proof.
  induction v1 as [|b1|n1|s1|items1 IH|fields1 IH] using json_ind_nested;
    intros v2 r1 r2 Hr1 Hr2 H; pose proof (kind_mismatch _ _ _ _ H) as Hk;
    destruct v2 as [|b2|n2|s2|items2|fields2]; try discriminate Hk; clear Hk.
  - apply append_cancel_l in H. auto.
  - destruct b1, b2; cbn [stringify] in H;
      try (apply append_cancel_l in H; auto); discriminate H.
  - cbn [stringify] in H.
    apply split_class with (p := is_number_char) in H as [H ->];
      auto using number_chars, closed_stops_number.
    apply number_to_string_inj in H. subst. auto.
  - cbn [stringify] in H. apply quote_prefix_free in H as [-> ->]. auto.
  - cbn [stringify] in H. rewrite !append_assoc, !append_cons, !append_nil_l in H.
    injection H as H.
    apply (join_prefix_free stringify "]") in H as [-> ->].
    + auto.
    + reflexivity.
    + discriminate.
    + intros x r Hx. destruct (stringify_head x r) as (c & Hc & Hkind).
      rewrite Hx in Hc. injection Hc as <-. destruct x; discriminate Hkind.
    + exact IH.
  - cbn [stringify] in H. rewrite !append_assoc, !append_cons, !append_nil_l in H.
    injection H as H.
    apply (join_prefix_free (fun kv => quote (fst kv) +:+ ":" +:+ stringify (snd kv)) "}")
      in H as [-> ->].
    + auto.
    + reflexivity.
    + discriminate.
    + intros [k x] r. unfold quote. cbn [fst]. rewrite !append_cons. discriminate.
    + clear H. induction IH as [|[k1 x1] fields1 Hx _ IHf]; constructor; [|exact IHf].
      intros [k2 x2] t1 t2 Ht1 Ht2 Ht. cbn [fst snd] in *.
      rewrite !append_assoc in Ht. apply quote_prefix_free in Ht as [-> Ht].
      rewrite !append_cons, !append_nil_l in Ht. injection Ht as Ht.
      apply Hx in Ht as [-> ->]; auto.
Qed.

(** [JSON.stringify] is one-to-one on parameter bags: two bags with the
    same text are the same bag, field for field and in the same order. *)
Lemma stringify_inj (v1 v2 : json) : stringify v1 = stringify v2 -> v1 = v2.
Proof.
  intros H. apply (stringify_prefix_free v1 v2 "" ""); [exact I | exact I |].
  now rewrite !append_nil_r.
Qed.

Lemma operation_name_colon_free (op : DatabaseOperation) :
  all_chars is_not_colon (operation_name op) = true.
Proof. destruct op; reflexivity. Qed.

Lemma operation_name_inj (op1 op2 : DatabaseOperation) :
  operation_name op1 = operation_name op2 -> op1 = op2.
Proof. destruct op1, op2; intros H; first [reflexivity | discriminate H]. Qed.

(** X1: cache keys do not collide.  For table names without a colon, two
    calls of [generateCacheKey] give the same key only for the same table,
    the same operation and the same parameter bag. *)
Theorem cache_keys_do_not_collide
    (t1 t2 : string) (op1 op2 : DatabaseOperation) (p1 p2 : json) :
  colon_free t1 -> colon_free t2 ->
  generateCacheKey t1 op1 p1 = generateCacheKey t2 op2 p2 ->
  t1 = t2 /\ op1 = op2 /\ p1 = p2.
Proof.
  intros H1 H2 H. apply base64_inj in H. unfold key_text in H.
  apply split_class with (p := is_not_colon) in H as [-> H]; try assumption;
    try reflexivity.
  apply append_cancel_l in H.
  apply split_class with (p := is_not_colon) in H as [Hop H];
    auto using operation_name_colon_free; try reflexivity.
  apply append_cancel_l in H.
  apply operation_name_inj in Hop. apply stringify_inj in H. auto.
Qed.

(** * More on invalidation *)

Lemma invalidated_lookup (tags : list string) (key : string) (w : World) :
  isCacheEnabled w = true ->
  cache (snd (invalidateCacheByTags tags w)) !! key =
    match cache w !! key with
    | Some entry => if tags_hit tags entry then None else Some entry
    | None => None
    end.
Proof.
  intros He. rewrite (invalidateCacheByTags_enabled tags w He). cbn [snd].
  change (fst (foldl (invalidate_step tags) (cache w, 0) (map_to_list (cache w))) !! key
          = match cache w !! key with
            | Some entry => if tags_hit tags entry then None else Some entry
            | None => None
            end).
  destruct (cache w !! key) as [entry|] eqn:Hk.
  - destruct (tags_hit tags entry) eqn:Hhit.
    + apply invalidate_loop_removes with (entry := entry); [|assumption].
      now apply elem_of_map_to_list.
    + rewrite invalidate_loop_keeps; [assumption|].
      intros e' Hin. apply elem_of_map_to_list in Hin. congruence.
  - now apply invalidate_loop_None.
Qed.

(** X7: invalidating by the same tags a second time removes nothing more,
    and invalidating by no tags removes nothing at all; either way the
    logger is told that zero entries went. *)
Theorem invalidation_is_idempotent (tags : list string) (w : World) :
  isCacheEnabled w = true ->
  let once := snd (invalidateCacheByTags tags w) in
  let twice := snd (invalidateCacheByTags tags once) in
  cache twice = cache once
  /\ cache (snd (invalidateCacheByTags [] w)) = cache w
  /\ log_data <$> last (logged twice) = Some (Some (JObj [("invalidatedCount", JNum 0)])).
Proof.
  intros He once twice.
  assert (He1 : isCacheEnabled once = true).
  { unfold once. destruct (invalidateCacheByTags_frame tags w) as (-> & _). exact He. }
  assert (Hsame : cache twice = cache once).
  { apply map_eq. intros key. unfold twice. rewrite (invalidated_lookup tags key once He1).
    destruct (cache once !! key) as [entry|] eqn:Hk; [|reflexivity].
    unfold once in Hk. rewrite (invalidated_lookup tags key w He) in Hk.
    destruct (cache w !! key) as [e|]; [|discriminate].
    destruct (tags_hit tags e) eqn:Hhit; [discriminate|].
    injection Hk as <-. now rewrite Hhit. }
  split; [exact Hsame|]. split.
  - apply map_eq. intros key. rewrite (invalidated_lookup [] key w He).
    destruct (cache w !! key) as [entry|]; [|reflexivity].
    assert (tags_hit [] entry = false) as ->; [|reflexivity].
    destruct (tags_hit [] entry) eqn:Hhit; [|reflexivity].
    apply tags_hit_spec in Hhit as (t & _ & Hin). now apply elem_of_nil in Hin.
  - unfold twice at 1. rewrite (invalidateCacheByTags_enabled tags once He1). cbn [snd].
    change (log_data <$> last (logged once ++
              [ {| log_level := LogInfo;
                   log_message := "Cache invalidated for tags: " +:+ join ", " tags;
                   log_context := "database";
                   log_data :=
                     Some (JObj [("invalidatedCount",
                                  JNum (snd (foldl (invalidate_step tags) (cache once, 0)
                                               (map_to_list (cache once)))))]) |} ])
            = Some (Some (JObj [("invalidatedCount", JNum 0)]))).
    rewrite last_snoc. cbn. rewrite invalidate_loop_count.
    + change (fst (foldl (invalidate_step tags) (cache once, 0) (map_to_list (cache once))))
        with (cache (set_cache (fst (foldl (invalidate_step tags) (cache once, 0)
                                       (map_to_list (cache once)))) once)).
      assert (Hc : cache (set_cache (fst (foldl (invalidate_step tags) (cache once, 0)
                                            (map_to_list (cache once)))) once)
                   = cache twice).
      { unfold twice. rewrite (invalidateCacheByTags_enabled tags once He1). reflexivity. }
      rewrite Hc, Hsame. repeat f_equal. lia.
    + apply NoDup_fst_map_to_list.
    + intros k e. apply elem_of_map_to_list.
Qed.

(** * The size of a key *)

Lemma base64_bytes_length (bytes : list ascii) :
  length (base64_bytes bytes) = (4 * ((length bytes + 2) / 3))%nat.
Proof.
  induction bytes as [|[]|[] []|[] [] [] bytes IH] using list_ind3; try reflexivity.
  cbn [base64_bytes length]. rewrite IH.
  replace (S (S (S (length bytes))) + 2)%nat with ((length bytes + 2) + 1 * 3)%nat by lia.
  rewrite Nat.div_add by lia. lia.
Qed.

Lemma length_list_ascii (s : string) : length (list_ascii_of_string s) = String.length s.
Proof. induction s as [|c s IH]; cbn; [reflexivity|]. now rewrite IH. Qed.

Lemma length_string_of_list (l : list ascii) : String.length (string_of_list_ascii l) = length l.
Proof. induction l as [|c l IH]; cbn; [reflexivity|]. now rewrite IH. Qed.

Lemma length_append (a b : string) :
  String.length (a +:+ b) = (String.length a + String.length b)%nat.
Proof.
  induction a as [|x a IH]; rewrite ?append_nil_l, ?append_cons; [reflexivity|].
  cbn [String.length]. now rewrite IH.
Qed.

(** X2: a cache key is four characters for every three bytes of the text
    [table:operation:JSON], rounded up: never empty, and always a multiple
    of four long. *)
Theorem cache_key_length (table : string) (operation : DatabaseOperation) (params : json) :
  String.length (generateCacheKey table operation params)
  = (4 * ((String.length (key_text table operation params) + 2) / 3))%nat
  /\ (4 <= String.length (generateCacheKey table operation params))%nat.
Proof.
  unfold generateCacheKey, base64.
  rewrite length_string_of_list, base64_bytes_length, length_list_ascii.
  split; [reflexivity|].
  assert (1 <= String.length (key_text table operation params))%nat.
  { unfold key_text. rewrite !length_append. cbn [String.length]. lia. }
  assert (1 <= (String.length (key_text table operation params) + 2) / 3)%nat.
  { apply Nat.div_le_lower_bound; lia. }
  lia.
Qed.

(** * The default TTL *)

(** X6: [setDefaultTTL] changes no entry: a lookup that hit still hits, with
    the same rows and the same expiry, as long as the [cachedAt] it now
    reports (the expiry minus the new default) is a valid date; a lookup
    that missed still misses; the new default is the lifetime of an entry
    stored afterwards without a TTL of its own. *)
Theorem setDefaultTTL_spares_cached_entries
    (key : string) (ttl : Z) (value : rows) (tags : list string) (w : World) :
  let w' := snd (setDefaultTTL ttl w) in
  cache w' = cache w
  /\ (forall r e,
        fst (getFromCache key w) = inr (Some r) ->
        expiresAt r = Some e ->
        in_date_range (e - ttl * 1000) ->
        fst (getFromCache key w')
        = inr (Some {| data := data r; error := None; fromCache := true;
                       cachedAt := Some (e - ttl * 1000);
                       expiresAt := Some e |}))
  /\ (fst (getFromCache key w) = inr None -> fst (getFromCache key w') = inr None)
  /\ (isCacheEnabled w = true ->
      cache (snd (setCache key value None tags w')) !! key
      = Some {| entry_data := value; entry_expiresAt := clock w + ttl * 1000;
                entry_tags := tags |}).
Proof.
  intros w'. split; [reflexivity|]. split; [|split].
  - intros r e H Hexp Hnew.
    destruct (getFromCache key w) as [a w1] eqn:Hg. cbn in H. subst a.
    apply getFromCache_Some_inv in Hg as (_ & He & entry & Hk & Ht & [_ Hx] & ->).
    cbn in Hexp. injection Hexp as <-.
    rewrite (getFromCache_hit key entry w'); [reflexivity|exact He|exact Hk|exact Ht|].
    split; [exact Hnew|exact Hx].
  - unfold getFromCache, isCacheValid.
    change (isCacheEnabled w') with (isCacheEnabled w).
    change (cache w') with (cache w). change (clock w') with (clock w).
    destruct (negb (isCacheEnabled w)); [auto|].
    destruct (cache w !! key) as [entry|]; [|auto].
    destruct (clock w <? entry_expiresAt entry)%Z; [|auto].
    intros H. exfalso.
    destruct (toISOString (entry_expiresAt entry - defaultTTL w * 1000)); [discriminate|].
    destruct (toISOString (entry_expiresAt entry)); discriminate.
  - intros He.
    destruct (setCache_enabled key value None tags w' He) as (_ & -> & _).
    apply lookup_insert_eq.
Qed.

(** X21: [batch] stops at the first operation that returns an error with a
    message: it returns that message and no data, and it returns in the
    state that operation left, so the operations before it stay done and the
    operations after it are never started. *)
Theorem batch_stops_at_first_error_message
    (gateway : list Request -> Request -> Reply) (pre post : list BatchOp) (op : BatchOp)
    (ds : list (option rows)) (r : QueryResult rows) (message : string) (w w1 w2 : World) :
  ran gateway pre w ds w1 ->
  dispatch gateway op w1 = (inr r, w2) ->
  error r = Some message -> message <> "" ->
  batch gateway (pre ++ op :: post) w = (inr (failed message), w2).
Proof.
  intros Hran Hd Hm Hne. unfold batch, try_catch.
  rewrite (batch_loop_after_prefix gateway _ pre (op :: post) [] ds w w1 Hran).
  cbn [batch_loop]. unfold bind at 1. rewrite Hd.
  assert (Ht : error_truthy (error r) = true).
  { rewrite Hm. cbn. destruct (String.eqb_spec message ""); [contradiction|reflexivity]. }
  rewrite Ht, Hm. reflexivity.
Qed.

(** X22: when every operation of a batch runs without an error message,
    [batch] returns the operations' data in the order of the operations
    ([null] for a [delete]), and has sent exactly the requests the operations
    sent, one after the other. *)
Theorem batch_returns_all_data_in_order
    (gateway : list Request -> Request -> Reply) (operations : list BatchOp)
    (ds : list (option rows)) (w w' : World) :
  ran gateway operations w ds w' ->
  fst (batch gateway operations w) = inr (succeeded ds)
  /\ length ds = length operations
  /\ gateway_calls (snd (batch gateway operations w)) = gateway_calls w'
  /\ cache (snd (batch gateway operations w)) = cache w'.
Proof.
  intros Hran.
  assert (Hlen : length ds = length operations).
  { clear -Hran. induction Hran; cbn; congruence. }
  unfold batch, try_catch.
  pose proof (batch_loop_after_prefix gateway (length operations) operations [] [] ds w w' Hran)
    as H.
  rewrite app_nil_r in H. rewrite H. cbn. auto.
Qed.

(** * Worked instances *)

(** A worked instance of X15. *)
Lemma write_sends_exactly_one_request_witness :
  let c := WDelete "invoices" (Some (JObj [("id", JNum 1)])) (JObj []) in
  let rq := FromTable "invoices" [QDelete; QEq "id" (JNum 1)] in
  gateway_calls (snd (perform (gateway_rows []) c (initial 0))) = ([] ++ [rq])%list
  /\ fst (perform (gateway_rows []) c (initial 0)) = inr deleted.
Proof.
  intros c rq.
  destruct (write_sends_exactly_one_request (gateway_rows []) c rq (initial 0) eq_refl)
    as [Hcalls Hresult].
  cbn [gateway_rows outcome] in Hresult. destruct Hresult as [Haccepted _].
  split; [exact Hcalls|]. apply Haccepted. split; [discriminate | exact I].
Defined.

(** A worked instance of X16. *)
Lemma write_without_filters_sends_nothing_witness :
  (exists r, fst (update (gateway_rows []) "invoices" None None (JObj []) (initial 0)) = inr r
             /\ is_Some (error r) /\ data r = None)
  /\ gateway_calls (snd (delete_ (gateway_rows []) "invoices" None (JObj []) (initial 0))) = [].
Proof.
  destruct (write_without_filters_sends_nothing (gateway_rows []) "invoices" None None
              (JObj []) (initial 0) (or_introl eq_refl)) as (Hu & _ & _ & Hd & _).
  split; [exact Hu | exact Hd].
Defined.

(** A worked instance of X17. *)
Lemma failed_write_invalidates_nothing_witness :
  let c := insert_invoice invalidate_invoices in
  fst (perform (gateway_rejects "duplicate key") c cached_invoices)
  = inr (failed "duplicate key")
  /\ cache (snd (perform (gateway_rejects "duplicate key") c cached_invoices))
     = cache cached_invoices.
Proof.
  intros c.
  refine (failed_write_invalidates_nothing (gateway_rejects "duplicate key") c
            (FromTable "invoices" [QInsert (Some (JObj [("id", JNum 2)])); QReturning])
            "duplicate key" cached_invoices eq_refl _).
  left. reflexivity.
Defined.

(** A worked instance of X18. *)
Lemma accepted_write_invalidates_its_tags_witness :
  let c := insert_invoice invalidate_invoices in
  let after := snd (perform (gateway_rows invoice_1) c cached_invoices) in
  fst (perform (gateway_rows invoice_1) c cached_invoices) = inr (succeeded invoice_1)
  /\ cache after !! generateCacheKey "invoices" OpSelect (JObj []) = None
  /\ gateway_calls (snd (select (gateway_rows invoice_1) "invoices" (JObj []) after))
     = (gateway_calls after ++ [FromTable "invoices" (select_chain (JObj []))])%list.
Proof.
  intros c after.
  destruct (accepted_write_invalidates_its_tags (gateway_rows invoice_1) c
              (FromTable "invoices" [QInsert (Some (JObj [("id", JNum 2)])); QReturning])
              invoice_1 ["invoices"] cached_invoices eq_refl eq_refl eq_refl eq_refl)
    as (Hr & Hgone & _ & _ & Hread).
  assert (Hk : cache cached_invoices !! generateCacheKey "invoices" OpSelect (JObj [])
               = Some invoices_entry) by (vm_compute; reflexivity).
  assert (Hhit : exists t, t ∈ entry_tags invoices_entry /\ t ∈ ["invoices"]).
  { exists "invoices". split; apply list_elem_of_singleton; reflexivity. }
  split; [exact Hr|]. split.
  - exact (Hgone _ invoices_entry Hk Hhit).
  - apply (Hread "invoices" (JObj []) invoices_entry); [discriminate | exact Hk | exact Hhit].
Defined.

(** A worked instance of X19. *)
Lemma writes_never_add_entries_witness :
  cache cached_invoices !! generateCacheKey "invoices" OpSelect (JObj [])
  = Some invoices_entry.
Proof.
  apply (writes_never_add_entries (gateway_rows invoice_1) (insert_invoice (JObj []))).
  vm_compute. reflexivity.
Defined.

(** A worked instance of X20. *)
Lemma reads_outlive_untagged_writes_witness :
  let after := snd (perform (gateway_rows invoice_1) (insert_invoice invalidate_quotes)
                      cached_invoices) in
  exists r, select (gateway_rows invoice_1) "invoices" (JObj []) after = (inr r, after)
            /\ data r = Some (entry_data invoices_entry) /\ fromCache r = true.
Proof.
  intros after.
  refine (reads_outlive_untagged_writes (gateway_rows invoice_1)
            (insert_invoice invalidate_quotes) "invoices" (JObj []) invoices_entry
            cached_invoices eq_refl _ _ _ _ _).
  - vm_compute. reflexivity.
  - intros tags t [= <-] Hin Hin'.
    apply list_elem_of_singleton in Hin. apply list_elem_of_singleton in Hin'.
    subst t. discriminate Hin'.
  - intros s. discriminate.
  - vm_compute. reflexivity.
  - unfold dates_in_range, in_date_range, max_date. cbn. lia.
Defined.

(** A worked instance of X9. *)
Lemma sweep_removes_exactly_expired_witness :
  let w := advance 6000
             (snd (setCache "q:1" [] (Some 60) [] cached_invoices)) in
  cache (snd (cacheCleanup w)) !! generateCacheKey "invoices" OpSelect (JObj []) = None
  /\ cache (snd (cacheCleanup w)) !! "q:1" = cache w !! "q:1".
Proof.
  intros w.
  destruct (sweep_removes_exactly_expired w) as (Hgone & Hkept & _).
  split.
  - apply (Hgone _ invoices_entry); [vm_compute; reflexivity | vm_compute; discriminate].
  - rewrite (Hkept "q:1" {| entry_data := []; entry_expiresAt := 60000; entry_tags := [] |});
      vm_compute; reflexivity.
Defined.

(** A worked instance of X10: the entry of the invoices has expired when the
    sweep runs. *)
Lemma sweep_is_invisible_to_reads_witness :
  let key := generateCacheKey "invoices" OpSelect (JObj []) in
  fst (getFromCache key (advance 10 (snd (cacheCleanup (advance 6000 cached_invoices)))))
  = fst (getFromCache key (advance 10 (advance 6000 cached_invoices))).
Proof.
  apply sweep_is_invisible_to_reads. vm_compute. discriminate.
Defined.

(** A worked instance of X4. *)
Lemma cache_keys_are_independent_witness :
  fst (getFromCache "q:1" (snd (setCache "inv:1" invoice_1 (Some 5) [] (initial 0))))
  = fst (getFromCache "q:1" (initial 0))
  /\ cache (snd (getFromCache "inv:1" (initial 0))) !! "q:1" = cache (initial 0) !! "q:1".
Proof.
  apply cache_keys_are_independent. discriminate.
Defined.

(** A worked instance of X3. *)
Lemma setCache_last_write_wins_witness :
  let once := snd (setCache "inv:1" [] (Some 60) ["old"] (initial 0)) in
  let twice := snd (setCache "inv:1" invoice_1 None ["new"] once) in
  cache twice = cache (snd (setCache "inv:1" invoice_1 None ["new"] (initial 0)))
  /\ size (cache twice) = size (cache once)
  /\ cache twice !! "inv:1" =
       Some {| entry_data := invoice_1; entry_expiresAt := 0 + 300 * 1000;
               entry_tags := ["new"] |}.
Proof.
  exact (setCache_last_write_wins "inv:1" [] invoice_1 (Some 60) None ["old"] ["new"]
           (initial 0) eq_refl).
Defined.

(** A worked instance of X5. *)
Lemma hit_later_implies_hit_now_witness :
  let key := generateCacheKey "invoices" OpSelect (JObj []) in
  let r := {| data := Some invoice_1; error := None; fromCache := true;
              cachedAt := Some (5000 - 300 * 1000); expiresAt := Some 5000 |} in
  fst (getFromCache key cached_invoices) = inr (Some r).
Proof.
  intros key r.
  apply (hit_later_implies_hit_now key 4000 r cached_invoices).
  - vm_compute. discriminate.
  - vm_compute. reflexivity.
Defined.

(** A worked instance of X8: the cached invoices are gone after [clearCache],
    and the read goes to the gateway. *)
Lemma clearCache_forgets_everything_witness :
  let later := advance 10 (snd (setCacheEnabled true (snd (clearCache cached_invoices)))) in
  fst (getFromCache (generateCacheKey "invoices" OpSelect (JObj [])) later) = inr None
  /\ gateway_calls (snd (select (gateway_rows invoice_1) "invoices" (JObj []) later))
     = (gateway_calls cached_invoices
        ++ [FromTable "invoices" (select_chain (JObj []))])%list.
Proof.
  intros later.
  destruct (clearCache_forgets_everything (gateway_rows invoice_1) true 10 cached_invoices)
    as (_ & Hmiss & Hread & _).
  split; [apply Hmiss | apply Hread; discriminate].
Defined.

(** A worked instance of X11. *)
Lemma disabled_reads_bypass_the_cache_witness :
  let w := snd (setCacheEnabled false cached_invoices) in
  let after := snd (select (gateway_rows []) "invoices" (JObj []) w) in
  cache after = cache w
  /\ gateway_calls after = ([] ++ [FromTable "invoices" (select_chain (JObj []))])%list
  /\ fst (select (gateway_rows []) "invoices" (JObj []) w) = inr (succeeded []).
Proof.
  refine (disabled_reads_bypass_the_cache (gateway_rows []) "invoices" (JObj [])
            (snd (setCacheEnabled false cached_invoices)) eq_refl _).
  discriminate.
Defined.

(** A worked instance of X12. *)
Lemma read_without_directive_is_not_cached_witness :
  let first := select (gateway_rows invoice_1) "invoices" (JObj []) (initial 0) in
  cache (snd first) !! generateCacheKey "invoices" OpSelect (JObj []) = None
  /\ gateway_calls (snd (select (gateway_rows invoice_1) "invoices" (JObj [])
                           (advance 1 (snd first))))
     = (gateway_calls (snd first) ++ [FromTable "invoices" (select_chain (JObj []))])%list.
Proof.
  intros first.
  assert (Hnull : JObj [] <> JNull) by discriminate.
  destruct (read_without_directive_is_not_cached (gateway_rows invoice_1) "invoices"
              (JObj []) 1 (initial 0) Hnull eq_refl eq_refl) as (_ & Hk & Hagain).
  split; [exact (Hk eq_refl) | exact Hagain].
Defined.

(** A worked instance of X13. *)
Lemma nonpositive_ttl_is_never_served_witness :
  let options := JObj [("cache", JObj [("ttl", JNum 0)])] in
  let first := select (gateway_rows invoice_1) "invoices" options (initial 0) in
  fst first = inr (succeeded invoice_1)
  /\ gateway_calls (snd (select (gateway_rows invoice_1) "invoices" options
                           (advance 0 (snd first))))
     = (gateway_calls (snd first) ++ [FromTable "invoices" (select_chain options)])%list.
Proof.
  intros options first.
  refine (nonpositive_ttl_is_never_served (gateway_rows invoice_1) "invoices" options
            (JObj [("ttl", JNum 0)]) 0 invoice_1 0 (initial 0)
            eq_refl _ eq_refl eq_refl eq_refl eq_refl _ _).
  - vm_compute. reflexivity.
  - vm_compute. discriminate.
  - vm_compute. discriminate.
Defined.

(** A worked instance of X14. *)
Lemma rawQuery_shares_keys_with_select_witness :
  let options := JObj [("cache", JObj [("ttl", JNum 5)])] in
  let first := rawQuery (gateway_rows invoice_1) "select 1" [] options (initial 0) in
  let second := select (gateway_rows invoice_1) "raw" (raw_params "select 1" [])
                  (advance 1000 (snd first)) in
  (exists r, fst second = inr r /\ data r = Some invoice_1 /\ fromCache r = true)
  /\ gateway_calls (snd second) = gateway_calls (snd first).
Proof.
  intros options first second.
  refine (rawQuery_shares_keys_with_select (gateway_rows invoice_1) "select 1" [] options
            (JObj [("ttl", JNum 5)]) invoice_1 5 1000 (initial 0)
            eq_refl _ eq_refl eq_refl eq_refl _ _ _).
  - vm_compute. reflexivity.
  - left. reflexivity.
  - unfold servable, in_date_range, max_date. cbn. lia.
  - lia.
Defined.

(** One accepted insert, as the start of a batch. *)
Lemma first_insert_ran (gateway : list Request -> Request -> Reply) (d : rows) :
  outcome (gateway [] (FromTable "invoices" [QInsert (Some (JObj [("id", JNum 1)])); QReturning]))
    = Responds (Rows d) ->
  ran gateway [insert_into "invoices" 1] (initial 0) [Some d]
    (snd (dispatch gateway (insert_into "invoices" 1) (initial 0))).
Proof.
  intros Hreply.
  apply (ran_cons gateway (insert_into "invoices" 1) [] (initial 0) (succeeded d)
           (snd (dispatch gateway (insert_into "invoices" 1) (initial 0))) []).
  - unfold dispatch. cbn [operation insert_into String.eqb]. cbn.
    unfold insert, try_catch, bind. rewrite await_run. cbn [gateway_calls initial].
    rewrite Hreply. reflexivity.
  - reflexivity.
  - constructor.
Qed.

(** A worked instance of X21. *)
Lemma batch_stops_at_first_error_message_witness :
  let gateway := gateway_second_rejects invoice_1 "duplicate key" in
  let w1 := snd (dispatch gateway (insert_into "invoices" 1) (initial 0)) in
  let w2 := snd (dispatch gateway (insert_into "quotes" 2) w1) in
  batch gateway ([insert_into "invoices" 1]
                 ++ insert_into "quotes" 2 :: [insert_into "orders" 3]) (initial 0)
  = (inr (failed "duplicate key"), w2)
  /\ length (gateway_calls w2) = 2%nat.
Proof.
  intros gateway w1 w2. split; [|vm_compute; reflexivity].
  apply (batch_stops_at_first_error_message gateway [insert_into "invoices" 1]
           [insert_into "orders" 3] (insert_into "quotes" 2) [Some invoice_1]
           (failed "duplicate key") "duplicate key" (initial 0) w1 w2).
  - apply first_insert_ran. reflexivity.
  - vm_compute. reflexivity.
  - reflexivity.
  - discriminate.
Defined.

(** A worked instance of X22. *)
Lemma batch_returns_all_data_in_order_witness :
  let gateway := gateway_rows invoice_1 in
  let w' := snd (dispatch gateway (insert_into "invoices" 1) (initial 0)) in
  fst (batch gateway [insert_into "invoices" 1] (initial 0)) = inr (succeeded [Some invoice_1])
  /\ length [Some invoice_1] = length [insert_into "invoices" 1]
  /\ gateway_calls (snd (batch gateway [insert_into "invoices" 1] (initial 0)))
     = gateway_calls w'
  /\ cache (snd (batch gateway [insert_into "invoices" 1] (initial 0))) = cache w'.
Proof.
  intros gateway w'.
  apply (batch_returns_all_data_in_order gateway [insert_into "invoices" 1]
           [Some invoice_1] (initial 0)).
  apply first_insert_ran. reflexivity.
Defined.

(** A worked instance of X23. *)
Lemma batch_rejects_unsupported_operation_witness :
  let gateway := gateway_rows invoice_1 in
  let merge := {| operation := "merge"; table := "invoices"; op_data := None;
                  op_filters := None; op_options := None |} in
  let w1 := snd (dispatch gateway (insert_into "invoices" 1) (initial 0)) in
  fst (batch gateway ([insert_into "invoices" 1] ++ merge :: [insert_into "quotes" 2])
         (initial 0))
  = inr (failed "Unsupported operation: merge")
  /\ gateway_calls (snd (batch gateway
                           ([insert_into "invoices" 1] ++ merge :: [insert_into "quotes" 2])
                           (initial 0)))
     = gateway_calls w1
  /\ cache (snd (batch gateway
                   ([insert_into "invoices" 1] ++ merge :: [insert_into "quotes" 2])
                   (initial 0)))
     = cache w1.
Proof.
  intros gateway merge w1.
  apply (batch_rejects_unsupported_operation gateway [insert_into "invoices" 1]
           [insert_into "quotes" 2] merge [Some invoice_1] (initial 0) w1).
  - apply first_insert_ran. reflexivity.
  - cbn [operation merge]. intros Hin.
    repeat (apply elem_of_cons in Hin as [Hin|Hin]; [discriminate Hin|]).
    now apply elem_of_nil in Hin.
Defined.

(** A worked instance of X1. *)
Lemma cache_keys_do_not_collide_witness :
  "invoices" = "invoices" /\ OpSelect = OpSelect /\ paid_first = paid_first.
Proof.
  apply cache_keys_do_not_collide; reflexivity.
Defined.

(** A worked instance of X7. *)
Lemma invalidation_is_idempotent_witness :
  let once := snd (invalidateCacheByTags ["invoices"] cached_invoices) in
  let twice := snd (invalidateCacheByTags ["invoices"] once) in
  cache twice = cache once
  /\ cache (snd (invalidateCacheByTags [] cached_invoices)) = cache cached_invoices
  /\ log_data <$> last (logged twice) = Some (Some (JObj [("invalidatedCount", JNum 0)])).
Proof.
  exact (invalidation_is_idempotent ["invoices"] cached_invoices eq_refl).
Defined.

(** A worked instance of X6. *)
Lemma setDefaultTTL_spares_cached_entries_witness :
  let key := generateCacheKey "invoices" OpSelect (JObj []) in
  let w' := snd (setDefaultTTL 60 cached_invoices) in
  fst (getFromCache key w')
  = inr (Some {| data := Some invoice_1; error := None; fromCache := true;
                 cachedAt := Some (5000 - 60 * 1000); expiresAt := Some 5000 |})
  /\ cache (snd (setCache "q:1" [] None [] w')) !! "q:1"
     = Some {| entry_data := []; entry_expiresAt := 0 + 60 * 1000; entry_tags := [] |}.
Proof.
  intros key w'. split.
  - destruct (setDefaultTTL_spares_cached_entries key 60 [] [] cached_invoices)
      as (_ & Hhit & _).
    apply (Hhit {| data := Some invoice_1; error := None; fromCache := true;
                   cachedAt := Some (5000 - 300 * 1000); expiresAt := Some 5000 |} 5000).
    + vm_compute. reflexivity.
    + reflexivity.
    + unfold in_date_range, max_date. lia.
  - destruct (setDefaultTTL_spares_cached_entries "q:1" 60 [] [] cached_invoices)
      as (_ & _ & _ & Hset).
    apply Hset. reflexivity.
Defined.

(** * Switching the cache off and on *)

(** X24: switching caching off does not empty the cache, and a write made
    while it is off invalidates nothing, whatever tags it names: once
    caching is switched on again, a read cached before is served its old
    rows, without a request, until its entry expires (the dates of the entry
    being valid dates, as a hit needs them). *)
Theorem entries_survive_writes_while_disabled
    (gateway : list Request -> Request -> Reply) (c : WriteCall)
    (table : string) (options : json) (entry : CacheEntry) (w : World) :
  let key := generateCacheKey table OpSelect options in
  let off := snd (setCacheEnabled false w) in
  let written := snd (perform gateway c off) in
  let on := snd (setCacheEnabled true written) in
  cache w !! key = Some entry ->
  clock on < entry_expiresAt entry ->
  dates_in_range w entry ->
  cache written = cache w
  /\ exists r, select gateway table options on = (inr r, on)
               /\ data r = Some (entry_data entry) /\ fromCache r = true.
Proof.
  intros key off written on Hk Ht Hdates.
  assert (Hsame : cache written = cache w).
  { apply map_eq. intros k.
    destruct (perform_cache_lookup gateway c k off) as [Heq|(_ & Hon & _)].
    - exact Heq.
    - discriminate Hon. }
  destruct (perform_frame gateway c off) as (_ & Hd & _). fold written in Hd.
  split; [exact Hsame|].
  eexists. split.
  - apply select_on_hit. apply (getFromCache_hit _ entry).
    + reflexivity.
    + change (cache written !! key = Some entry). now rewrite Hsame.
    + exact Ht.
    + unfold dates_in_range. change (defaultTTL on) with (defaultTTL written).
      rewrite Hd. exact Hdates.
  - cbn. auto.
Qed.

(** A worked instance of X24. *)
Lemma entries_survive_writes_while_disabled_witness :
  let written := snd (perform (gateway_rows invoice_1) (insert_invoice invalidate_invoices)
                        (snd (setCacheEnabled false cached_invoices))) in
  let on := snd (setCacheEnabled true written) in
  cache written = cache cached_invoices
  /\ exists r, select (gateway_rows invoice_1) "invoices" (JObj []) on = (inr r, on)
               /\ data r = Some (entry_data invoices_entry) /\ fromCache r = true.
Proof.
  intros written on.
  refine (entries_survive_writes_while_disabled (gateway_rows invoice_1)
            (insert_invoice invalidate_invoices) "invoices" (JObj []) invoices_entry
            cached_invoices _ _ _).
  - vm_compute. reflexivity.
  - vm_compute. reflexivity.
  - unfold dates_in_range, in_date_range, max_date. cbn. lia.
Defined.
